(** * Smart Cyber Defense Dashboard: reconstruction, checkpointing and persistence

    A shallow embedding of the resumable document pipeline of the repository:

    - [Ingestion]       : [threat_graph_engine/ingestion.py]
                          ([ChunkedThreatLoader.load_and_reconstruct]);
    - [MitreStix]       : [KG_pipeline/mitre_stix_integrator.py];
    - [Neo4jPersistor]  : [threat_graph_engine/neo4j_persistor.py];
    - [Manager]         : [threat_sources_manager.py]
                          (checkpoint, [process_document], [ingest_to_neo4j],
                          [run_pipeline]);
    - [PersistorBulk]   : [Neo4jPersistor.save_entities_bulk];
    - [SchemaLabels]    : [KG_pipeline/schemas.py] ([map_entity_label]);
    - [NerExtractor]    : [KG_pipeline/ner_extractor.py]
                          ([filter_and_deduplicate_entities],
                          [NERExtractor.extract_entities]);
    - [RelationExtractor] : [KG_pipeline/relation_extractor.py]
                          ([BaseLLMClient.extract_relations]).

    Python values are modelled as follows.  [int] is [Z]; [str] is [string]
    (code points below 256); a [set] of ints is a [gset Z]; a [dict] whose
    iteration order is observed is an association list in insertion order;
    [None] is [None]; a raised exception is the [Raise] branch of [result].
    Effects are explicit: every function takes and returns the part of the
    state it touches, and the executor returns the events it produced. *)

From Stdlib Require Import ZArith List Bool Ascii String Lia Sorting.Sorted Permutation.
From Stdlib Require QArith.
From Stdlib Require Import DecimalString.
From Stdlib Require DecimalFacts DecimalPos DecimalZ.
From stdpp Require Import base option list gmap strings.

Local Open Scope Z_scope.
Local Open Scope string_scope.
Local Open Scope list_scope.

Abbreviation Q := QArith_base.Q.

(** ** Python string helpers *)

Module PyStr.

(** [str.isspace] on one character, for code points below 256:
    TAB..CR, FS..US, SPACE, NEL and NBSP. *)
Definition isspace (a : ascii) : bool :=
  let n := nat_of_ascii a in
  ((9 <=? n)%nat && (n <=? 13)%nat) || ((28 <=? n)%nat && (n <=? 32)%nat)
  || (n =? 133)%nat || (n =? 160)%nat.

Fixpoint lstrip (s : string) : string :=
  match s with
  | EmptyString => EmptyString
  | String a s' => if isspace a then lstrip s' else s
  end.

Fixpoint rstrip (s : string) : string :=
  match s with
  | EmptyString => EmptyString
  | String a s' =>
      match rstrip s' with
      | EmptyString => if isspace a then EmptyString else String a EmptyString
      | r => String a r
      end
  end.

(** [s.strip()] *)
Definition strip (s : string) : string := rstrip (lstrip s).

(** [sep.join(parts)] *)
Definition join (sep : string) (parts : list string) : string :=
  String.concat sep parts.

(** [s.lower()], exact for code points below 256: the letters A-Z and the
    Latin-1 capitals 192-222, the multiplication sign 215 apart, move up
    by 32; every other character is left as it is. *)
Definition lower_char (a : ascii) : ascii :=
  let n := nat_of_ascii a in
  if ((65 <=? n)%nat && (n <=? 90)%nat)
     || ((192 <=? n)%nat && (n <=? 222)%nat && negb (n =? 215)%nat)
  then ascii_of_nat (n + 32) else a.

Fixpoint lower (s : string) : string :=
  match s with
  | EmptyString => EmptyString
  | String a s' => String (lower_char a) (lower s')
  end.

(** [s.upper()], exact for code points below 256.  The result can leave
    that range and can be longer than the text, so it is given as the list
    of its code points: the letters a-z and the Latin-1 small letters
    224-254, the division sign 247 apart, move down by 32; the micro sign
    181 becomes 924, the sharp s 223 becomes "SS", the y with diaeresis 255
    becomes 376; every other character is left as it is. *)
Definition upper_char (a : ascii) : list nat :=
  let n := nat_of_ascii a in
  if ((97 <=? n)%nat && (n <=? 122)%nat)
     || ((224 <=? n)%nat && (n <=? 254)%nat && negb (n =? 247)%nat)
  then [(n - 32)%nat]
  else if (n =? 181)%nat then [924%nat]
  else if (n =? 223)%nat then [83%nat; 83%nat]
  else if (n =? 255)%nat then [376%nat]
  else [n].

Fixpoint upper (s : string) : list nat :=
  match s with
  | EmptyString => []
  | String a s' => upper_char a ++ upper s'
  end.

(** [==] on two upper-cased texts. *)
Fixpoint codes_eqb (a b : list nat) : bool :=
  match a, b with
  | [], [] => true
  | x :: a', y :: b' => Nat.eqb x y && codes_eqb a' b'
  | _, _ => false
  end.

(** Truthiness of a [str]: non-empty. *)
Definition truthy (s : string) : bool :=
  match s with EmptyString => false | _ => true end.

End PyStr.

(** ** Documents, as the dicts passed from ingestion to the pipeline *)

Record Document := mkDocument {
  record_id : option Z;          (* doc.get("record_id") *)
  source : option string;
  type : option string;
  indicator : option string;
  date : option string;
  text : string                  (* doc.get("text", "") *)
}.

(** ** threat_graph_engine/ingestion.py *)

Module Ingestion.

Definition MAX_CHUNK_TEXT_LENGTH : nat := 2048.
Definition MIN_TEXT_LENGTH : nat := 10.

(** A raw chunk as yielded by [_stream_chunks], after the coercions of the
    first lines of the loop body: [c_record_id] and [c_chunk_index] hold the
    outcome of [int(chunk["record_id"])] and [int(chunk["chunk_index"])]
    ([None] when the key is missing or the value does not coerce, i.e. when
    the [except] branch is taken); [c_text] is [chunk.get("text", "")] with
    [None] for a null or non-text value. *)
Record Chunk := mkChunk {
  c_record_id : option Z;
  c_chunk_index : option Z;
  c_text : option string;
  c_source : option string;
  c_type : option string;
  c_indicator : option string;
  c_date : option string
}.

(** The value of the [defaultdict] factory plus the accumulated chunks. *)
Record rec_entry := mkEntry {
  e_record_id : option Z;
  e_source : option string;
  e_type : option string;
  e_indicator : option string;
  e_date : option string;
  text_chunks : list (Z * string)
}.

Definition default_entry : rec_entry := mkEntry None None None None None [].

(** The data quality checks of the loop body.  [Some (rec_id, chunk_idx,
    text)] when the chunk is retained, [None] when it is skipped (too short,
    too long, or malformed). *)
Definition check_chunk (c : Chunk) : option (Z * Z * string) :=
  match c_record_id c with
  | None => None
  | Some rec_id =>
      match c_chunk_index c with
      | None => None
      | Some chunk_idx =>
          match c_text c with
          | None => None
          | Some text =>
              if negb (PyStr.truthy text && (MIN_TEXT_LENGTH <=? String.length text)%nat)
              then None
              else if (MAX_CHUNK_TEXT_LENGTH <? String.length text)%nat then None
              else Some (rec_id, chunk_idx, text)
          end
      end
  end.

(** [rec_entry = records_map[rec_id]] followed by the metadata assignment and
    [rec_entry["text_chunks"].append((chunk_idx, text))]. *)
Definition add_chunk (rec_id chunk_idx : Z) (text : string) (c : Chunk)
    (e : rec_entry) : rec_entry :=
  match e_record_id e with
  | None =>
      mkEntry (Some rec_id) (c_source c) (c_type c) (c_indicator c) (c_date c)
              (text_chunks e ++ [(chunk_idx, text)])
  | Some _ =>
      mkEntry (e_record_id e) (e_source e) (e_type e) (e_indicator e) (e_date e)
              (text_chunks e ++ [(chunk_idx, text)])
  end.

(** [records_map] is a dict: iteration follows the order of first insertion.
    [update_entry k f m] applies [f] to the entry of [k], creating it from
    the default at the end of the map when [k] is new. *)
Fixpoint update_entry (k : Z) (f : rec_entry -> rec_entry)
    (m : list (Z * rec_entry)) : list (Z * rec_entry) :=
  match m with
  | [] => [(k, f default_entry)]
  | (k', e) :: m' =>
      if Z.eqb k k' then (k', f e) :: m' else (k', e) :: update_entry k f m'
  end.

Record scan_state := mkScan {
  records_map : list (Z * rec_entry);
  total_chunks : nat;
  valid_chunks : nat;
  skipped_chunks : nat
}.

Definition scan_init : scan_state := mkScan [] 0 0 0.

(** One iteration of [for chunk in chunks_iter]. *)
Definition scan_chunk (st : scan_state) (c : Chunk) : scan_state :=
  match check_chunk c with
  | None =>
      mkScan (records_map st) (S (total_chunks st)) (valid_chunks st)
             (S (skipped_chunks st))
  | Some (rec_id, chunk_idx, text) =>
      mkScan (update_entry rec_id (add_chunk rec_id chunk_idx text c) (records_map st))
             (S (total_chunks st)) (S (valid_chunks st)) (skipped_chunks st)
  end.

Definition scan (chunks : list Chunk) : scan_state :=
  fold_left scan_chunk chunks scan_init.

(** [list.sort(key=lambda x: x[0])]: a stable sort on the chunk index.
    Modelled by insertion from the right, which keeps equal keys in their
    original order; [sort_chunks_unique] below shows that every stable
    sorting procedure computes the same list. *)
Fixpoint insert_chunk (x : Z * string) (l : list (Z * string)) : list (Z * string) :=
  match l with
  | [] => [x]
  | y :: l' => if Z.leb (fst x) (fst y) then x :: l else y :: insert_chunk x l'
  end.

Definition sort_chunks (l : list (Z * string)) : list (Z * string) :=
  fold_right insert_chunk [] l.

(** The body of the reconstruction loop for one entry of [records_map]. *)
Definition reconstruct_entry (kv : Z * rec_entry) : Document :=
  let rec_id := fst kv in
  let rec := snd kv in
  let sorted := sort_chunks (text_chunks rec) in
  let full_text := PyStr.strip (PyStr.join " " (map snd sorted)) in
  mkDocument (Some rec_id) (e_source rec) (e_type rec) (e_indicator rec)
             (e_date rec) full_text.

Definition load_and_reconstruct (chunks : list Chunk) : list Document :=
  map reconstruct_entry (records_map (scan chunks)).

Definition ingest_data := load_and_reconstruct.

(** *** Specification-side vocabulary *)

(** The retained [(chunk_index, text)] pairs of record [d], in read order. *)
Definition chunks_of (d : Z) (chunks : list Chunk) : list (Z * string) :=
  omap (fun c => match check_chunk c with
                 | Some (r, i, t) => if Z.eqb r d then Some (i, t) else None
                 | None => None
                 end) chunks.

(** The chunk carries the pair (documentId, position) = (d, p). *)
Definition has_key (d p : Z) (c : Chunk) : bool :=
  match c_record_id c, c_chunk_index c with
  | Some r, Some i => Z.eqb r d && Z.eqb i p
  | _, _ => false
  end.

(** The text of the reconstructed document with id [d], if there is one. *)
Definition doc_text (d : Z) (docs : list Document) : option string :=
  text <$> List.find (fun doc => bool_decide (record_id doc = Some d)) docs.

Definition plain_chunk (d p : Z) (t : string) : Chunk :=
  mkChunk (Some d) (Some p) (Some t) None None None None.

End Ingestion.

(** ** Exceptions and results *)

(** The exception classes the modelled code raises or catches.  All of them
    are subclasses of [Exception], so an [except Exception] clause catches
    every one of them; [except TransientError] catches only the second. *)
Inductive exn :=
| ValueError            (* raised by the persistor's field checks *)
| TransientError        (* neo4j.exceptions.TransientError *)
| ServiceUnavailable    (* any other driver failure *)
| ClientError           (* a query rejected by the server *)
| FileNotFoundError     (* no MITRE reference data *)
| AttributeError        (* attribute access on None *)
| JSONDecodeError       (* json.load on malformed text *)
| StageError.           (* any exception escaping an external stage *)

Inductive result (A : Type) :=
| Ok (a : A)
| Raise (e : exn).
Arguments Ok {A} a.
Arguments Raise {A} e.

Definition is_ok {A} (r : result A) : bool :=
  match r with Ok _ => true | Raise _ => false end.

(** ** KG_pipeline/schemas.py *)

Module Schemas.

(** [ThreatEntity]: the fields the modelled code reads or writes, after
    [__post_init__].  [ety] is the attribute [type] ([None] when the
    extractor supplied none). *)
Record ThreatEntity := mkEntity {
  name : string;
  ety : option string;
  etext : option string;
  confidence : option Q;
  description : option string;
  mitre_id : option string;
  external_references : option (list string)
}.

(** [ThreatRelationship], likewise. *)
Record ThreatRelationship := mkRelationship {
  source_name : string;
  source_type : option string;
  target_name : string;
  target_type : option string;
  relationship_type : option string;
  rdescription : option string;
  rconfidence : option Q
}.

End Schemas.

(** ** KG_pipeline/mitre_stix_integrator.py *)

Module MitreStix.
Import Schemas.

(** One entry of [external_references] of a STIX object: the values of
    [ref.get("source_name")], [ref.get("external_id")], [ref.get("url")]. *)
Record ext_ref := mkRef {
  ref_source_name : option string;
  ref_external_id : option string;
  ref_url : option string
}.

(** A STIX object: [obj.get("external_references", [])] and the values of
    [obj.get(k, "")] for name, description and type. *)
Record stix_object := mkStix {
  obj_external_references : list ext_ref;
  obj_name : string;
  obj_description : string;
  obj_type : string
}.

(** The decoded reference data: the empty dict, a non-empty dict without
    the key "objects", or a dict with it. *)
Inductive mitre_data :=
| MitreEmpty
| MitreNoObjects
| MitreObjects (objects : list stix_object).

Definition data_truthy (d : mitre_data) : bool :=
  match d with MitreEmpty => false | _ => true end.

(** The environment of [fetch_mitre_data]: the in-memory [mitre_cache] of
    the [@cached] decorator (which stores returned values only, never an
    exception) and what [load_local_cache] finds on disk ([None] when the
    file is missing or unreadable). *)
Record mitre_env := mkMitreEnv {
  mitre_cache : option mitre_data;
  local_cache : option mitre_data
}.

Definition load_local_cache (env : mitre_env) : option mitre_data := local_cache env.

Definition fetch_mitre_data (env : mitre_env) : result mitre_data * mitre_env :=
  match mitre_cache env with
  | Some d => (Ok d, env)
  | None =>
      match load_local_cache env with
      | Some local_data =>
          if data_truthy local_data
          then (Ok local_data, mkMitreEnv (Some local_data) (local_cache env))
          else (Raise FileNotFoundError, env)
      | None => (Raise FileNotFoundError, env)
      end
  end.

Record mitre_info := mkInfo {
  mi_mitre_id : string;
  mi_description : string;
  mi_external_references : list string;
  mi_type : string;
  mi_name : string
}.

(** The inner loop over [ext_refs]: the external id of the first reference
    whose source is "mitre-attack". *)
Fixpoint first_mitre_id (ext_refs : list ext_ref) : option string :=
  match ext_refs with
  | [] => None
  | ref :: rest =>
      match ref_source_name ref with
      | Some s => if String.eqb s "mitre-attack" then ref_external_id ref
                  else first_mitre_id rest
      | None => first_mitre_id rest
      end
  end.

(** [[ref.get("url") for ref in ext_refs if ref.get("url")]] *)
Definition ref_urls (ext_refs : list ext_ref) : list string :=
  omap (fun ref => match ref_url ref with
                   | Some u => if PyStr.truthy u then Some u else None
                   | None => None
                   end) ext_refs.

Definition opt_truthy (o : option string) : bool :=
  match o with Some s => PyStr.truthy s | None => false end.

Fixpoint find_in_objects (name_upper : list nat) (objects : list stix_object)
    : option mitre_info :=
  match objects with
  | [] => None
  | obj :: rest =>
      let ext_refs := obj_external_references obj in
      let mid := first_mitre_id ext_refs in
      if opt_truthy mid && PyStr.codes_eqb (PyStr.upper (default "" mid)) name_upper then
        Some (mkInfo (default "" mid) (obj_description obj) (ref_urls ext_refs)
                     (obj_type obj) (obj_name obj))
      else if PyStr.codes_eqb (PyStr.upper (obj_name obj)) name_upper then
        Some (mkInfo (if opt_truthy mid then default "" mid else "")
                     (obj_description obj) (ref_urls ext_refs)
                     (obj_type obj) (obj_name obj))
      else find_in_objects name_upper rest
  end.

Definition find_mitre_info (name : string) (data : mitre_data) : option mitre_info :=
  match data with
  | MitreEmpty | MitreNoObjects => None
  | MitreObjects objects => find_in_objects (PyStr.upper name) objects
  end.

Definition mitre_types : list string := ["ttp"; "technique"; "tactic"].

(** The body of the loop of [enrich_entities_with_mitre_stix] for one
    entity; [entity.type.lower()] raises on an entity without a type. *)
Definition enrich_entity (data : mitre_data) (entity : ThreatEntity)
    : result ThreatEntity :=
  match ety entity with
  | None => Raise AttributeError
  | Some t =>
      if existsb (String.eqb (PyStr.lower t)) mitre_types then
        match find_mitre_info (name entity) data with
        | Some info =>
            Ok (mkEntity (name entity) (ety entity) (etext entity) (confidence entity)
                         (Some (mi_description info)) (Some (mi_mitre_id info))
                         (Some (mi_external_references info)))
        | None => Ok entity
        end
      else Ok entity
  end.

Fixpoint enrich_all (data : mitre_data) (entities : list ThreatEntity)
    : result (list ThreatEntity) :=
  match entities with
  | [] => Ok []
  | entity :: rest =>
      match enrich_entity data entity with
      | Raise e => Raise e
      | Ok entity' =>
          match enrich_all data rest with
          | Raise e => Raise e
          | Ok rest' => Ok (entity' :: rest')
          end
      end
  end.

Definition enrich_entities_with_mitre_stix (entities : list ThreatEntity)
    (env : mitre_env) : result (list ThreatEntity) * mitre_env :=
  match fetch_mitre_data env with
  | (Raise e, env') => (Raise e, env')
  | (Ok data, env') => (enrich_all data entities, env')
  end.

End MitreStix.

(** ** The checkpoint file format: a JSON array of integers *)

Module Json.

(** [json.dumps] of one [int]. *)
Definition show_int (z : Z) : string := NilZero.string_of_int (Z.to_int z).

(** [json.dumps] of a list of ints: items separated by a comma and a space. *)
Definition dumps (l : list Z) : string :=
  "[" +:+ PyStr.join ", " (map show_int l) +:+ "]".

(** JSON insignificant whitespace: space, tab, line feed, carriage return. *)
Definition is_ws (a : ascii) : bool :=
  let n := nat_of_ascii a in
  (n =? 32)%nat || (n =? 9)%nat || (n =? 10)%nat || (n =? 13)%nat.

Fixpoint ltrim (s : string) : string :=
  match s with
  | EmptyString => EmptyString
  | String a s' => if is_ws a then ltrim s' else s
  end.

Fixpoint rtrim (s : string) : string :=
  match s with
  | EmptyString => EmptyString
  | String a s' =>
      match rtrim s' with
      | EmptyString => if is_ws a then EmptyString else String a EmptyString
      | r => String a r
      end
  end.

Definition trim (s : string) : string := rtrim (ltrim s).

(** The string without its last character, when that character is [c]. *)
Fixpoint strip_last (c : ascii) (s : string) : option string :=
  match s with
  | EmptyString => None
  | String a EmptyString => if Ascii.eqb a c then Some EmptyString else None
  | String a s' => option_map (String a) (strip_last c s')
  end.

Fixpoint split_commas (s : string) : list string :=
  match s with
  | EmptyString => [EmptyString]
  | String a s' =>
      if Ascii.eqb a "," then EmptyString :: split_commas s'
      else match split_commas s' with
           | [] => [String a EmptyString]
           | x :: xs => String a x :: xs
           end
  end.

(** The shape of a JSON integer: an optional minus sign, then either the
    single digit 0 or digits not starting with 0. *)
Definition json_int_shape (s : string) : bool :=
  let body := match s with
              | String a s' => if Ascii.eqb a "-" then s' else s
              | EmptyString => s
              end in
  match body with
  | EmptyString => false
  | String a rest =>
      if Ascii.eqb a "0" then match rest with EmptyString => true | _ => false end
      else true
  end.

Definition parse_int (s : string) : option Z :=
  if json_int_shape s then option_map Z.of_int (NilZero.int_of_string s) else None.

Fixpoint parse_items (items : list string) : option (list Z) :=
  match items with
  | [] => Some []
  | x :: rest =>
      match parse_int (trim x), parse_items rest with
      | Some z, Some zs => Some (z :: zs)
      | _, _ => None
      end
  end.

(** [json.loads] restricted to the documents the checkpoint holds: an array
    of integers.  [None] stands for [JSONDecodeError]; the program never
    writes any other JSON document to the checkpoint file. *)
Definition loads (s : string) : option (list Z) :=
  match trim s with
  | String a rest =>
      if Ascii.eqb a "[" then
        match strip_last "]" rest with
        | Some inner =>
            match trim inner with
            | EmptyString => Some []
            | _ => parse_items (split_commas inner)
            end
        | None => None
        end
      else None
  | EmptyString => None
  end.

(** The first [n] characters of [s]. *)
Fixpoint prefix (n : nat) (s : string) : string :=
  match n, s with
  | S n', String a s' => String a (prefix n' s')
  | _, _ => EmptyString
  end.

End Json.

(** ** threat_graph_engine/neo4j_persistor.py *)

Module Neo4jPersistor.
Import Schemas.

(** Property values stored in the graph.  A Cypher null is not a value:
    [SET x.k = null] removes the property. *)
Inductive pvalue :=
| PStr (s : string)
| PFloat (q : Q)
| PList (l : list string).

(** A node is its property map; every node the program creates carries the
    label [ThreatEntity].  A relationship has type [RELATION], its two end
    nodes (positions in [nodes]) and a property map. *)
Record relation := mkRel {
  r_source : nat;
  r_target : nat;
  r_props : gmap string pvalue
}.

Record graph := mkGraph {
  nodes : list (gmap string pvalue);
  rels : list relation
}.

Definition empty_graph : graph := mkGraph [] [].

(** [props.k = s] for a string-valued property. *)
Definition prop_is (k s : string) (props : gmap string pvalue) : bool :=
  match props !! k with
  | Some (PStr s') => String.eqb s s'
  | _ => false
  end.

(** [SET x.k1 = v1, x.k2 = v2, ...] with parameters that may be null. *)
Definition set_prop (props : gmap string pvalue) (kv : string * option pvalue)
    : gmap string pvalue :=
  match snd kv with
  | Some v => <[fst kv := v]> props
  | None => delete (fst kv) props
  end.

Definition set_props (kvs : list (string * option pvalue))
    (props : gmap string pvalue) : gmap string pvalue :=
  fold_left set_prop kvs props.

(** [MERGE (x:ThreatEntity {k1: s1, ...})]: all nodes matching the pattern,
    or a fresh node holding exactly the pattern when none matches. *)
Definition node_matches (pat : list (string * string))
    (props : gmap string pvalue) : bool :=
  forallb (fun ks => prop_is (fst ks) (snd ks) props) pat.

Fixpoint matching_from (i : nat) (pat : list (string * string))
    (ns : list (gmap string pvalue)) : list nat :=
  match ns with
  | [] => []
  | n :: ns' =>
      if node_matches pat n then i :: matching_from (S i) pat ns'
      else matching_from (S i) pat ns'
  end.

Definition node_of_pattern (pat : list (string * string)) : gmap string pvalue :=
  fold_left (fun m ks => <[fst ks := PStr (snd ks)]> m) pat ∅.

Definition merge_node (pat : list (string * string))
    (ns : list (gmap string pvalue)) : list (gmap string pvalue) * list nat :=
  match matching_from 0 pat ns with
  | [] => (ns ++ [node_of_pattern pat], [length ns])
  | found => (ns, found)
  end.

(** *** The two upsert queries *)

Definition str_param (o : option string) : option pvalue := option_map PStr o.
Definition float_param (o : option Q) : option pvalue := option_map PFloat o.

(** The [SET] clause of [save_entity] with its parameters. *)
Definition entity_assignments (run_id : string) (entity : ThreatEntity)
    : list (string * option pvalue) :=
  [ ("entity_type", str_param (ety entity));
    ("source_text", str_param (etext entity));
    ("confidence", float_param (confidence entity));
    ("mitre_id", str_param (mitre_id entity));
    ("description", str_param (description entity));
    ("external_references",
       Some (PList (default [] (external_references entity))));
    ("run_id", Some (PStr run_id)) ].

(** [MERGE (e:ThreatEntity {name: $name}) SET e.entity_type = ..., ...]:
    the [SET] applies to every node bound by the [MERGE]. *)
Definition entity_query (run_id : string) (entity : ThreatEntity) (g : graph)
    : result graph :=
  let '(ns, found) := merge_node [("name", name entity)] (nodes g) in
  let assign := set_props (entity_assignments run_id entity) in
  Ok (mkGraph (map (fun n => if node_matches [("name", name entity)] n
                             then assign n else n) ns)
              (rels g)).

(** [relation.description or ""] and [relation.confidence or 0.0] *)
Definition description_or_empty (o : option string) : string :=
  match o with
  | Some s => if PyStr.truthy s then s else ""
  | None => ""
  end.

Definition zero : Q := QArith_base.Qmake 0 1.

Definition confidence_or_zero (o : option Q) : Q :=
  match o with
  | Some q => if QArith_base.Qeq_bool q zero then zero else q
  | None => zero
  end.

Definition relation_assignments (run_id : string) (relation : ThreatRelationship)
    : list (string * option pvalue) :=
  [ ("description", Some (PStr (description_or_empty (rdescription relation))));
    ("confidence", Some (PFloat (confidence_or_zero (rconfidence relation))));
    ("run_id", Some (PStr run_id)) ].

Definition rel_matches (s t : nat) (rtype : string) (r : relation) : bool :=
  Nat.eqb (r_source r) s && Nat.eqb (r_target r) t && prop_is "type" rtype (r_props r).

(** [MERGE (source)-[r:RELATION {type: $t}]->(target) SET r....] for one
    pair of bound end nodes. *)
Definition merge_rel (rtype : string) (assign : gmap string pvalue -> gmap string pvalue)
    (rs : list relation) (st : nat * nat) : list relation :=
  let s := fst st in
  let t := snd st in
  let upd r := mkRel (r_source r) (r_target r) (assign (r_props r)) in
  if existsb (rel_matches s t rtype) rs
  then map (fun r => if rel_matches s t rtype r then upd r else r) rs
  else rs ++ [upd (mkRel s t {[ "type" := PStr rtype ]})].

(** The query of [save_relationship].  A null in a [MERGE] pattern is
    rejected by the server. *)
Definition relationship_query (run_id : string) (relation : ThreatRelationship)
    (g : graph) : result graph :=
  match source_type relation, target_type relation, relationship_type relation with
  | Some stype, Some ttype, Some rtype =>
      let '(ns1, sources) :=
        merge_node [("name", source_name relation); ("entity_type", stype)] (nodes g) in
      let '(ns2, targets) :=
        merge_node [("name", target_name relation); ("entity_type", ttype)] ns1 in
      Ok (mkGraph ns2
            (fold_left (merge_rel rtype (set_props (relation_assignments run_id relation)))
                       (list_prod sources targets) (rels g)))
  | _, _, _ => Raise ClientError
  end.

(** *** The session and the retry loop *)

(** What happens to one [session.run]: it goes through, or the server
    reports a transient failure, or the driver fails otherwise. *)
Inductive outcome := Succeed | FailTransient | FailOther.

(** The persistor with its store: the graph, the persistor's [run_id], the
    outcomes of the coming [session.run] calls (all succeeding once the
    list is used up) and the number of calls made so far. *)
Record db := mkDb {
  store : graph;
  run_id : string;
  coming : list outcome;
  attempts : nat
}.

Definition session_run (query : graph -> result graph) (d : db) : result unit * db :=
  let rest := tl (coming d) in
  let n := S (attempts d) in
  match hd Succeed (coming d) with
  | FailTransient => (Raise TransientError, mkDb (store d) (run_id d) rest n)
  | FailOther => (Raise ServiceUnavailable, mkDb (store d) (run_id d) rest n)
  | Succeed =>
      match query (store d) with
      | Ok g => (Ok tt, mkDb g (run_id d) rest n)
      | Raise e => (Raise e, mkDb (store d) (run_id d) rest n)
      end
  end.

(** The [while retries < max_retries] loop, by recursion on
    [max_retries - retries].  Falling out of the loop returns [None]. *)
Fixpoint retry_loop {A} (remaining : nat) (func : db -> result A * db) (d : db)
    : result (option A) * db :=
  match remaining with
  | O => (Ok None, d)
  | S remaining' =>
      match func d with
      | (Ok a, d') => (Ok (Some a), d')
      | (Raise TransientError, d') =>
          match remaining' with
          | O => (Raise TransientError, d')
          | S _ => retry_loop remaining' func d'
          end
      | (Raise e, d') => (Raise e, d')
      end
  end.

Definition _run_with_retry {A} (func : db -> result A * db) (max_retries : nat) (d : db)
    : result (option A) * db :=
  retry_loop max_retries func d.

Definition default_max_retries : nat := 3.

(** [CREATE INDEX IF NOT EXISTS ...], twice; the graph content is unchanged. *)
Definition _ensure_indexes (d : db) : result unit * db :=
  match session_run Ok d with
  | (Raise e, d') => (Raise e, d')
  | (Ok _, d') => session_run Ok d'
  end.

(** [Neo4jPersistor(uri, user, password, run_id=...)] on the store [d]. *)
Definition connect (rid : string) (d : db) : result unit * db :=
  _ensure_indexes (mkDb (store d) rid (coming d) (attempts d)).

Definition discard {A} (r : result A * db) : result unit * db :=
  match r with
  | (Ok _, d) => (Ok tt, d)
  | (Raise e, d) => (Raise e, d)
  end.

Definition save_entity (entity : ThreatEntity) (d : db) : result unit * db :=
  if negb (PyStr.truthy (name entity)) || negb (MitreStix.opt_truthy (ety entity))
  then (Raise ValueError, d)
  else discard (_run_with_retry (session_run (entity_query (run_id d) entity))
                                default_max_retries d).

Definition save_relationship (relation : ThreatRelationship) (d : db) : result unit * db :=
  if negb (PyStr.truthy (source_name relation))
     || negb (PyStr.truthy (target_name relation))
     || negb (MitreStix.opt_truthy (relationship_type relation))
  then (Raise ValueError, d)
  else discard (_run_with_retry (session_run (relationship_query (run_id d) relation))
                                default_max_retries d).

(** [MATCH (n) DETACH DELETE n] *)
Definition clear_graph (d : db) : result unit * db :=
  discard (_run_with_retry (session_run (fun _ => Ok empty_graph)) default_max_retries d).

End Neo4jPersistor.

(** ** threat_sources_manager.py *)

Module Manager.
Import Schemas.

(** The module-level [metrics] dict. *)
Record metrics := mkMetrics {
  empty_texts : nat;
  total_entities : nat;
  total_relationships : nat;
  malformed_docs : nat
}.

(** What the run does that the claims observe, in program order: the calls
    of the three stage interfaces (with the record id of the document), the
    calls of the persistor's two upserts, and the checkpoint writes (with
    the ids written). *)
Inductive event :=
| EvNER (rid : option Z)
| EvEnrich (rid : option Z)
| EvRelations (rid : option Z)
| EvSaveEntity (entity : ThreatEntity)
| EvSaveRelationship (relation : ThreatRelationship)
| EvCheckpoint (ids : list Z).

(** *** Checkpoint store *)

(** [load_checkpoint]: the file is absent ([None]) or holds text. *)
Definition load_checkpoint (file : option string) : result (gset Z) :=
  match file with
  | None => Ok ∅
  | Some content =>
      match Json.loads content with
      | Some ids => Ok (list_to_set ids)
      | None => Raise JSONDecodeError
      end
  end.

(** [save_checkpoint]: the text that [json.dump(list(processed_ids), f)]
    leaves in the file once the [with] block has completed.  The order in
    which a Python set lists its members is unspecified; [elements] stands
    for it.  The write itself is taken to succeed. *)
Definition save_checkpoint (processed_ids : gset Z) : string :=
  Json.dumps (elements processed_ids).

(** The file during [save_checkpoint]: [open("w")] truncates the file in
    place, then the text is written to that same file.  After [written]
    characters the file holds the first [written] characters of the new
    text, whatever it held before. *)
Definition checkpoint_file_during_save (processed_ids : gset Z) (written : nat)
    (before : option string) : option string :=
  Some (Json.prefix written (save_checkpoint processed_ids)).

Section Pipeline.

(** The two external stages: [perform_hybrid_ner] and the LLM call inside
    [extract_relationships_llm]; either may raise. *)
Variable perform_hybrid_ner : string -> result (list ThreatEntity).
Variable llm_relations : string -> list ThreatEntity -> result (list ThreatRelationship).

Definition extract_relationships_llm (text : string) (entities : list ThreatEntity)
    : result (list ThreatRelationship) :=
  if negb (PyStr.truthy text) || match entities with [] => true | _ => false end
  then Ok []
  else llm_relations text entities.

Definition add_empty (m : metrics) : metrics :=
  mkMetrics (S (empty_texts m)) (total_entities m) (total_relationships m) (malformed_docs m).
Definition add_entities (n : nat) (m : metrics) : metrics :=
  mkMetrics (empty_texts m) (total_entities m + n) (total_relationships m) (malformed_docs m).
Definition add_relationships (n : nat) (m : metrics) : metrics :=
  mkMetrics (empty_texts m) (total_entities m) (total_relationships m + n) (malformed_docs m).
Definition add_malformed (m : metrics) : metrics :=
  mkMetrics (empty_texts m) (total_entities m) (total_relationships m) (S (malformed_docs m)).

(** [process_document]: it touches the metrics and the MITRE cache, and
    never raises, the [except Exception] clause turning every failure of a
    stage into the pair of empty lists. *)
Definition process_document (doc : Document) (m : metrics) (env : MitreStix.mitre_env)
    : (list ThreatEntity * list ThreatRelationship)
      * (metrics * MitreStix.mitre_env) * list event :=
  let rid := record_id doc in
  if negb (PyStr.truthy (PyStr.strip (text doc))) then
    (([], []), (add_empty m, env), [])
  else
    match perform_hybrid_ner (text doc) with
    | Raise _ => (([], []), (add_malformed m, env), [EvNER rid])
    | Ok entities =>
        let m1 := add_entities (length entities) m in
        match MitreStix.enrich_entities_with_mitre_stix entities env with
        | (Raise _, env') =>
            (([], []), (add_malformed m1, env'), [EvNER rid; EvEnrich rid])
        | (Ok enriched_entities, env') =>
            match extract_relationships_llm (text doc) enriched_entities with
            | Raise _ =>
                (([], []), (add_malformed m1, env'),
                 [EvNER rid; EvEnrich rid; EvRelations rid])
            | Ok relationships =>
                ((enriched_entities, relationships),
                 (add_relationships (length relationships) m1, env'),
                 [EvNER rid; EvEnrich rid; EvRelations rid])
            end
        end
    end.

(** *** Persistence of one document's results *)

Fixpoint save_entities (entities : list ThreatEntity) (d : Neo4jPersistor.db)
    : Neo4jPersistor.db * list event :=
  match entities with
  | [] => (d, [])
  | entity :: rest =>
      let d' := snd (Neo4jPersistor.save_entity entity d) in
      let '(d'', evs) := save_entities rest d' in
      (d'', EvSaveEntity entity :: evs)
  end.

Fixpoint save_relationships (relationships : list ThreatRelationship)
    (d : Neo4jPersistor.db) : Neo4jPersistor.db * list event :=
  match relationships with
  | [] => (d, [])
  | relation :: rest =>
      let d' := snd (Neo4jPersistor.save_relationship relation d) in
      let '(d'', evs) := save_relationships rest d' in
      (d'', EvSaveRelationship relation :: evs)
  end.

(** [ingest_to_neo4j]: every item is attempted; an exception of one upsert
    is logged and the loop goes on. *)
Definition ingest_to_neo4j (entities : list ThreatEntity)
    (relationships : list ThreatRelationship) (d : Neo4jPersistor.db) (dry_run : bool)
    : Neo4jPersistor.db * list event :=
  if dry_run then (d, [])
  else
    let '(d1, evs1) := save_entities entities d in
    let '(d2, evs2) := save_relationships relationships d1 in
    (d2, (evs1 ++ evs2)).

(** *** The run *)

(** Everything a run reads and leaves behind. *)
Record world := mkWorld {
  w_metrics : metrics;
  w_mitre : MitreStix.mitre_env;
  w_db : Neo4jPersistor.db;
  checkpoint_file : option string;
  trace : list event
}.

(** [random.sample(documents, k)] returns the documents at [k] distinct
    positions, in the order drawn; [pick] is that draw. *)
Definition random_sample (pick : list nat) (documents : list Document) : list Document :=
  omap (fun i => documents !! i) pick.

Fixpoint distinct (l : list nat) : bool :=
  match l with
  | [] => true
  | x :: l' => negb (existsb (Nat.eqb x) l') && distinct l'
  end.

(** The draws [random.sample(documents, min(3, len(documents)))] can make. *)
Definition valid_pick (n : nat) (pick : list nat) : bool :=
  Nat.eqb (length pick) (Nat.min 3 n) && forallb (fun i => Nat.ltb i n) pick && distinct pick.

(** The timing pass: [process_document(documents[i])] for the first
    [sample_size] documents, results dropped. *)
Fixpoint estimate (sample : list Document) (w : world) : world :=
  match sample with
  | [] => w
  | doc :: rest =>
      let '(_, (m, env), evs) := process_document doc (w_metrics w) (w_mitre w) in
      estimate rest (mkWorld m env (w_db w) (checkpoint_file w) (trace w ++ evs))
  end.

(** The body of the checkpointed loop, on the local [processed_ids] and
    the world.  Neither [process_document] nor [ingest_to_neo4j] raises, so
    the [except] clause of the loop body is reached only by a failing file
    write, which is not modelled. *)
Definition loop_body (dry_run : bool) (st : gset Z * world) (doc : Document)
    : gset Z * world :=
  let '(processed_ids, w) := st in
  match record_id doc with
  | None => st
  | Some rid =>
      if bool_decide (rid ∈ processed_ids) then st
      else
        let '((entities, relationships), (m, env), evs1) :=
          process_document doc (w_metrics w) (w_mitre w) in
        let '(d, evs2) := ingest_to_neo4j entities relationships (w_db w) dry_run in
        let processed_ids' := processed_ids ∪ {[rid]} in
        (processed_ids',
         mkWorld m env d (Some (save_checkpoint processed_ids'))
                 (trace w ++ evs1 ++ evs2 ++ [EvCheckpoint (elements processed_ids')]))
  end.

Definition main_loop (dry_run : bool) (documents : list Document) (st : gset Z * world)
    : gset Z * world :=
  fold_left (loop_body dry_run) documents st.

Definition with_db (w : world) (d : Neo4jPersistor.db) : world :=
  mkWorld (w_metrics w) (w_mitre w) d (checkpoint_file w) (trace w).

(** [run_pipeline] from the line after [ingest_data]; [now] is the clock
    reading that becomes the persistor's [run_id]. *)
Definition run_documents (dry_run : bool) (now : string) (pick : list nat)
    (documents : list Document) (w : world) : result unit * world :=
  let documents := random_sample pick documents in
  let total_docs := length documents in
  if Nat.eqb total_docs 0 then (Ok tt, w)
  else
    match load_checkpoint (checkpoint_file w) with
    | Raise e => (Raise e, w)
    | Ok processed_ids =>
        match Neo4jPersistor.connect now (w_db w) with
        | (Raise e, d) => (Raise e, with_db w d)
        | (Ok _, d) =>
            let sample_size := Nat.min 3 total_docs in
            let w1 := estimate (firstn sample_size documents) (with_db w d) in
            (Ok tt, snd (main_loop dry_run documents (processed_ids, w1)))
        end
    end.

(** [run_pipeline]; [archive] is the decoded chunk file, [None] when the
    file does not exist. *)
Definition run_pipeline (dry_run : bool) (now : string) (pick : list nat)
    (archive : option (list Ingestion.Chunk)) (w : world) : result unit * world :=
  match archive with
  | None => (Raise FileNotFoundError, w)
  | Some chunks => run_documents dry_run now pick (Ingestion.ingest_data chunks) w
  end.

End Pipeline.

End Manager.

(** ** neo4j_persistor.py: the bulk upsert *)

Module PersistorBulk.
Import Schemas Neo4jPersistor.

(** The query of [save_entities_bulk]: [UNWIND $entities AS entity] runs
    the [MERGE ... SET ...] of the single upsert once per list element, in
    order, inside one statement. *)
Definition bulk_query (rid : string) (entities : list ThreatEntity) (g : graph)
    : result graph :=
  fold_left (fun acc entity =>
               match acc with
               | Ok g' => entity_query rid entity g'
               | Raise e => Raise e
               end) entities (Ok g).

(** [save_entities_bulk]: nothing is sent for an empty list; there is no
    check of the fields. *)
Definition save_entities_bulk (entities : list ThreatEntity) (d : db) : result unit * db :=
  match entities with
  | [] => (Ok tt, d)
  | _ => discard (_run_with_retry (session_run (bulk_query (run_id d) entities))
                                  default_max_retries d)
  end.

End PersistorBulk.

(** ** KG_pipeline/schemas.py: the labels *)

Module SchemaLabels.

Inductive EntityType :=
| MALWARE | THREAT_ACTOR | VULNERABILITY | TTP | TOOL | SCRIPT | INDICATOR
| CVE | MITRE_TECHNIQUE | EXPLOIT | LOCATION | ORGANIZATION | PERSON | MISC.

Definition value (t : EntityType) : string :=
  match t with
  | MALWARE => "malware"
  | THREAT_ACTOR => "threat_actor"
  | VULNERABILITY => "vulnerability"
  | TTP => "ttp"
  | TOOL => "tool"
  | SCRIPT => "script"
  | INDICATOR => "indicator"
  | CVE => "cve"
  | MITRE_TECHNIQUE => "mitre_technique"
  | EXPLOIT => "exploit"
  | LOCATION => "location"
  | ORGANIZATION => "organization"
  | PERSON => "person"
  | MISC => "miscellaneous"
  end.

(** The dict literal of [map_entity_label]. *)
Definition mapping : list (string * EntityType) :=
  [("org", ORGANIZATION); ("organization", ORGANIZATION);
   ("threat_actor", THREAT_ACTOR);
   ("per", PERSON); ("person", PERSON);
   ("loc", LOCATION); ("location", LOCATION);
   ("misc", MISC); ("miscellaneous", MISC);
   ("cve", CVE); ("ttp", TTP); ("mitre_technique", MITRE_TECHNIQUE);
   ("malware", MALWARE); ("tool", TOOL); ("script", SCRIPT);
   ("exploit", EXPLOIT); ("indicator", INDICATOR)].

(** [d.get(key)] *)
Fixpoint dict_get {A} (key : string) (d : list (string * A)) : option A :=
  match d with
  | [] => None
  | (k, v) :: rest => if String.eqb key k then Some v else dict_get key rest
  end.

Definition map_entity_label (label : string) : option string :=
  if negb (PyStr.truthy label) then None
  else option_map value (dict_get (PyStr.lower label) mapping).

End SchemaLabels.

(** ** KG_pipeline/ner_extractor.py *)

Module NerExtractor.
Import Schemas SchemaLabels.

(** *** filter_and_deduplicate_entities *)

(** The keys of [seen]: [(entity_name_lower, entity_type)]. *)
Definition entity_key : Type := string * string.

Definition key_eqb (k k' : entity_key) : bool :=
  String.eqb (fst k) (fst k') && String.eqb (snd k) (snd k').

(** The dict [seen], in insertion order. *)
Definition seen_map : Type := list (entity_key * ThreatEntity).

Fixpoint seen_get (key : entity_key) (seen : seen_map) : option ThreatEntity :=
  match seen with
  | [] => None
  | (k, ent) :: rest => if key_eqb key k then Some ent else seen_get key rest
  end.

(** [seen[key] = ent]: a key that is present keeps its place. *)
Fixpoint seen_set (key : entity_key) (ent : ThreatEntity) (seen : seen_map) : seen_map :=
  match seen with
  | [] => [(key, ent)]
  | (k, old) :: rest =>
      if key_eqb key k then (k, ent) :: rest else (k, old) :: seen_set key ent rest
  end.

Definition noisy_tokens : list string :=
  ["run"; "the"; "."; ","; "e"; "dll32.exe"; "rund1132.exe"].

(** [a < b] on confidences. *)
Definition lt (a b : Q) : bool := negb (QArith_base.Qle_bool b a).

(** [ent.confidence or 0] *)
Definition or_zero (c : option Q) : Q :=
  match c with Some q => q | None => QArith_base.Qmake 0 1 end.

(** The three [continue] tests of the loop. *)
Definition low_confidence (min_confidence : Q) (ent : ThreatEntity) : bool :=
  match confidence ent with Some c => lt c min_confidence | None => false end.

Definition short_name (exclude_short_names : bool) (ent : ThreatEntity) : bool :=
  exclude_short_names && (String.length (name ent) <=? 2)%nat.

Definition noisy (ent : ThreatEntity) : bool :=
  existsb (String.eqb (PyStr.lower (name ent))) noisy_tokens.

(** The body of the loop.  The key is computed first, and [ent.type.value]
    raises on an entity without a type even if a test would skip it. *)
Definition filter_step (min_confidence : Q) (exclude_short_names : bool)
    (seen : seen_map) (ent : ThreatEntity) : result seen_map :=
  match ety ent with
  | None => Raise AttributeError
  | Some etype_key =>
      let name_key := PyStr.lower (name ent) in
      if low_confidence min_confidence ent then Ok seen
      else if short_name exclude_short_names ent then Ok seen
      else if noisy ent then Ok seen
      else
        let key := (name_key, etype_key) in
        match seen_get key seen with
        | None => Ok (seen_set key ent seen)
        | Some old =>
            if lt (or_zero (confidence old)) (or_zero (confidence ent))
            then Ok (seen_set key ent seen)
            else Ok seen
        end
  end.

Fixpoint filter_loop (min_confidence : Q) (exclude_short_names : bool)
    (entities : list ThreatEntity) (seen : seen_map) : result seen_map :=
  match entities with
  | [] => Ok seen
  | ent :: rest =>
      match filter_step min_confidence exclude_short_names seen ent with
      | Ok seen' => filter_loop min_confidence exclude_short_names rest seen'
      | Raise e => Raise e
      end
  end.

Definition filter_and_deduplicate_entities (entities : list ThreatEntity)
    (min_confidence : Q) (exclude_short_names : bool) : result (list ThreatEntity) :=
  match filter_loop min_confidence exclude_short_names entities [] with
  | Ok seen => Ok (map snd seen)
  | Raise e => Raise e
  end.

(** The defaults of the two keyword arguments. *)
Definition default_min_confidence : Q := QArith_base.Qmake 7 10.
Definition default_exclude_short_names : bool := true.

(** *** NERExtractor.extract_entities *)

(** [ThreatEntity(name=..., type=..., text=..., confidence=...,
    description=...)]: [__post_init__] strips and lower-cases the name; the
    MITRE id defaults to [None] and the references to the empty list. *)
Definition new_entity (nm ty txt : string) (conf : option Q) (desc : option string)
    : ThreatEntity :=
  mkEntity (PyStr.lower (PyStr.strip nm)) (Some ty) (Some txt) conf desc None (Some []).

(** One result of the transformer pipeline: something that is not a dict,
    or a dict with the values of [ent.get(k)] for the five keys read. *)
Record ner_dict := mkNer {
  entity_group : option string;
  entity : option string;
  start : option nat;
  end_ : option nat;
  score : option Q
}.

Inductive ner_result := NotADict | Dict (d : ner_dict).

(** The list built so far and the two sets of the loop. *)
Record ner_state := mkNerState {
  entities : list ThreatEntity;
  seen_spans : list (nat * nat);
  seen_entities : list entity_key
}.

Definition span_eqb (a b : nat * nat) : bool :=
  Nat.eqb (fst a) (fst b) && Nat.eqb (snd a) (snd b).

(** [a or b] on two optional strings. *)
Definition opt_or (a b : option string) : option string :=
  if MitreStix.opt_truthy a then a else b.

Section Extract.

(** [re.fullmatch(r'\W+', s)] finds a match. *)
Variable non_word : string -> bool.

(** The matches of [extract_regex_entities] on a text, in the order of its
    two loops: the matched string, the type and the confidence of the
    pattern. *)
Variable regex_matches : string -> list (string * EntityType * Q).

(** The body of the loop over the pipeline results. *)
Definition ner_step (text : string) (st : ner_state) (ent : ner_result) : ner_state :=
  match ent with
  | NotADict => st
  | Dict d =>
      match opt_or (entity_group d) (entity d), start d, end_ d with
      | Some group, Some s, Some e =>
          match map_entity_label group with
          | None => st
          | Some entity_type =>
              if negb (PyStr.truthy entity_type) then st
              else if existsb (span_eqb (s, e)) (seen_spans st) then st
              else
                let spans := (s, e) :: seen_spans st in
                let entity_name := PyStr.strip (String.substring s (e - s) text) in
                if (String.length entity_name <? 2)%nat || non_word entity_name
                then mkNerState (entities st) spans (seen_entities st)
                else
                  let key := (PyStr.lower entity_name, entity_type) in
                  if existsb (key_eqb key) (seen_entities st)
                  then mkNerState (entities st) spans (seen_entities st)
                  else mkNerState
                         (entities st ++
                          [new_entity entity_name entity_type entity_name (score d)
                                      (Some "")])
                         spans (key :: seen_entities st)
          end
      | _, _, _ => st
      end
  end.

(** [extract_regex_entities]: one entity per match. *)
Definition extract_regex_entities (text : string) : list ThreatEntity :=
  map (fun m => let '(matched, ent_type, conf) := m in
                new_entity matched (value ent_type) matched (Some conf) None)
      (regex_matches text).

(** The body of the loop over the regex entities.  Their type is always
    set by [extract_regex_entities]; the [None] branch only completes the
    match and is never taken. *)
Definition regex_step (st : ner_state) (regex_entity : ThreatEntity) : ner_state :=
  match ety regex_entity with
  | None => st
  | Some ty =>
      let key := (PyStr.lower (name regex_entity), ty) in
      if existsb (key_eqb key) (seen_entities st) then st
      else mkNerState (entities st ++ [regex_entity]) (seen_spans st)
                      (key :: seen_entities st)
  end.

Definition extract_entities (ner_results : list ner_result) (text : string)
    : list ThreatEntity :=
  entities
    (fold_left regex_step (extract_regex_entities text)
       (fold_left (ner_step text) ner_results (mkNerState [] [] []))).

End Extract.

End NerExtractor.

(** ** KG_pipeline/relation_extractor.py *)

Module RelationExtractor.

(** What one [_call_api] does: it raises, or returns a text or [None]. *)
Inductive api_outcome := ApiRaise | ApiReturn (response_text : option string).

(** What [extract_relations] leaves besides its value: the number of calls
    of [_call_api] and the number of [time.sleep(1)]. *)
Record effort := mkEffort { calls : nat; sleeps : nat }.

Section Client.

(** The relation dicts are kept abstract. *)
Variable relation : Type.

(** [extract_json_array], which returns [None] instead of raising. *)
Variable extract_json_array : string -> option (list relation).

(** The outcome of the call made at each attempt, numbered from 1. *)
Variable _call_api : nat -> api_outcome.

(** The [for attempt in range(1, max_retries + 1)] loop from [attempt] on,
    with [remaining] iterations left. *)
Fixpoint attempts_from (max_retries attempt remaining : nat) (eff : effort)
    : option (list relation) * effort :=
  match remaining with
  | O => (None, eff)
  | S remaining' =>
      let called := mkEffort (S (calls eff)) (sleeps eff) in
      match _call_api attempt with
      | ApiRaise =>
          attempts_from max_retries (S attempt) remaining'
            (if (attempt <? max_retries)%nat
             then mkEffort (calls called) (S (sleeps called)) else called)
      | ApiReturn None => attempts_from max_retries (S attempt) remaining' called
      | ApiReturn (Some response_text) =>
          if negb (PyStr.truthy response_text)
          then attempts_from max_retries (S attempt) remaining' called
          else
            match extract_json_array response_text with
            | None => attempts_from max_retries (S attempt) remaining' called
            | Some relations => (Some relations, called)
            end
      end
  end.

Definition extract_relations (max_retries : nat) : option (list relation) * effort :=
  attempts_from max_retries 1 max_retries (mkEffort 0 0).

Definition default_max_retries : nat := 2.

End Client.

End RelationExtractor.

(** * Facts about the reconstruction *)

Module IngestionFacts.
Import Ingestion.

Definition key_le (x y : Z * string) : Prop := (fst x <= fst y)%Z.

Definition at_pos (p : Z) (x : Z * string) : bool := Z.eqb (fst x) p.

(** ** The stable sort *)

Lemma insert_chunk_perm x l : Permutation (x :: l) (insert_chunk x l).
Proof.
  induction l as [|y l IH]; simpl; [reflexivity|].
  destruct (Z.leb (fst x) (fst y)); [reflexivity|].
  rewrite perm_swap. now apply perm_skip.
Qed.

Lemma sort_chunks_perm l : Permutation l (sort_chunks l).
Proof.
  induction l as [|x l IH]; simpl; [reflexivity|].
  rewrite <- insert_chunk_perm. now apply perm_skip.
Qed.

Lemma insert_chunk_sorted x l :
  StronglySorted key_le l -> StronglySorted key_le (insert_chunk x l).
Proof.
  induction 1 as [|y l Hs IH Hall]; simpl.
  - repeat constructor.
  - destruct (Z.leb (fst x) (fst y)) eqn:E.
    + apply Z.leb_le in E. constructor; [now constructor|].
      constructor; [exact E|].
      eapply List.Forall_impl; [|exact Hall]. unfold key_le. intros; lia.
    + apply Z.leb_gt in E. constructor; [exact IH|].
      rewrite <- insert_chunk_perm. constructor; [unfold key_le; lia|exact Hall].
Qed.

Lemma sort_chunks_sorted l : StronglySorted key_le (sort_chunks l).
Proof.
  induction l; simpl; [constructor|now apply insert_chunk_sorted].
Qed.

Lemma filter_at_pos_none p l :
  Forall (fun y => fst y <> p) l -> List.filter (at_pos p) l = [].
Proof.
  induction 1 as [|y l Hy _ IH]; simpl; [reflexivity|].
  assert (Ey : at_pos p y = false) by (unfold at_pos; now apply Z.eqb_neq).
  now rewrite Ey.
Qed.

(** Inserting into a sorted list puts the new chunk in front of the chunks
    of the same position. *)
Lemma filter_insert_chunk p x l :
  StronglySorted key_le l ->
  List.filter (at_pos p) (insert_chunk x l) =
  (if at_pos p x then [x] else []) ++ List.filter (at_pos p) l.
Proof.
  induction 1 as [|y l Hs IH Hall]; simpl.
  - destruct (at_pos p x); reflexivity.
  - destruct (Z.leb (fst x) (fst y)) eqn:E; simpl.
    + destruct (at_pos p x); reflexivity.
    + apply Z.leb_gt in E. rewrite IH.
      destruct (at_pos p x) eqn:Ex; simpl; [|reflexivity].
      unfold at_pos in Ex. apply Z.eqb_eq in Ex.
      assert (Ey : at_pos p y = false) by (unfold at_pos; apply Z.eqb_neq; lia).
      now rewrite Ey.
Qed.

(** Stability: the chunks of one position keep their read order. *)
Lemma sort_chunks_stable p l :
  List.filter (at_pos p) (sort_chunks l) = List.filter (at_pos p) l.
Proof.
  induction l as [|x l IH]; simpl; [reflexivity|].
  rewrite filter_insert_chunk by apply sort_chunks_sorted.
  rewrite IH. destruct (at_pos p x); reflexivity.
Qed.

Lemma in_filter_at_pos x l : In x l -> In x (List.filter (at_pos (fst x)) l).
Proof.
  intros H. apply filter_In. split; [exact H|]. unfold at_pos. apply Z.eqb_refl.
Qed.

(** Two sorted lists with the same chunks at every position, in the same
    order, are equal. *)
Lemma sorted_filters_eq l1 :
  forall l2,
    StronglySorted key_le l1 -> StronglySorted key_le l2 ->
    (forall p, List.filter (at_pos p) l1 = List.filter (at_pos p) l2) ->
    l1 = l2.
Proof.
  induction l1 as [|a l1 IH]; intros l2 S1 S2 H.
  - destruct l2 as [|b l2]; [reflexivity|].
    specialize (H (fst b)). simpl in H.
    assert (Eb : at_pos (fst b) b = true) by apply Z.eqb_refl.
    rewrite Eb in H. discriminate.
  - destruct l2 as [|b l2].
    + specialize (H (fst a)). simpl in H.
      assert (Ea : at_pos (fst a) a = true) by apply Z.eqb_refl.
      rewrite Ea in H. discriminate.
    + inversion S1 as [|? ? S1' F1]; subst. inversion S2 as [|? ? S2' F2]; subst.
      assert (Hab : fst a = fst b).
      { assert (Ha : In a (b :: l2)).
        { pose proof (in_filter_at_pos a (a :: l1) (or_introl eq_refl)) as Hin.
          rewrite H in Hin. apply filter_In in Hin. tauto. }
        assert (Hb : In b (a :: l1)).
        { pose proof (in_filter_at_pos b (b :: l2) (or_introl eq_refl)) as Hin.
          rewrite <- H in Hin. apply filter_In in Hin. tauto. }
        rewrite List.Forall_forall in F1, F2. unfold key_le in F1, F2.
        destruct Ha as [->|Ha]; [reflexivity|].
        destruct Hb as [->|Hb]; [reflexivity|].
        specialize (F1 _ Hb). specialize (F2 _ Ha). lia. }
      pose proof (H (fst a)) as Ha. simpl in Ha.
      assert (Ea : at_pos (fst a) a = true) by apply Z.eqb_refl.
      assert (Eb : at_pos (fst a) b = true) by (unfold at_pos; now apply Z.eqb_eq).
      rewrite Ea, Eb in Ha. injection Ha as <- Hrest.
      f_equal. apply IH; [assumption|assumption|].
      intros p. specialize (H p). simpl in H.
      destruct (at_pos p a) eqn:E; [|exact H].
      now injection H.
Qed.

(** Any procedure that returns a sorted list and keeps the read order at
    every position computes [sort_chunks]. *)
Lemma sort_chunks_unique l l' :
  StronglySorted key_le l' ->
  (forall p, List.filter (at_pos p) l' = List.filter (at_pos p) l) ->
  l' = sort_chunks l.
Proof.
  intros S H. apply sorted_filters_eq; [exact S|apply sort_chunks_sorted|].
  intros p. now rewrite H, sort_chunks_stable.
Qed.

(** ** The scan of the chunk sequence *)

Definition rm_step (m : list (Z * rec_entry)) (c : Chunk) : list (Z * rec_entry) :=
  match check_chunk c with
  | None => m
  | Some (rec_id, chunk_idx, text) =>
      update_entry rec_id (add_chunk rec_id chunk_idx text c) m
  end.

Lemma records_map_fold l :
  forall st, records_map (fold_left scan_chunk l st) = fold_left rm_step l (records_map st).
Proof.
  induction l as [|c l IH]; intros st; simpl; [reflexivity|].
  rewrite IH. f_equal. unfold scan_chunk, rm_step.
  destruct (check_chunk c) as [[[r i] t]|]; reflexivity.
Qed.

Lemma text_chunks_add_chunk r i t c e :
  text_chunks (add_chunk r i t c e) = text_chunks e ++ [(i, t)].
Proof. unfold add_chunk. destruct (e_record_id e); reflexivity. Qed.

Lemma update_entry_keys k f m :
  (In k (map fst m) /\ map fst (update_entry k f m) = map fst m) \/
  (~ In k (map fst m) /\ map fst (update_entry k f m) = map fst m ++ [k]).
Proof.
  induction m as [|[k' e] m IH]; simpl.
  - right. split; [tauto|reflexivity].
  - destruct (Z.eqb_spec k k') as [->|Hne]; simpl.
    + left. split; [now left|reflexivity].
    + destruct IH as [[Hin Heq]|[Hnin Heq]]; rewrite Heq.
      * left. split; [now right|reflexivity].
      * right. split; [|reflexivity]. intros [H|H]; [congruence|contradiction].
Qed.

Lemma in_update_entry k f m k' e' :
  List.NoDup (map fst m) ->
  In (k', e') (update_entry k f m) ->
  (k' <> k /\ In (k', e') m) \/
  (k' = k /\ ((exists e0, In (k, e0) m /\ e' = f e0) \/
              (~ In k (map fst m) /\ e' = f default_entry))).
Proof.
  induction m as [|[k0 e0] m IH]; simpl; intros Hnd Hin.
  - destruct Hin as [Hin|[]]. injection Hin as <- <-. right. split; [reflexivity|].
    right. split; [tauto|reflexivity].
  - apply List.NoDup_cons_iff in Hnd as [Hk0 Hnd].
    destruct (Z.eqb_spec k k0) as [->|Hne]; simpl in Hin.
    + destruct Hin as [Hin|Hin].
      * injection Hin as <- <-. right. split; [reflexivity|].
        left. exists e0. split; [now left|reflexivity].
      * left. split; [|now right]. intros ->. apply Hk0.
        change k0 with (fst (k0, e')). now apply in_map.
    + destruct Hin as [Hin|Hin].
      * injection Hin as <- <-. left. split; [congruence|now left].
      * destruct (IH Hnd Hin) as [[Hk Hm]|[Hk [[e1 [Hm He]]|[Hn He]]]].
        -- left. split; [exact Hk|now right].
        -- right. split; [exact Hk|]. left. exists e1. split; [now right|exact He].
        -- right. split; [exact Hk|]. right. split; [|exact He].
           intros [H|H]; [congruence|contradiction].
Qed.

Lemma chunks_of_snoc d pre c :
  chunks_of d (pre ++ [c]) =
  chunks_of d pre ++
  match check_chunk c with
  | Some (r, i, t) => if Z.eqb r d then [(i, t)] else []
  | None => []
  end.
Proof.
  unfold chunks_of. rewrite omap_app. f_equal. simpl.
  destruct (check_chunk c) as [[[r i] t]|]; [|reflexivity].
  destruct (Z.eqb r d); reflexivity.
Qed.

(** The invariant of the scan: after the prefix [pre] the map holds, for
    every record id with a retained chunk, exactly its retained chunks in
    read order. *)
Record scan_inv (m : list (Z * rec_entry)) (pre : list Chunk) : Prop := {
  inv_nodup : List.NoDup (map fst m);
  inv_chunks : forall k e, In (k, e) m -> text_chunks e = chunks_of k pre;
  inv_absent : forall d, ~ In d (map fst m) -> chunks_of d pre = [];
  inv_present : forall k e, In (k, e) m -> text_chunks e <> []
}.

Lemma scan_inv_init : scan_inv [] [].
Proof. split; simpl; try tauto. constructor. Qed.

Lemma scan_inv_step m pre c :
  scan_inv m pre -> scan_inv (rm_step m c) (pre ++ [c]).
Proof.
  intros [Hnd Hch Hab Hpr]. unfold rm_step.
  destruct (check_chunk c) as [[[r i] t]|] eqn:Ec.
  - split.
    + destruct (update_entry_keys r (add_chunk r i t c) m) as [[_ ->]|[Hn ->]];
        [exact Hnd|].
      apply List.NoDup_app; [exact Hnd|repeat constructor; simpl; tauto|].
      intros x Hx [<-|[]]. contradiction.
    + intros k e Hin. rewrite chunks_of_snoc, Ec.
      apply in_update_entry in Hin; [|exact Hnd].
      destruct Hin as [[Hk Hm]|[-> [[e0 [Hm ->]]|[Hn ->]]]].
      * rewrite (Hch _ _ Hm). destruct (Z.eqb_spec r k); [congruence|].
        now rewrite app_nil_r.
      * rewrite text_chunks_add_chunk, (Hch _ _ Hm), Z.eqb_refl. reflexivity.
      * rewrite text_chunks_add_chunk, (Hab _ Hn), Z.eqb_refl. reflexivity.
    + intros d Hd. rewrite chunks_of_snoc, Ec.
      destruct (update_entry_keys r (add_chunk r i t c) m) as [[Hin Heq]|[Hn Heq]];
        rewrite Heq in Hd.
      * rewrite (Hab _ Hd). destruct (Z.eqb_spec r d); [congruence|reflexivity].
      * rewrite in_app_iff in Hd. simpl in Hd.
        rewrite Hab by tauto. destruct (Z.eqb_spec r d); [tauto|reflexivity].
    + intros k e Hin. apply in_update_entry in Hin; [|exact Hnd].
      destruct Hin as [[Hk Hm]|[-> [[e0 [Hm ->]]|[Hn ->]]]].
      * now apply (Hpr k).
      * rewrite text_chunks_add_chunk. now destruct (text_chunks e0).
      * rewrite text_chunks_add_chunk. discriminate.
  - split; [exact Hnd| | |exact Hpr].
    + intros k e Hin. rewrite chunks_of_snoc, Ec, app_nil_r. now apply Hch.
    + intros d Hd. rewrite chunks_of_snoc, Ec, app_nil_r. now apply Hab.
Qed.

Lemma scan_inv_fold l :
  forall m pre, scan_inv m pre -> scan_inv (fold_left rm_step l m) (pre ++ l).
Proof.
  induction l as [|c l IH]; intros m pre H; simpl.
  - now rewrite app_nil_r.
  - replace (pre ++ c :: l) with ((pre ++ [c]) ++ l) by now rewrite <- app_assoc.
    apply IH. now apply scan_inv_step.
Qed.

Lemma scan_inv_scan l : scan_inv (records_map (scan l)) l.
Proof.
  unfold scan. rewrite records_map_fold. apply (scan_inv_fold l [] []), scan_inv_init.
Qed.

(** ** The reconstructed documents *)

Definition id_text (doc : Document) : option Z * string := (record_id doc, text doc).

Definition text_of (d : Z) (chunks : list Chunk) : string :=
  PyStr.strip (PyStr.join " " (map snd (sort_chunks (chunks_of d chunks)))).

Definition keys (chunks : list Chunk) : list Z := map fst (records_map (scan chunks)).

Lemma load_id_text l :
  map id_text (load_and_reconstruct l) = map (fun d => (Some d, text_of d l)) (keys l).
Proof.
  unfold load_and_reconstruct, keys. rewrite !map_map.
  apply map_ext_in. intros [k e] Hin. unfold id_text, reconstruct_entry, text_of. simpl.
  now rewrite (inv_chunks _ _ (scan_inv_scan l) _ _ Hin).
Qed.

Lemma load_record_ids l : map record_id (load_and_reconstruct l) = map Some (keys l).
Proof. unfold load_and_reconstruct, keys. now rewrite !map_map. Qed.

Lemma in_keys_iff d l : In d (keys l) <-> chunks_of d l <> [].
Proof.
  pose proof (scan_inv_scan l) as I. unfold keys. split.
  - intros Hin. apply in_map_iff in Hin as [[k e] [Hk Hin]]. simpl in Hk. subst k.
    rewrite <- (inv_chunks _ _ I _ _ Hin). now apply (inv_present _ _ I d).
  - intros Hne. destruct (in_dec Z.eq_dec d (map fst (records_map (scan l)))) as [Hin|Hn];
      [exact Hin|]. now apply (inv_absent _ _ I) in Hn.
Qed.

Lemma doc_text_entries d l m :
  (forall k e, In (k, e) m -> text_chunks e = chunks_of k l) ->
  doc_text d (map reconstruct_entry m) =
  if in_dec Z.eq_dec d (map fst m) then Some (text_of d l) else None.
Proof.
  unfold doc_text. induction m as [|[k e] m IH]; intros H; simpl; [reflexivity|].
  case_bool_decide as Hk.
  - injection Hk as ->. simpl. destruct (Z.eq_dec d d); [|congruence].
    unfold text_of. now rewrite (H d e) by now left.
  - rewrite IH by (intros; apply H; now right).
    destruct (Z.eq_dec k d); [congruence|].
    destruct (in_dec Z.eq_dec d (map fst m)); reflexivity.
Qed.

Lemma doc_text_load d l :
  doc_text d (load_and_reconstruct l) =
  if in_dec Z.eq_dec d (keys l) then Some (text_of d l) else None.
Proof.
  unfold load_and_reconstruct, keys. apply doc_text_entries.
  apply (inv_chunks _ _ (scan_inv_scan l)).
Qed.

Lemma check_chunk_key c r i t :
  check_chunk c = Some (r, i, t) -> c_record_id c = Some r /\ c_chunk_index c = Some i.
Proof.
  unfold check_chunk. destruct (c_record_id c), (c_chunk_index c), (c_text c); try discriminate.
  destruct (negb _); [discriminate|]. destruct (_ <? _)%nat; [discriminate|].
  intros [= -> -> ->]. tauto.
Qed.

(** The retained chunks of record [d] at position [p] are the retained
    chunks among those carrying the key [(d, p)]. *)
Lemma chunks_of_filter d p l :
  chunks_of d (List.filter (has_key d p) l) = List.filter (at_pos p) (chunks_of d l).
Proof.
  induction l as [|c l IH]; [reflexivity|].
  cbn [List.filter]. unfold chunks_of in *. cbn [omap list_omap].
  destruct (check_chunk c) as [[[r i] t]|] eqn:Ec.
  - destruct (check_chunk_key _ _ _ _ Ec) as [Hr Hi]. unfold has_key at 1.
    rewrite Hr, Hi.
    destruct (Z.eqb_spec r d) as [->|Hne]; cbn [andb].
    + cbn [List.filter]. unfold at_pos at 1. cbn [fst].
      destruct (Z.eqb i p); [|exact IH].
      cbn [omap list_omap]. rewrite Ec, Z.eqb_refl. now rewrite IH.
    + exact IH.
  - destruct (has_key d p c); [|exact IH].
    cbn [omap list_omap]. rewrite Ec. exact IH.
Qed.

Lemma sort_chunks_nil l : sort_chunks l = [] <-> l = [].
Proof.
  split; [|now intros ->]. intros H. pose proof (sort_chunks_perm l) as P.
  rewrite H in P. now apply Permutation_sym, Permutation_nil in P.
Qed.

Section ScanOrder.
Variables l1 l2 : list Chunk.
Hypothesis same_key_order :
  forall d p, List.filter (has_key d p) l1 = List.filter (has_key d p) l2.

Lemma sort_chunks_of_eq d :
  sort_chunks (chunks_of d l1) = sort_chunks (chunks_of d l2).
Proof.
  apply sorted_filters_eq; try apply sort_chunks_sorted.
  intros p. rewrite !sort_chunks_stable, <- !chunks_of_filter.
  now rewrite same_key_order.
Qed.

Lemma text_of_eq d : text_of d l1 = text_of d l2.
Proof. unfold text_of. now rewrite sort_chunks_of_eq. Qed.

Lemma in_keys_eq d : In d (keys l1) <-> In d (keys l2).
Proof.
  rewrite !in_keys_iff, <- !(sort_chunks_nil (chunks_of d _)).
  now rewrite sort_chunks_of_eq.
Qed.

End ScanOrder.

Lemma check_chunk_length c r i t :
  check_chunk c = Some (r, i, t) ->
  (MIN_TEXT_LENGTH <= String.length t <= MAX_CHUNK_TEXT_LENGTH)%nat.
Proof.
  unfold check_chunk. destruct (c_record_id c), (c_chunk_index c), (c_text c) as [s|];
    try discriminate.
  destruct (PyStr.truthy s && (MIN_TEXT_LENGTH <=? String.length s)%nat) eqn:E1;
    [|discriminate]. simpl.
  destruct (MAX_CHUNK_TEXT_LENGTH <? String.length s)%nat eqn:E2; [discriminate|].
  intros [= _ _ <-]. apply andb_true_iff in E1 as [_ E1].
  apply Nat.leb_le in E1. apply Nat.ltb_ge in E2. lia.
Qed.

Lemma chunks_of_lengths d l :
  List.Forall (fun x => (MIN_TEXT_LENGTH <= String.length (snd x) <= MAX_CHUNK_TEXT_LENGTH)%nat)
              (chunks_of d l).
Proof.
  induction l as [|c l IH]; [constructor|]. unfold chunks_of in *. cbn [omap list_omap].
  destruct (check_chunk c) as [[[r i] t]|] eqn:Ec; [|exact IH].
  destruct (Z.eqb r d); [|exact IH]. constructor; [|exact IH].
  simpl. eapply check_chunk_length, Ec.
Qed.

(** ** Reconstruction ordering *)

(** The three chunks of the ordering example, with texts long enough to be
    retained, and with the one-letter texts of the specification. *)
Definition ordering_example : list Chunk :=
  [plain_chunk 7 2 "cccccccccc"; plain_chunk 7 0 "aaaaaaaaaa"; plain_chunk 7 1 "bbbbbbbbbb"].

Definition ordering_example_short : list Chunk :=
  [plain_chunk 7 2 "c"; plain_chunk 7 0 "a"; plain_chunk 7 1 "b"].

Example ordering_example_text :
  map id_text (load_and_reconstruct ordering_example) =
  [(Some 7, "aaaaaaaaaa bbbbbbbbbb cccccccccc")].
Proof. reflexivity. Qed.

(** Chunks of equal position stay in read order. *)
Example ordering_example_ties :
  map id_text (load_and_reconstruct
     [plain_chunk 7 1 "second....."; plain_chunk 7 0 "first: one"; plain_chunk 7 0 "first: two"]) =
  [(Some 7, "first: one first: two second.....")].
Proof. reflexivity. Qed.

(** *** The retained chunks and the stable sort, in words *)

(** A text of [MIN_TEXT_LENGTH] to [MAX_CHUNK_TEXT_LENGTH] characters. *)
Definition in_range (t : string) : bool :=
  (MIN_TEXT_LENGTH <=? String.length t)%nat && (String.length t <=? MAX_CHUNK_TEXT_LENGTH)%nat.

(** The [(position, text)] pairs of the chunks of record [d] that are
    retained, in read order: those with a record id, a chunk index and a
    text in range. *)
Definition retained_of (d : Z) (chunks : list Chunk) : list (Z * string) :=
  omap (fun c => match c_record_id c, c_chunk_index c, c_text c with
                 | Some r, Some p, Some t =>
                     if Z.eqb r d && in_range t then Some (p, t) else None
                 | _, _, _ => None
                 end) chunks.

(** [sorted] is [l] sorted ascending by position, stably: at every
    position it has the pairs of [l] at that position, in the order of [l]. *)
Definition stably_sorted (l sorted : list (Z * string)) : Prop :=
  StronglySorted key_le sorted /\
  forall p, List.filter (at_pos p) sorted = List.filter (at_pos p) l.

Lemma check_chunk_in_range c :
  check_chunk c =
  match c_record_id c, c_chunk_index c, c_text c with
  | Some r, Some p, Some t => if in_range t then Some (r, p, t) else None
  | _, _, _ => None
  end.
Proof.
  unfold check_chunk, in_range.
  destruct (c_record_id c) as [r|], (c_chunk_index c) as [p|], (c_text c) as [t|];
    try reflexivity.
  destruct (MIN_TEXT_LENGTH <=? String.length t)%nat eqn:E1.
  - assert (Ht : PyStr.truthy t = true).
    { destruct t; [|reflexivity]. apply Nat.leb_le in E1. unfold MIN_TEXT_LENGTH in E1.
      simpl in E1. lia. }
    rewrite Ht. cbn [andb negb].
    destruct (Nat.ltb_spec MAX_CHUNK_TEXT_LENGTH (String.length t)) as [H|H];
      destruct (Nat.leb_spec (String.length t) MAX_CHUNK_TEXT_LENGTH) as [H'|H'];
      try reflexivity; lia.
  - now rewrite andb_false_r.
Qed.

Lemma chunks_of_retained d chunks : chunks_of d chunks = retained_of d chunks.
Proof.
  unfold chunks_of, retained_of. induction chunks as [|c l IH]; [reflexivity|].
  cbn [omap list_omap]. rewrite IH, check_chunk_in_range.
  destruct (c_record_id c) as [r|], (c_chunk_index c) as [p|], (c_text c) as [t|];
    try reflexivity.
  destruct (in_range t); [|now rewrite andb_false_r].
  rewrite andb_true_r. reflexivity.
Qed.

Lemma stably_sorted_sort_chunks l : stably_sorted l (sort_chunks l).
Proof. split; [apply sort_chunks_sorted|intros p; apply sort_chunks_stable]. Qed.

(** C6, as amended.  Every reconstructed document carries a record id [d]
    that has at least one retained chunk, the retained chunks being those
    with a record id, a chunk index and a text of 10 to 2048 characters.
    Its text is obtained from the retained chunks of [d], taken in read
    order, by sorting them ascending by position, stably (chunks of one
    position stay in read order), joining the texts with a single space,
    and stripping leading and trailing whitespace from the joined text.
    There is only one such sorted list, so the text is determined. *)
Theorem reconstruction_ordering (chunks : list Chunk) (doc : Document) :
  In doc (load_and_reconstruct chunks) ->
  exists d sorted,
    record_id doc = Some d /\
    retained_of d chunks <> [] /\
    stably_sorted (retained_of d chunks) sorted /\
    Permutation (retained_of d chunks) sorted /\
    text doc = PyStr.strip (PyStr.join " " (map snd sorted)) /\
    forall sorted', stably_sorted (retained_of d chunks) sorted' -> sorted' = sorted.
Proof.
  intros Hin. unfold load_and_reconstruct in Hin.
  apply in_map_iff in Hin as [[k e] [<- Hin]].
  pose proof (scan_inv_scan chunks) as I.
  exists k, (sort_chunks (retained_of k chunks)). rewrite <- chunks_of_retained.
  split; [reflexivity|].
  split; [rewrite <- (inv_chunks _ _ I _ _ Hin); now apply (inv_present _ _ I k)|].
  split; [apply stably_sorted_sort_chunks|].
  split; [apply sort_chunks_perm|]. split.
  - unfold reconstruct_entry. simpl. now rewrite (inv_chunks _ _ I _ _ Hin).
  - intros sorted' [Hs Hf]. now apply sort_chunks_unique.
Qed.

Lemma reconstruction_ordering_witness :
  let doc := mkDocument (Some 7) None None None None "aaaaaaaaaa bbbbbbbbbb cccccccccc" in
  In doc (load_and_reconstruct ordering_example) /\
  exists d sorted,
    record_id doc = Some d /\
    retained_of d ordering_example <> [] /\
    stably_sorted (retained_of d ordering_example) sorted /\
    Permutation (retained_of d ordering_example) sorted /\
    text doc = PyStr.strip (PyStr.join " " (map snd sorted)) /\
    forall sorted', stably_sorted (retained_of d ordering_example) sorted' -> sorted' = sorted.
Proof.
  intros doc. split.
  - left. reflexivity.
  - apply (reconstruction_ordering ordering_example doc). left. reflexivity.
Defined.

(** C6, as stated, fails on the example of the specification: the texts
    "c", "a", "b" are shorter than [MIN_TEXT_LENGTH], all three chunks are
    skipped and no document is produced, so none has the text "a b c".
    Moreover the text of a document is stripped after the join, so it is
    not always the plain join of the retained texts. *)
Lemma reconstruction_ordering_counterexample :
  load_and_reconstruct ordering_example_short = [] /\
  ~ (exists doc, In doc (load_and_reconstruct ordering_example_short) /\ text doc = "a b c") /\
  map text (load_and_reconstruct [plain_chunk 7 0 "   padded text"]) <>
  [PyStr.join " " (map snd (sort_chunks (chunks_of 7 [plain_chunk 7 0 "   padded text"])))].
Proof.
  split; [reflexivity|]. split.
  - intros [doc [[] _]].
  - vm_compute. discriminate.
Qed.

(** ** Scan-order invariance *)

(** When two chunk sequences list the chunks of every (record id, chunk
    index) pair in the same relative order, every record id has the same
    reconstructed text in both, or a document in neither, and the two
    outputs are the same sequence of (id, text) as soon as the record ids
    come out in the same order. *)
Lemma same_key_order_texts (l1 l2 : list Chunk) :
  (forall d p, List.filter (has_key d p) l1 = List.filter (has_key d p) l2) ->
  (forall d, doc_text d (load_and_reconstruct l1) = doc_text d (load_and_reconstruct l2)) /\
  (forall d p, List.filter (at_pos p) (sort_chunks (chunks_of d l1)) =
               chunks_of d (List.filter (has_key d p) l1)) /\
  (map record_id (load_and_reconstruct l1) = map record_id (load_and_reconstruct l2) ->
   map id_text (load_and_reconstruct l1) = map id_text (load_and_reconstruct l2)).
Proof.
  intros H. split; [|split].
  - intros d. rewrite !doc_text_load, (text_of_eq l1 l2 H).
    destruct (in_dec Z.eq_dec d (keys l1)) as [i1|n1], (in_dec Z.eq_dec d (keys l2)) as [i2|n2];
      try reflexivity; exfalso.
    + now apply n2, (in_keys_eq l1 l2 H).
    + now apply n1, (in_keys_eq l1 l2 H).
  - intros d p. now rewrite sort_chunks_stable, chunks_of_filter.
  - rewrite !load_record_ids, !load_id_text. intros Hk.
    assert (keys l1 = keys l2) as ->.
    { revert Hk. generalize (keys l1) (keys l2). intros a. induction a as [|x a IH]; intros [|y b];
        simpl; try discriminate; [reflexivity|]. intros [= -> Hk]. f_equal. now apply IH. }
    apply map_ext. intros d. now rewrite (text_of_eq l1 l2 H).
Qed.

Definition swap_example_1 : list Chunk :=
  [plain_chunk 1 0 "aaaaaaaaaa"; plain_chunk 2 0 "bbbbbbbbbb"].

Definition swap_example_2 : list Chunk :=
  [plain_chunk 2 0 "bbbbbbbbbb"; plain_chunk 1 0 "aaaaaaaaaa"].

Lemma swap_example_same_key_order d p :
  List.filter (has_key d p) swap_example_1 = List.filter (has_key d p) swap_example_2.
Proof.
  assert (Ha : forall t, has_key d p (plain_chunk 1 0 t) = Z.eqb 1 d && Z.eqb 0 p)
    by reflexivity.
  assert (Hb : forall t, has_key d p (plain_chunk 2 0 t) = Z.eqb 2 d && Z.eqb 0 p)
    by reflexivity.
  unfold swap_example_1, swap_example_2. cbn [List.filter]. rewrite Ha, Hb.
  destruct (Z.eqb_spec 1 d), (Z.eqb_spec 2 d); subst; try discriminate;
    destruct (Z.eqb 0 p); reflexivity.
Qed.

(** C7, as stated, fails: swapping two chunks of different documents
    preserves the read order within every (record id, chunk index) pair,
    yet the documents come out in the other order. *)
Lemma scan_order_invariance_counterexample :
  Permutation swap_example_1 swap_example_2 /\
  (forall d p, List.filter (has_key d p) swap_example_1 =
               List.filter (has_key d p) swap_example_2) /\
  map id_text (load_and_reconstruct swap_example_1) =
    [(Some 1, "aaaaaaaaaa"); (Some 2, "bbbbbbbbbb")] /\
  map id_text (load_and_reconstruct swap_example_2) =
    [(Some 2, "bbbbbbbbbb"); (Some 1, "aaaaaaaaaa")] /\
  load_and_reconstruct swap_example_1 <> load_and_reconstruct swap_example_2.
Proof.
  split; [apply perm_swap|]. split; [exact swap_example_same_key_order|].
  split; [reflexivity|]. split; [reflexivity|]. vm_compute. discriminate.
Qed.

End IngestionFacts.

(** * Facts about the checkpoint file format *)

Module JsonFacts.
Import Json.

Fixpoint all_chars (P : ascii -> bool) (s : string) : bool :=
  match s with
  | EmptyString => true
  | String a s' => P a && all_chars P s'
  end.

Definition num_char (a : ascii) : bool :=
  let n := nat_of_ascii a in
  ((48 <=? n)%nat && (n <=? 57)%nat) || (n =? 45)%nat.

Definition not_char (c a : ascii) : bool := negb (Ascii.eqb a c).

Lemma append_cons a s t : String a s +:+ t = String a (s +:+ t).
Proof. reflexivity. Qed.

Lemma append_nil s : "" +:+ s = s.
Proof. reflexivity. Qed.

Lemma append_assoc (a b c : string) : (a +:+ b) +:+ c = a +:+ (b +:+ c).
Proof.
  induction a as [|x a IH]; [reflexivity|]. rewrite !append_cons. now f_equal.
Qed.

Ltac norm_append := rewrite ?append_cons, ?append_nil.

Lemma all_chars_app P s t : all_chars P (s +:+ t) = all_chars P s && all_chars P t.
Proof.
  induction s as [|a s IH]; norm_append; simpl; [reflexivity|].
  now rewrite IH, andb_assoc.
Qed.

Lemma all_chars_impl (P R : ascii -> bool) s :
  (forall a, P a = true -> R a = true) -> all_chars P s = true -> all_chars R s = true.
Proof.
  intros H. induction s as [|a s IH]; simpl; [reflexivity|].
  intros [Ha Hs]%andb_true_iff. now rewrite (H _ Ha), IH.
Qed.

Lemma num_char_cases (R : ascii -> bool) :
  R "0"%char = true -> R "1"%char = true -> R "2"%char = true -> R "3"%char = true ->
  R "4"%char = true -> R "5"%char = true -> R "6"%char = true -> R "7"%char = true ->
  R "8"%char = true -> R "9"%char = true -> R "-"%char = true ->
  forall a, num_char a = true -> R a = true.
Proof.
  intros H0 H1 H2 H3 H4 H5 H6 H7 H8 H9 Hm a Ha.
  destruct a as [[] [] [] [] [] [] [] []]; try discriminate Ha; assumption.
Qed.

(** ** Printing and reading one integer *)

Lemma uint_chars d : all_chars num_char (NilEmpty.string_of_uint d) = true.
Proof. induction d; simpl; auto. Qed.

Lemma show_int_chars z : all_chars num_char (show_int z) = true.
Proof.
  unfold show_int. destruct (Z.to_int z) as [d|d]; simpl.
  - destruct d; try apply (uint_chars (_ _)); reflexivity.
  - destruct d; try apply (uint_chars (_ _)); reflexivity.
Qed.

Lemma to_uint_head p d : Pos.to_uint p <> Decimal.D0 d.
Proof.
  intros H. pose proof (DecimalPos.Unsigned.to_of (Pos.to_uint p)) as E.
  rewrite DecimalPos.Unsigned.of_to in E. simpl in E. rewrite H in E.
  rewrite DecimalFacts.unorm_D0 in E. unfold Decimal.unorm in E.
  pose proof (DecimalFacts.nzhead_nonzero d) as Hnz.
  destruct (Decimal.nzhead d) as [|u|u|u|u|u|u|u|u|u|u] eqn:En; try discriminate E.
  - injection E as ->. now apply (DecimalPos.Unsigned.to_uint_nonzero p).
  - now apply (Hnz u).
Qed.

Lemma show_int_shape z : json_int_shape (show_int z) = true.
Proof.
  unfold show_int. destruct z as [|p|p]; [reflexivity| |].
  - simpl. pose proof (to_uint_head p) as Hh.
    destruct (Pos.to_uint p) as [|d|d|d|d|d|d|d|d|d|d]; try reflexivity.
    now destruct (Hh d).
  - simpl. pose proof (to_uint_head p) as Hh.
    destruct (Pos.to_uint p) as [|d|d|d|d|d|d|d|d|d|d]; try reflexivity.
    now destruct (Hh d).
Qed.

Lemma parse_show_int z : parse_int (show_int z) = Some z.
Proof.
  unfold parse_int. rewrite show_int_shape. unfold show_int.
  rewrite NilZero.isi.
  - simpl. now rewrite DecimalZ.of_to.
  - destruct z as [|p|p]; simpl; try discriminate.
    intros [= H]. now apply (DecimalPos.Unsigned.to_uint_nonnil p).
  - destruct z as [|p|p]; simpl; try discriminate.
    intros [= H]. now apply (DecimalPos.Unsigned.to_uint_nonnil p).
Qed.

(** ** Trimming and splitting *)

Definition not_ws (a : ascii) : bool := negb (is_ws a).

Lemma rtrim_not_ws s : all_chars not_ws s = true -> rtrim s = s.
Proof.
  induction s as [|a s IH]; simpl; [reflexivity|].
  intros [Ha Hs]%andb_true_iff. rewrite IH by exact Hs.
  unfold not_ws in Ha. apply negb_true_iff in Ha. rewrite Ha. now destruct s.
Qed.

Lemma rtrim_snoc s c : is_ws c = false -> rtrim (s +:+ String c "") = s +:+ String c "".
Proof.
  intros Hc. induction s as [|a s IH]; norm_append; simpl; [now rewrite Hc|].
  rewrite IH. destruct s; reflexivity.
Qed.

Lemma ltrim_not_ws x : all_chars not_ws x = true -> ltrim x = x.
Proof.
  destruct x as [|a x]; [reflexivity|]. simpl.
  intros [Ha _]%andb_true_iff. unfold not_ws in Ha.
  apply negb_true_iff in Ha. now rewrite Ha.
Qed.

Lemma trim_item pre x :
  (pre = "" \/ pre = " ") -> all_chars not_ws x = true -> trim (pre +:+ x) = x.
Proof.
  intros Hpre Hx. unfold trim.
  assert (ltrim (pre +:+ x) = x) as ->.
  { destruct Hpre as [->| ->]; norm_append; simpl; now apply ltrim_not_ws. }
  now apply rtrim_not_ws.
Qed.

Definition no_comma : ascii -> bool := not_char ",".

Lemma split_commas_plain s : all_chars no_comma s = true -> split_commas s = [s].
Proof.
  induction s as [|a s IH]; simpl; [reflexivity|].
  intros [Ha Hs]%andb_true_iff. unfold no_comma, not_char in Ha.
  apply negb_true_iff in Ha. now rewrite Ha, IH.
Qed.

Lemma split_commas_app s t :
  all_chars no_comma s = true ->
  split_commas (s +:+ String "," t) = s :: split_commas t.
Proof.
  induction s as [|a s IH]; norm_append; simpl; [reflexivity|].
  intros [Ha Hs]%andb_true_iff. unfold no_comma, not_char in Ha.
  apply negb_true_iff in Ha. now rewrite Ha, IH.
Qed.

Lemma show_int_not_ws z : all_chars not_ws (show_int z) = true.
Proof.
  eapply all_chars_impl; [|apply show_int_chars]. now apply num_char_cases.
Qed.

Lemma show_int_no_comma z : all_chars no_comma (show_int z) = true.
Proof.
  eapply all_chars_impl; [|apply show_int_chars]. now apply num_char_cases.
Qed.

Lemma join_cons2 x y l :
  PyStr.join ", " (x :: y :: l) = x +:+ String "," (" " +:+ PyStr.join ", " (y :: l)).
Proof. reflexivity. Qed.

Lemma parse_items_join l :
  forall pre, (pre = "" \/ pre = " ") -> l <> [] ->
  parse_items (split_commas (pre +:+ PyStr.join ", " (map show_int l))) = Some l.
Proof.
  induction l as [|x l IH]; intros pre Hpre Hne; [congruence|].
  assert (Hpx : all_chars no_comma (pre +:+ show_int x) = true).
  { rewrite all_chars_app, show_int_no_comma. now destruct Hpre as [->| ->]. }
  destruct l as [|y l].
  - change (PyStr.join ", " (map show_int [x])) with (show_int x).
    rewrite split_commas_plain by exact Hpx. cbn [parse_items].
    rewrite trim_item by (auto using show_int_not_ws). now rewrite parse_show_int.
  - cbn [map]. rewrite join_cons2, <- append_assoc.
    rewrite split_commas_app by exact Hpx. cbn [parse_items].
    rewrite trim_item by (auto using show_int_not_ws). rewrite parse_show_int.
    change (show_int y :: map show_int l) with (map show_int (y :: l)).
    now rewrite (IH " ") by (auto; discriminate).
Qed.

Lemma strip_last_snoc c s : strip_last c (s +:+ String c "") = Some s.
Proof.
  induction s as [|a s IH]; norm_append; simpl; [now rewrite Ascii.eqb_refl|].
  rewrite IH. destruct s; reflexivity.
Qed.

Lemma join_head_not_ws l :
  l <> [] -> exists a r, PyStr.join ", " (map show_int l) = String a r /\ is_ws a = false.
Proof.
  destruct l as [|x l]; [congruence|]. intros _.
  pose proof (show_int_shape x) as Hs. pose proof (show_int_not_ws x) as Hw.
  destruct (show_int x) as [|a r] eqn:E; [discriminate Hs|].
  simpl in Hw. apply andb_true_iff in Hw as [Ha _]. apply negb_true_iff in Ha.
  destruct l as [|y l].
  - exists a, r. split; [|exact Ha]. cbn [map]. unfold PyStr.join. simpl. exact E.
  - cbn [map]. rewrite join_cons2, E. norm_append. eauto.
Qed.

(** ** Round trip of a completed write *)

Lemma rtrim_cons_not_ws a r : is_ws a = false -> rtrim (String a r) <> "".
Proof. intros Ha. simpl. rewrite Ha. now destruct (rtrim r). Qed.

Lemma loads_dumps l : loads (dumps l) = Some l.
Proof.
  unfold loads, dumps.
  assert (Ht : trim ("[" +:+ PyStr.join ", " (map show_int l) +:+ "]") =
               "[" +:+ PyStr.join ", " (map show_int l) +:+ "]").
  { unfold trim. norm_append. simpl ltrim. rewrite <- append_cons. now apply rtrim_snoc. }
  rewrite Ht. norm_append. rewrite Ascii.eqb_refl, strip_last_snoc.
  destruct l as [|x l]; [reflexivity|].
  destruct (join_head_not_ws (x :: l)) as [a [r [E Ha]]]; [discriminate|].
  assert (Hne : trim (PyStr.join ", " (map show_int (x :: l))) <> "").
  { rewrite E. unfold trim. simpl ltrim. rewrite Ha. now apply rtrim_cons_not_ws. }
  destruct (trim (PyStr.join ", " (map show_int (x :: l)))) eqn:Et; [congruence|].
  apply (parse_items_join (x :: l) ""); [now left|discriminate].
Qed.

(** ** A partly written file *)

Definition no_close : ascii -> bool := not_char "]".

Lemma all_chars_ltrim P s : all_chars P s = true -> all_chars P (ltrim s) = true.
Proof.
  induction s as [|a s IH]; simpl; [reflexivity|].
  intros H. destruct (is_ws a); [|exact H].
  apply andb_true_iff in H as [_ H]. now apply IH.
Qed.

Lemma all_chars_rtrim P s : all_chars P s = true -> all_chars P (rtrim s) = true.
Proof.
  induction s as [|a s IH]; simpl; [reflexivity|].
  intros [Ha Hs]%andb_true_iff. specialize (IH Hs).
  destruct (rtrim s) as [|b r].
  - destruct (is_ws a); simpl; [reflexivity|now rewrite Ha].
  - simpl in *. now rewrite Ha, IH.
Qed.

Lemma strip_last_has c s t : strip_last c s = Some t -> all_chars (not_char c) s = false.
Proof.
  revert t. induction s as [|a s IH]; intros t; simpl; [discriminate|].
  destruct s as [|b s].
  - destruct (Ascii.eqb a c) eqn:E; [|discriminate]. intros _.
    unfold not_char. now rewrite E.
  - destruct (strip_last c (String b s)) as [t'|] eqn:E; [|discriminate]. intros _.
    rewrite (IH t' eq_refl). apply andb_false_r.
Qed.

Lemma loads_has_close s l : loads s = Some l -> all_chars no_close s = false.
Proof.
  intros H. destruct (all_chars no_close s) eqn:E; [exfalso|reflexivity].
  apply all_chars_ltrim, all_chars_rtrim in E. fold (trim s) in E.
  unfold loads in H. destruct (trim s) as [|a rest]; [discriminate|].
  destruct (Ascii.eqb a "["); [|discriminate].
  destruct (strip_last "]" rest) as [inner|] eqn:Es; [|discriminate].
  apply strip_last_has in Es. simpl in E. apply andb_true_iff in E as [_ E].
  unfold no_close in E. congruence.
Qed.

Lemma all_chars_prefix P n s : all_chars P s = true -> all_chars P (prefix n s) = true.
Proof.
  revert s. induction n as [|n IH]; intros [|a s]; simpl; try reflexivity.
  intros [Ha Hs]%andb_true_iff. now rewrite Ha, IH.
Qed.

Lemma prefix_app n s t : (n <= String.length s)%nat -> prefix n (s +:+ t) = prefix n s.
Proof.
  revert s. induction n as [|n IH]; intros s Hn.
  - now destruct s, t.
  - destruct s as [|a s]; simpl in Hn; [lia|].
    norm_append. simpl. rewrite IH by lia. reflexivity.
Qed.

Lemma length_append s t :
  String.length (s +:+ t) = (String.length s + String.length t)%nat.
Proof. induction s as [|a s IH]; norm_append; simpl; [reflexivity|now rewrite IH]. Qed.

Lemma join_no_close l : all_chars no_close (PyStr.join ", " (map show_int l)) = true.
Proof.
  assert (Hi : forall z, all_chars no_close (show_int z) = true).
  { intros z. eapply all_chars_impl; [|apply show_int_chars]. now apply num_char_cases. }
  induction l as [|x l IH]; [reflexivity|]. destruct l as [|y l].
  - apply Hi.
  - cbn [map] in *. rewrite join_cons2, all_chars_app, Hi. simpl.
    rewrite all_chars_app. exact IH.
Qed.

(** A checkpoint file cut anywhere before its last character does not load. *)
Lemma loads_prefix_dumps l n :
  (n < String.length (dumps l))%nat -> loads (prefix n (dumps l)) = None.
Proof.
  intros Hn. destruct (loads (prefix n (dumps l))) as [l'|] eqn:E; [exfalso|reflexivity].
  apply loads_has_close in E. unfold dumps in *.
  rewrite <- append_assoc in E, Hn. rewrite length_append in Hn.
  change (String.length "]") with 1%nat in Hn.
  rewrite prefix_app in E by lia.
  rewrite all_chars_prefix in E; [discriminate|].
  norm_append. simpl. apply join_no_close.
Qed.

End JsonFacts.

(** * Facts about the persistence sink *)

Module Neo4jFacts.
Import Schemas Neo4jPersistor.

(** ** The retry loop *)

Definition entity_valid (entity : ThreatEntity) : bool :=
  PyStr.truthy (name entity) && MitreStix.opt_truthy (ety entity).

Definition relation_valid (relation : ThreatRelationship) : bool :=
  PyStr.truthy (source_name relation) && PyStr.truthy (target_name relation)
  && MitreStix.opt_truthy (relationship_type relation).


Section Retry.
Variable query : graph -> result graph.
Hypothesis query_errors : forall g e, query g = Raise e -> e = ClientError.

Let run (d : db) : result unit * db :=
  discard (_run_with_retry (session_run query) default_max_retries d).

Ltac run_step :=
  unfold run, _run_with_retry, default_max_retries, retry_loop, session_run, discard;
  cbn [coming attempts store run_id hd tl].






Lemma run_bounded d :
  (attempts d < attempts (snd (run d)) <= attempts d + default_max_retries)%nat.
Proof.
  run_step.
  destruct (coming d) as [|o1 [|o2 [|o3 rest]]];
    repeat match goal with
           | o : outcome |- _ => destruct o
           | |- context [query ?g] =>
               let E := fresh "E" in
               destruct (query g) as [?|?] eqn:E;
               [|apply query_errors in E; subst]
           | _ => progress cbn
           end; lia.
Qed.

(** A successful call stores the result of the query; a failed call
    leaves the store as it was. *)
Lemma run_store d :
  run_id (snd (run d)) = run_id d /\
  match fst (run d) with
  | Ok _ => query (store d) = Ok (store (snd (run d)))
  | Raise _ => store (snd (run d)) = store d
  end.
Proof.
  run_step.
  destruct (query (store d)) as [g|e] eqn:E; [|pose proof (query_errors _ _ E) as ->];
    destruct (coming d) as [|o1 [|o2 [|o3 rest]]];
    repeat match goal with
           | o : outcome |- _ => destruct o
           end; cbn; rewrite ?E; cbn; auto.
Qed.


End Retry.

Lemma entity_query_errors rid entity g e :
  entity_query rid entity g = Raise e -> e = ClientError.
Proof.
  unfold entity_query. destruct (merge_node _ _). discriminate.
Qed.

Lemma relationship_query_errors rid relation g e :
  relationship_query rid relation g = Raise e -> e = ClientError.
Proof.
  unfold relationship_query.
  destruct (source_type relation), (target_type relation), (relationship_type relation);
    try (now intros [= <-]).
  destruct (merge_node _ _) as [ns1 sources]. destruct (merge_node _ ns1). discriminate.
Qed.


Definition sample_entity : ThreatEntity :=
  mkEntity "mimikatz" (Some "tool") (Some "Mimikatz") None None None None.

Definition sample_relation : ThreatRelationship :=
  mkRelationship "apt29" (Some "threat_actor") "mimikatz" (Some "tool") (Some "uses")
                 None None.



(** ** Property assignment *)

(** The last value assigned to key [k] by a [SET] clause, if any. *)
Fixpoint last_assign (k : string) (kvs : list (string * option pvalue))
    : option (option pvalue) :=
  match kvs with
  | [] => None
  | kv :: rest =>
      match last_assign k rest with
      | Some v => Some v
      | None => if String.eqb k (fst kv) then Some (snd kv) else None
      end
  end.

Lemma lookup_set_prop props kv k :
  set_prop props kv !! k = if String.eqb k (fst kv) then snd kv else props !! k.
Proof.
  unfold set_prop. destruct kv as [k' [v|]]; simpl.
  - destruct (String.eqb_spec k k') as [->|Hne].
    + apply lookup_insert_eq.
    + now apply lookup_insert_ne.
  - destruct (String.eqb_spec k k') as [->|Hne].
    + apply lookup_delete_eq.
    + now apply lookup_delete_ne.
Qed.

Lemma lookup_set_props kvs :
  forall props k,
    set_props kvs props !! k =
    match last_assign k kvs with Some v => v | None => props !! k end.
Proof.
  induction kvs as [|kv kvs IH]; intros props k; [reflexivity|].
  unfold set_props in *. cbn [fold_left last_assign]. rewrite IH.
  destruct (last_assign k kvs); [reflexivity|]. rewrite lookup_set_prop.
  now destruct (String.eqb k (fst kv)).
Qed.

Lemma set_props_idem kvs props : set_props kvs (set_props kvs props) = set_props kvs props.
Proof.
  apply map_eq. intros k. rewrite !lookup_set_props.
  now destruct (last_assign k kvs).
Qed.

Lemma last_assign_notin k kvs : ~ In k (map fst kvs) -> last_assign k kvs = None.
Proof.
  induction kvs as [|kv kvs IH]; simpl; [reflexivity|]. intros H.
  rewrite IH by tauto. destruct (String.eqb_spec k (fst kv)); [|reflexivity].
  exfalso. apply H. now left.
Qed.

Lemma last_assign_in k v kvs :
  List.NoDup (map fst kvs) -> In (k, v) kvs -> last_assign k kvs = Some v.
Proof.
  induction kvs as [|kv kvs IH]; simpl; [tauto|].
  intros Hnd [->|Hin]; apply List.NoDup_cons_iff in Hnd as [Hk Hnd].
  - rewrite last_assign_notin by exact Hk. simpl. now rewrite String.eqb_refl.
  - now rewrite IH.
Qed.

Lemma prop_is_set_props k s kvs props :
  ~ In k (map fst kvs) -> prop_is k s (set_props kvs props) = prop_is k s props.
Proof.
  intros H. unfold prop_is. now rewrite lookup_set_props, last_assign_notin.
Qed.

(** ** Merging nodes *)

Lemma matching_from_nil i pat ns :
  matching_from i pat ns = [] <-> existsb (node_matches pat) ns = false.
Proof.
  revert i. induction ns as [|n ns IH]; intros i; simpl; [tauto|].
  destruct (node_matches pat n); simpl; [split; discriminate|apply IH].
Qed.

Lemma length_matching_from i pat ns :
  length (matching_from i pat ns) = length (List.filter (node_matches pat) ns).
Proof.
  revert i. induction ns as [|n ns IH]; intros i; simpl; [reflexivity|].
  destruct (node_matches pat n); simpl; now rewrite IH.
Qed.

Lemma matching_from_ext i pat ns ns' :
  map (node_matches pat) ns = map (node_matches pat) ns' ->
  matching_from i pat ns = matching_from i pat ns'.
Proof.
  revert i ns'. induction ns as [|n ns IH]; intros i [|n' ns']; simpl; try discriminate;
    [reflexivity|].
  intros [= -> H]. now rewrite (IH _ _ H).
Qed.

Lemma merge_node_found pat ns :
  existsb (node_matches pat) ns = true ->
  merge_node pat ns = (ns, matching_from 0 pat ns).
Proof.
  intros H. unfold merge_node.
  destruct (matching_from 0 pat ns) eqn:E; [|reflexivity].
  apply matching_from_nil in E. congruence.
Qed.

Lemma merge_node_new pat ns :
  existsb (node_matches pat) ns = false ->
  merge_node pat ns = (ns ++ [node_of_pattern pat], [length ns]).
Proof.
  intros H. unfold merge_node. apply (matching_from_nil 0) in H. now rewrite H.
Qed.

Lemma matching_from_snoc i pat ns n :
  matching_from i pat (ns ++ [n]) =
  matching_from i pat ns ++ (if node_matches pat n then [(i + length ns)%nat] else []).
Proof.
  revert i. induction ns as [|m ns IH]; intros i; simpl.
  - rewrite Nat.add_0_r. now destruct (node_matches pat n).
  - rewrite IH. replace (S i + length ns)%nat with (i + S (length ns))%nat by lia.
    now destruct (node_matches pat m).
Qed.

Lemma existsb_snoc {A} (f : A -> bool) l x : existsb f (l ++ [x]) = existsb f l || f x.
Proof. rewrite existsb_app. simpl. now rewrite orb_false_r. Qed.

(** ** The entity upsert *)

Section EntityQuery.
Variables (rid : string) (entity : ThreatEntity).

Let pat : list (string * string) := [("name", name entity)].
Let assign := set_props (entity_assignments rid entity).
Let upd (n : gmap string pvalue) := if node_matches pat n then assign n else n.

Lemma entity_keys_nodup : List.NoDup (map fst (entity_assignments rid entity)).
Proof.
  simpl. repeat (constructor; [simpl; intuition discriminate|]). constructor.
Qed.

Lemma name_not_assigned : ~ In "name" (map fst (entity_assignments rid entity)).
Proof. simpl. intuition discriminate. Qed.

Lemma node_matches_name n : node_matches pat n = prop_is "name" (name entity) n.
Proof. unfold pat, node_matches. simpl. apply andb_true_r. Qed.

Lemma node_matches_assign n : node_matches pat (assign n) = node_matches pat n.
Proof.
  rewrite !node_matches_name. apply prop_is_set_props, name_not_assigned.
Qed.

Lemma node_matches_upd n : node_matches pat (upd n) = node_matches pat n.
Proof.
  unfold upd. destruct (node_matches pat n) eqn:E; [|exact E].
  now rewrite node_matches_assign.
Qed.

Lemma upd_idem n : upd (upd n) = upd n.
Proof.
  unfold upd at 1. rewrite node_matches_upd. unfold upd.
  destruct (node_matches pat n); [|reflexivity]. apply set_props_idem.
Qed.

Lemma node_of_name_matches : node_matches pat (node_of_pattern pat) = true.
Proof.
  rewrite node_matches_name. unfold pat, node_of_pattern, prop_is. simpl.
  rewrite lookup_insert_eq. apply String.eqb_refl.
Qed.

(** The nodes the [MERGE] binds or creates, before the [SET]. *)
Definition merged_nodes (g : graph) : list (gmap string pvalue) :=
  if existsb (node_matches pat) (nodes g) then nodes g
  else nodes g ++ [node_of_pattern pat].

Lemma entity_query_eq g :
  entity_query rid entity g = Ok (mkGraph (map upd (merged_nodes g)) (rels g)).
Proof.
  unfold entity_query, merged_nodes. fold pat.
  destruct (existsb (node_matches pat) (nodes g)) eqn:E.
  - now rewrite merge_node_found.
  - now rewrite merge_node_new.
Qed.

Lemma merged_nodes_match g : existsb (node_matches pat) (merged_nodes g) = true.
Proof.
  unfold merged_nodes. destruct (existsb (node_matches pat) (nodes g)) eqn:E; [exact E|].
  now rewrite existsb_snoc, node_of_name_matches, orb_true_r.
Qed.

Lemma existsb_map_upd ns : existsb (node_matches pat) (map upd ns) = existsb (node_matches pat) ns.
Proof.
  induction ns as [|n ns IH]; cbn [existsb map]; [reflexivity|].
  now rewrite node_matches_upd, IH.
Qed.

Lemma filter_map_upd ns :
  length (List.filter (node_matches pat) (map upd ns)) =
  length (List.filter (node_matches pat) ns).
Proof.
  induction ns as [|n ns IH]; cbn [List.filter map]; [reflexivity|].
  rewrite node_matches_upd.
  destruct (node_matches pat n); cbn [length]; now rewrite IH.
Qed.

Lemma entity_query_idem g g1 :
  entity_query rid entity g = Ok g1 -> entity_query rid entity g1 = Ok g1.
Proof.
  rewrite entity_query_eq. intros [= <-]. rewrite entity_query_eq. simpl.
  unfold merged_nodes at 1. simpl.
  rewrite existsb_map_upd, merged_nodes_match, map_map.
  do 2 f_equal. apply map_ext. intros n. apply upd_idem.
Qed.

Lemma existsb_filter_length {A} (f : A -> bool) l :
  existsb f l = false -> length (List.filter f l) = 0%nat.
Proof.
  induction l as [|x l IH]; simpl; [reflexivity|].
  destruct (f x); simpl; [discriminate|exact IH].
Qed.

Lemma existsb_filter_pos {A} (f : A -> bool) l :
  existsb f l = true -> (1 <= length (List.filter f l))%nat.
Proof.
  induction l as [|x l IH]; simpl; [discriminate|].
  destruct (f x); simpl; [lia|exact IH].
Qed.

(** The upsert leaves as many nodes of that name as there were, and one if
    there was none. *)
Lemma entity_query_count g g1 :
  entity_query rid entity g = Ok g1 ->
  length (List.filter (prop_is "name" (name entity)) (nodes g1)) =
  Nat.max 1 (length (List.filter (prop_is "name" (name entity)) (nodes g))).
Proof.
  rewrite entity_query_eq. intros [= <-]. simpl.
  rewrite <- !(List.filter_ext _ _ node_matches_name).
  rewrite filter_map_upd. unfold merged_nodes.
  destruct (existsb (node_matches pat) (nodes g)) eqn:E.
  - apply existsb_filter_pos in E. lia.
  - rewrite List.filter_app, length_app. cbn [List.filter].
    rewrite node_of_name_matches. cbn [length].
    apply existsb_filter_length in E. lia.
Qed.

(** Every node of that name holds the values of the upsert; a null value
    means the property is absent. *)
Lemma entity_query_values g g1 n k v :
  entity_query rid entity g = Ok g1 ->
  In n (nodes g1) -> prop_is "name" (name entity) n = true ->
  In (k, v) (entity_assignments rid entity) ->
  n !! k = v.
Proof.
  rewrite entity_query_eq. intros [= <-]. simpl. intros Hin Hn Hkv.
  apply in_map_iff in Hin as [n0 [<- _]]. rewrite <- node_matches_name in Hn.
  rewrite node_matches_upd in Hn. unfold upd. rewrite Hn. unfold assign.
  rewrite lookup_set_props, (last_assign_in k v); auto using entity_keys_nodup.
Qed.

End EntityQuery.

(** ** The relationship upsert *)

Section MergeRel.
Variables (rtype : string) (assign : gmap string pvalue -> gmap string pvalue).
Hypothesis assign_idem : forall props, assign (assign props) = assign props.
Hypothesis assign_type : forall props,
  prop_is "type" rtype (assign props) = prop_is "type" rtype props.

Definition upd_rel (r : relation) : relation :=
  mkRel (r_source r) (r_target r) (assign (r_props r)).

(** The pair [st] has a relationship and all its relationships hold the
    assigned values. *)
Definition settled (st : nat * nat) (rs : list relation) : Prop :=
  existsb (rel_matches (fst st) (snd st) rtype) rs = true /\
  forall r, In r rs -> rel_matches (fst st) (snd st) rtype r = true -> upd_rel r = r.

Lemma upd_rel_idem r : upd_rel (upd_rel r) = upd_rel r.
Proof. unfold upd_rel. simpl. now rewrite assign_idem. Qed.

Lemma rel_matches_upd s t r : rel_matches s t rtype (upd_rel r) = rel_matches s t rtype r.
Proof. unfold rel_matches, upd_rel. simpl. now rewrite assign_type. Qed.

Lemma rel_matches_new s t :
  rel_matches s t rtype (upd_rel (mkRel s t {[ "type" := PStr rtype ]})) = true.
Proof.
  rewrite rel_matches_upd. unfold rel_matches, prop_is. simpl.
  rewrite !Nat.eqb_refl, lookup_singleton_eq. apply String.eqb_refl.
Qed.

Lemma merge_rel_eq rs st :
  merge_rel rtype assign rs st =
  if existsb (rel_matches (fst st) (snd st) rtype) rs
  then map (fun r => if rel_matches (fst st) (snd st) rtype r then upd_rel r else r) rs
  else rs ++ [upd_rel (mkRel (fst st) (snd st) {[ "type" := PStr rtype ]})].
Proof. reflexivity. Qed.

Lemma merge_rel_fix rs st : settled st rs -> merge_rel rtype assign rs st = rs.
Proof.
  intros [He Hfix]. rewrite merge_rel_eq, He.
  rewrite <- (map_id rs) at 2. apply map_ext_in. intros r Hin.
  destruct (rel_matches (fst st) (snd st) rtype r) eqn:E; [|reflexivity].
  now apply Hfix.
Qed.

Lemma merge_rel_in rs st r :
  In r (merge_rel rtype assign rs st) -> In r rs \/ exists r0, r = upd_rel r0.
Proof.
  rewrite merge_rel_eq.
  destruct (existsb (rel_matches (fst st) (snd st) rtype) rs).
  - intros [r0 [<- Hin]]%in_map_iff.
    destruct (rel_matches (fst st) (snd st) rtype r0); eauto.
  - intros [Hin|[<-|[]]]%in_app_or; eauto.
Qed.

Lemma merge_rel_exists rs st st' :
  existsb (rel_matches (fst st) (snd st) rtype) rs = true ->
  existsb (rel_matches (fst st) (snd st) rtype) (merge_rel rtype assign rs st') = true.
Proof.
  intros He. rewrite merge_rel_eq.
  destruct (existsb (rel_matches (fst st') (snd st') rtype) rs).
  - apply existsb_exists in He as [r [Hin Hr]]. apply existsb_exists.
    exists (if rel_matches (fst st') (snd st') rtype r then upd_rel r else r). split.
    + apply in_map_iff. eauto.
    + destruct (rel_matches (fst st') (snd st') rtype r); [|exact Hr].
      now rewrite rel_matches_upd.
  - now rewrite existsb_app, He.
Qed.

Lemma merge_rel_preserves rs st st' :
  settled st rs -> settled st (merge_rel rtype assign rs st').
Proof.
  intros [He Hfix]. split; [now apply merge_rel_exists|].
  intros r Hin Hr. apply merge_rel_in in Hin as [Hin|[r0 ->]].
  - now apply Hfix.
  - apply upd_rel_idem.
Qed.

Lemma merge_rel_settles rs st : settled st (merge_rel rtype assign rs st).
Proof.
  destruct (existsb (rel_matches (fst st) (snd st) rtype) rs) eqn:He.
  - split; [now apply merge_rel_exists|].
    intros r Hin Hr. rewrite merge_rel_eq, He in Hin.
    apply in_map_iff in Hin as [r0 [<- Hin]].
    destruct (rel_matches (fst st) (snd st) rtype r0) eqn:E; [apply upd_rel_idem|congruence].
  - rewrite merge_rel_eq, He. split.
    + now rewrite existsb_snoc, rel_matches_new, orb_true_r.
    + intros r [Hin|[<-|[]]]%in_app_or Hr; [|apply upd_rel_idem].
      exfalso. assert (existsb (rel_matches (fst st) (snd st) rtype) rs = true); [|congruence].
      apply existsb_exists. eauto.
Qed.

Lemma fold_merge_preserves pairs :
  forall rs st, settled st rs -> settled st (fold_left (merge_rel rtype assign) pairs rs).
Proof.
  induction pairs as [|p pairs IH]; intros rs st H; simpl; [exact H|].
  now apply IH, merge_rel_preserves.
Qed.

Lemma fold_merge_settles pairs :
  forall rs st, In st pairs -> settled st (fold_left (merge_rel rtype assign) pairs rs).
Proof.
  induction pairs as [|p pairs IH]; intros rs st Hin; simpl; [destruct Hin|].
  destruct Hin as [->|Hin].
  - apply fold_merge_preserves, merge_rel_settles.
  - now apply IH.
Qed.

Lemma fold_merge_fix pairs :
  forall rs, (forall st, In st pairs -> settled st rs) ->
             fold_left (merge_rel rtype assign) pairs rs = rs.
Proof.
  induction pairs as [|p pairs IH]; intros rs H; simpl; [reflexivity|].
  rewrite merge_rel_fix by (apply H; now left). apply IH.
  intros st Hin. apply H. now right.
Qed.

Lemma fold_merge_idem pairs rs :
  fold_left (merge_rel rtype assign) pairs (fold_left (merge_rel rtype assign) pairs rs) =
  fold_left (merge_rel rtype assign) pairs rs.
Proof.
  apply fold_merge_fix. intros st Hin. now apply fold_merge_settles.
Qed.

End MergeRel.

Definition typed_pattern (nm ty : string) : list (string * string) :=
  [("name", nm); ("entity_type", ty)].

Lemma node_matches_typed nm ty n :
  node_matches (typed_pattern nm ty) n = prop_is "name" nm n && prop_is "entity_type" ty n.
Proof. unfold node_matches, typed_pattern. simpl. now rewrite andb_true_r. Qed.

Lemma node_of_typed_matches nm ty nm' ty' :
  node_matches (typed_pattern nm ty) (node_of_pattern (typed_pattern nm' ty')) =
  String.eqb nm nm' && String.eqb ty ty'.
Proof.
  rewrite node_matches_typed. unfold node_of_pattern, typed_pattern, prop_is. simpl.
  rewrite lookup_insert_ne by discriminate.
  now rewrite !lookup_insert_eq.
Qed.

(** A second [MERGE] of a pattern binds what the first one bound. *)
Lemma merge_node_again nm ty ns ns' found :
  merge_node (typed_pattern nm ty) ns = (ns', found) ->
  merge_node (typed_pattern nm ty) ns' = (ns', found).
Proof.
  destruct (existsb (node_matches (typed_pattern nm ty)) ns) eqn:E.
  - rewrite merge_node_found by exact E. intros [= <- <-]. now apply merge_node_found.
  - rewrite merge_node_new by exact E. intros [= <- <-].
    rewrite merge_node_found.
    + f_equal. rewrite matching_from_snoc.
      apply (matching_from_nil 0) in E. rewrite E.
      now rewrite node_of_typed_matches, !String.eqb_refl.
    + now rewrite existsb_snoc, node_of_typed_matches, !String.eqb_refl, orb_true_r.
Qed.

(** A [MERGE] of another pattern in between does not change it either. *)
Lemma merge_node_after nm ty nm' ty' ns found ns' found' :
  merge_node (typed_pattern nm ty) ns = (ns, found) ->
  merge_node (typed_pattern nm' ty') ns = (ns', found') ->
  merge_node (typed_pattern nm ty) ns' = (ns', found).
Proof.
  intros H1 H2.
  assert (E1 : existsb (node_matches (typed_pattern nm ty)) ns = true).
  { destruct (existsb (node_matches (typed_pattern nm ty)) ns) eqn:E; [reflexivity|].
    rewrite merge_node_new in H1 by exact E. injection H1 as H1 _.
    apply (f_equal (@length _)) in H1. rewrite length_app in H1. simpl in H1. lia. }
  rewrite merge_node_found in H1 by exact E1. injection H1 as H1.
  destruct (existsb (node_matches (typed_pattern nm' ty')) ns) eqn:E2.
  - rewrite merge_node_found in H2 by exact E2. injection H2 as <- _.
    rewrite merge_node_found by exact E1. now rewrite H1.
  - rewrite merge_node_new in H2 by exact E2. injection H2 as <- _.
    assert (Hn : node_matches (typed_pattern nm ty)
                   (node_of_pattern (typed_pattern nm' ty')) = false).
    { rewrite node_of_typed_matches.
      destruct (String.eqb_spec nm nm') as [->|]; [|reflexivity].
      destruct (String.eqb_spec ty ty') as [->|]; [|reflexivity]. congruence. }
    rewrite merge_node_found by (now rewrite existsb_snoc, E1).
    now rewrite matching_from_snoc, Hn, app_nil_r, H1.
Qed.

Lemma relation_assign_type rid relation rtype props :
  prop_is "type" rtype (set_props (relation_assignments rid relation) props) =
  prop_is "type" rtype props.
Proof. apply prop_is_set_props. simpl. intuition discriminate. Qed.

Lemma relationship_query_idem rid relation g g1 :
  relationship_query rid relation g = Ok g1 -> relationship_query rid relation g1 = Ok g1.
Proof.
  unfold relationship_query.
  destruct (source_type relation) as [stype|]; [|discriminate].
  destruct (target_type relation) as [ttype|]; [|discriminate].
  destruct (relationship_type relation) as [rtype|]; [|discriminate].
  fold (typed_pattern (source_name relation) stype).
  fold (typed_pattern (target_name relation) ttype).
  destruct (merge_node (typed_pattern (source_name relation) stype) (nodes g))
    as [ns1 sources] eqn:E1.
  destruct (merge_node (typed_pattern (target_name relation) ttype) ns1)
    as [ns2 targets] eqn:E2.
  intros [= <-]. simpl.
  pose proof (merge_node_again _ _ _ _ _ E1) as E1'.
  rewrite (merge_node_after _ _ _ _ _ _ _ _ E1' E2).
  rewrite (merge_node_again _ _ _ _ _ E2).
  do 2 f_equal. apply fold_merge_idem.
  - intros props. apply set_props_idem.
  - intros props. apply relation_assign_type.
Qed.

(** ** Upserting twice *)

Lemma save_entity_store entity d d1 :
  save_entity entity d = (Ok tt, d1) ->
  run_id d1 = run_id d /\ entity_query (run_id d) entity (store d) = Ok (store d1).
Proof.
  unfold save_entity. destruct (_ || _); [discriminate|]. intros H.
  pose proof (run_store _ (entity_query_errors (run_id d) entity) d) as [Hr Hs].
  rewrite H in Hr, Hs. simpl in Hr, Hs. auto.
Qed.

Lemma save_relationship_store relation d d1 :
  save_relationship relation d = (Ok tt, d1) ->
  run_id d1 = run_id d /\ relationship_query (run_id d) relation (store d) = Ok (store d1).
Proof.
  unfold save_relationship. destruct (_ || _); [discriminate|]. intros H.
  pose proof (run_store _ (relationship_query_errors (run_id d) relation) d) as [Hr Hs].
  rewrite H in Hr, Hs. simpl in Hr, Hs. auto.
Qed.

(** The number of nodes carrying the given name and entity type. *)
Definition count_key (nm ty : string) (g : graph) : nat :=
  length (List.filter (fun n => prop_is "name" nm n && prop_is "entity_type" ty n) (nodes g)).

Definition count_name (nm : string) (g : graph) : nat :=
  length (List.filter (prop_is "name" nm) (nodes g)).

(** Both upserts are idempotent.  [save_entity] merges on the name alone:
    when an upsert succeeds twice in a row, the second leaves the store
    exactly as the first left it; after an entity upsert the store has as
    many nodes of that name as before, and one if it had none, and every
    node of that name holds the values just written (a null value removing
    the property). *)
Lemma upsert_twice_same_state (entity : ThreatEntity) (relation : ThreatRelationship)
    (d : db) :
  (forall d1 d2,
     save_entity entity d = (Ok tt, d1) ->
     save_entity entity d1 = (Ok tt, d2) ->
     store d2 = store d1 /\
     count_name (name entity) (store d1) = Nat.max 1 (count_name (name entity) (store d)) /\
     forall n k v,
       In n (nodes (store d1)) -> prop_is "name" (name entity) n = true ->
       In (k, v) (entity_assignments (run_id d) entity) -> n !! k = v) /\
  (forall d1 d2,
     save_relationship relation d = (Ok tt, d1) ->
     save_relationship relation d1 = (Ok tt, d2) ->
     store d2 = store d1).
Proof.
  split.
  - intros d1 d2 H1 H2.
    apply save_entity_store in H1 as [R1 Q1]. apply save_entity_store in H2 as [_ Q2].
    rewrite R1 in Q2. split; [|split].
    + rewrite (entity_query_idem _ _ _ _ Q1) in Q2. now injection Q2.
    + unfold count_name. now apply (entity_query_count (run_id d)).
    + intros n k v. now apply (entity_query_values (run_id d) entity (store d)).
  - intros d1 d2 H1 H2.
    apply save_relationship_store in H1 as [R1 Q1].
    apply save_relationship_store in H2 as [_ Q2].
    rewrite R1 in Q2. rewrite (relationship_query_idem _ _ _ _ Q1) in Q2. now injection Q2.
Qed.

Definition fresh_db : db := mkDb empty_graph "run-1" [] 0.

Definition after (calls : list (db -> result unit * db)) (d : db) : db :=
  fold_left (fun d call => snd (call d)) calls d.

Example upsert_twice_same_state_sample :
  let d1 := snd (save_entity sample_entity fresh_db) in
  let d2 := snd (save_entity sample_entity d1) in
  let r1 := snd (save_relationship sample_relation d2) in
  let r2 := snd (save_relationship sample_relation r1) in
  (store d2 = store d1 /\ count_name "mimikatz" (store d1) = 1%nat) /\
  store r2 = store r1.
Proof.
  intros d1 d2 r1 r2. split.
  - destruct (upsert_twice_same_state sample_entity sample_relation fresh_db) as [H _].
    destruct (H d1 d2 eq_refl eq_refl) as (H1 & H2 & _). split; [exact H1|exact H2].
  - destruct (upsert_twice_same_state sample_entity sample_relation d2) as [_ H].
    exact (H r1 r2 eq_refl eq_refl).
Qed.

Definition entity_x (ty : string) : ThreatEntity :=
  mkEntity "x" (Some ty) None None None None None.

Definition relation_x_tool : ThreatRelationship :=
  mkRelationship "x" (Some "tool") "y" (Some "malware") (Some "uses") None None.

(** The entity key is not name+type: upserting (x, malware) and then
    (x, tool) leaves a single node, of type tool, and none of type malware.
    And an entity upserted twice can be stored twice: once a relationship
    upsert has merged a second node named x, of another type, upserting
    (x, malware) twice leaves two nodes with that name and type. *)
Example upsert_twice_sample :
  let g1 := store (after [save_entity (entity_x "malware"); save_entity (entity_x "tool")]
                         fresh_db) in
  let g2 := store (after [save_entity (entity_x "malware");
                          save_relationship relation_x_tool;
                          save_entity (entity_x "malware");
                          save_entity (entity_x "malware")] fresh_db) in
  (length (nodes g1) = 1%nat /\ count_key "x" "malware" g1 = 0%nat /\
   count_key "x" "tool" g1 = 1%nat) /\
  count_key "x" "malware" g2 = 2%nat.
Proof. vm_compute. repeat split. Qed.

(** A record without a name is rejected before any attempt. *)
Example save_entity_unnamed d :
  save_entity (mkEntity "" (Some "tool") None None None None None) d = (Raise ValueError, d).
Proof. reflexivity. Qed.

End Neo4jFacts.

(** * Facts about the enrichment stage *)

Module MitreFacts.
Import Schemas MitreStix.

(** No cached value and no local cache file. *)
Definition no_reference_data : mitre_env := mkMitreEnv None None.

Lemma fetch_without_data :
  fetch_mitre_data no_reference_data = (Raise FileNotFoundError, no_reference_data).
Proof. reflexivity. Qed.

(** An empty local cache file is treated like a missing one. *)
Lemma fetch_with_empty_data :
  fetch_mitre_data (mkMitreEnv None (Some MitreEmpty)) =
  (Raise FileNotFoundError, mkMitreEnv None (Some MitreEmpty)).
Proof. reflexivity. Qed.

Lemma enrich_without_data entities :
  enrich_entities_with_mitre_stix entities no_reference_data =
  (Raise FileNotFoundError, no_reference_data).
Proof. reflexivity. Qed.

(** With reference data at hand, an entity without a type still makes the
    stage raise. *)
Lemma enrich_untyped data entities entity :
  ety entity = None ->
  enrich_all data (entity :: entities) = Raise AttributeError.
Proof. intros H. simpl. unfold enrich_entity. now rewrite H. Qed.

(** With reference data and typed entities the stage returns as many
    entities as it was given, under the same names. *)
Lemma enrich_all_names data entities :
  List.Forall (fun e => ety e <> None) entities ->
  exists enriched,
    enrich_all data entities = Ok enriched /\ map name enriched = map name entities.
Proof.
  induction 1 as [|e l He _ [enriched [IH1 IH2]]]; simpl; [now exists []|].
  unfold enrich_entity. destruct (ety e) as [t|]; [|congruence].
  destruct (existsb _ _); [destruct (find_mitre_info _ _)|]; rewrite IH1;
    eexists; split; try reflexivity; simpl; now rewrite IH2.
Qed.

End MitreFacts.

(** * Facts about the pipeline executor *)

Module ManagerFacts.
Import Schemas Manager.

Definition is_stage (ev : event) : bool :=
  match ev with
  | EvNER _ | EvEnrich _ | EvRelations _ => true
  | _ => false
  end.

Definition is_persist (ev : event) : bool :=
  match ev with
  | EvSaveEntity _ | EvSaveRelationship _ => true
  | _ => false
  end.

Definition is_ner (rid : Z) (ev : event) : bool :=
  match ev with
  | EvNER (Some r) => Z.eqb r rid
  | _ => false
  end.

(** The number of calls of the entity-extraction stage for record [rid]. *)
Definition ner_calls (rid : Z) (evs : list event) : nat :=
  length (List.filter (is_ner rid) evs).

Definition is_checkpoint (ev : event) : bool :=
  match ev with EvCheckpoint _ => true | _ => false end.

Definition checkpoint_saves (evs : list event) : nat :=
  length (List.filter is_checkpoint evs).

Definition non_blank (doc : Document) : bool := PyStr.truthy (PyStr.strip (text doc)).

Lemma ner_calls_app rid evs evs' :
  ner_calls rid (evs ++ evs') = (ner_calls rid evs + ner_calls rid evs')%nat.
Proof. unfold ner_calls. now rewrite List.filter_app, length_app. Qed.

(** ** The checkpoint store *)

Lemma load_save_checkpoint (ids : gset Z) :
  load_checkpoint (Some (save_checkpoint ids)) = Ok ids.
Proof.
  unfold load_checkpoint, save_checkpoint. rewrite JsonFacts.loads_dumps.
  f_equal. apply list_to_set_elements_L.
Qed.

Lemma load_torn_checkpoint (ids : gset Z) (n : nat) before :
  (n < String.length (save_checkpoint ids))%nat ->
  load_checkpoint (checkpoint_file_during_save ids n before) = Raise JSONDecodeError.
Proof.
  intros Hn. unfold load_checkpoint, checkpoint_file_during_save, save_checkpoint in *.
  now rewrite JsonFacts.loads_prefix_dumps.
Qed.

(** C4, as amended.  [save_checkpoint] rewrites the checkpoint file in
    place.  A save that completes leaves a file that loads back to exactly
    the saved set.  A save interrupted before its last character leaves
    the beginning of the new text in the file, whatever the file held
    before, and that file does not load. *)
Theorem checkpoint_save_in_place (ids : gset Z) (before : option string) :
  load_checkpoint (Some (save_checkpoint ids)) = Ok ids /\
  forall written,
    (written < String.length (save_checkpoint ids))%nat ->
    checkpoint_file_during_save ids written before =
      Some (Json.prefix written (save_checkpoint ids)) /\
    load_checkpoint (checkpoint_file_during_save ids written before) = Raise JSONDecodeError.
Proof.
  split; [apply load_save_checkpoint|].
  intros written Hw. split; [reflexivity|now apply load_torn_checkpoint].
Qed.

Definition ids_12 : gset Z := {[1; 2]}.
Definition ids_123 : gset Z := {[1; 2; 3]}.

Lemma checkpoint_save_in_place_witness :
  load_checkpoint (Some (save_checkpoint ids_123)) = Ok ids_123 /\
  (4 < String.length (save_checkpoint ids_123))%nat /\
  load_checkpoint (checkpoint_file_during_save ids_123 4 (Some (save_checkpoint ids_12)))
  = Raise JSONDecodeError.
Proof.
  destruct (checkpoint_save_in_place ids_123 (Some (save_checkpoint ids_12))) as [H1 H2].
  split; [exact H1|].
  assert (Hlt : (4 < String.length (save_checkpoint ids_123))%nat) by (vm_compute; lia).
  split; [exact Hlt|]. exact (proj2 (H2 4%nat Hlt)).
Defined.

(** C4, as stated, fails: interrupted right after the file has been opened
    for writing, the save of {1, 2, 3} over a checkpoint holding {1, 2}
    leaves an empty file, which holds neither set and does not load. *)
Lemma checkpoint_save_counterexample :
  let before := Some (save_checkpoint ids_12) in
  let torn := checkpoint_file_during_save ids_123 0 before in
  load_checkpoint before = Ok ids_12 /\
  torn = Some "" /\
  torn <> before /\
  torn <> Some (save_checkpoint ids_123) /\
  load_checkpoint torn = Raise JSONDecodeError.
Proof.
  split; [apply load_save_checkpoint|]. split; [reflexivity|].
  split; [vm_compute; discriminate|]. split; [vm_compute; discriminate|]. reflexivity.
Qed.

(** ** One document *)

Section Executor.
Variable perform_hybrid_ner : string -> result (list ThreatEntity).
Variable llm_relations : string -> list ThreatEntity -> result (list ThreatRelationship).

Let process := process_document perform_hybrid_ner llm_relations.
Let body := loop_body perform_hybrid_ner llm_relations.
Let loop := main_loop perform_hybrid_ner llm_relations.
Let timing := estimate perform_hybrid_ner llm_relations.
Let run := run_documents perform_hybrid_ner llm_relations.

(** The events of [process_document] are stage calls, and the
    entity-extraction stage is called exactly when the text is not blank. *)
Lemma process_document_events doc m env :
  let evs := snd (process doc m env) in
  forallb is_stage evs = true /\
  (forall rid, record_id doc = Some rid ->
     ner_calls rid evs = if non_blank doc then 1%nat else 0%nat) /\
  (forall rid, record_id doc <> Some rid -> ner_calls rid evs = 0%nat).
Proof.
  unfold process, process_document, non_blank, ner_calls.
  destruct (PyStr.truthy (PyStr.strip (text doc))); cbn [negb].
  - assert (Hn : forall rid, record_id doc = Some rid -> is_ner rid (EvNER (record_id doc)) = true).
    { intros rid ->. simpl. apply Z.eqb_refl. }
    assert (Hd : forall rid, record_id doc <> Some rid -> is_ner rid (EvNER (record_id doc)) = false).
    { intros rid H. simpl. destruct (record_id doc) as [r|]; [|reflexivity].
      apply Z.eqb_neq. congruence. }
    destruct (perform_hybrid_ner (text doc)) as [entities|e].
    + destruct (MitreStix.enrich_entities_with_mitre_stix entities env) as [[enriched|e] env'].
      * destruct (extract_relationships_llm llm_relations (text doc) enriched);
          cbn [snd forallb is_stage andb List.filter]; (split; [reflexivity|]);
          split; intros rid H; [rewrite (Hn _ H)|rewrite (Hd _ H)| rewrite (Hn _ H)|rewrite (Hd _ H)];
          reflexivity.
      * cbn [snd forallb is_stage andb List.filter]. split; [reflexivity|].
        split; intros rid H; [rewrite (Hn _ H)|rewrite (Hd _ H)]; reflexivity.
    + cbn [snd forallb is_stage andb List.filter]. split; [reflexivity|].
      split; intros rid H; [rewrite (Hn _ H)|rewrite (Hd _ H)]; reflexivity.
  - simpl. auto.
Qed.

Lemma save_entities_events entities d :
  snd (save_entities entities d) = map EvSaveEntity entities.
Proof.
  revert d. induction entities as [|e l IH]; intros d; simpl; [reflexivity|].
  specialize (IH (snd (Neo4jPersistor.save_entity e d))).
  destruct (save_entities l _). simpl in *. now rewrite IH.
Qed.

Lemma save_relationships_events relationships d :
  snd (save_relationships relationships d) = map EvSaveRelationship relationships.
Proof.
  revert d. induction relationships as [|r l IH]; intros d; simpl; [reflexivity|].
  specialize (IH (snd (Neo4jPersistor.save_relationship r d))).
  destruct (save_relationships l _). simpl in *. now rewrite IH.
Qed.

(** [ingest_to_neo4j] attempts every entity, then every relationship; in a
    dry run it attempts nothing. *)
Lemma ingest_events entities relationships d dry_run :
  snd (ingest_to_neo4j entities relationships d dry_run) =
  if dry_run then []
  else map EvSaveEntity entities ++ map EvSaveRelationship relationships.
Proof.
  unfold ingest_to_neo4j. destruct dry_run; [reflexivity|].
  pose proof (save_entities_events entities d) as H1.
  destruct (save_entities entities d) as [d1 evs1]. simpl in H1.
  pose proof (save_relationships_events relationships d1) as H2.
  destruct (save_relationships relationships d1) as [d2 evs2]. simpl in *.
  now rewrite H1, H2.
Qed.

Lemma forallb_persist_entities entities :
  forallb is_persist (map EvSaveEntity entities) = true.
Proof. induction entities; simpl; auto. Qed.

Lemma forallb_persist_relationships relationships :
  forallb is_persist (map EvSaveRelationship relationships) = true.
Proof. induction relationships; simpl; auto. Qed.

(** What one iteration of the checkpointed loop appends to the trace: either
    nothing, for a document that is skipped, or the stage calls of the
    document, then its persistence attempts, then one checkpoint write
    containing its id. *)
Definition persists_of (dry_run : bool) (entities : list ThreatEntity)
    (relationships : list ThreatRelationship) : list event :=
  if dry_run then []
  else map EvSaveEntity entities ++ map EvSaveRelationship relationships.

Inductive segment (dry_run : bool) (processed : gset Z) (doc : Document)
    : list event -> Prop :=
| seg_no_id : record_id doc = None -> segment dry_run processed doc []
| seg_skipped rid :
    record_id doc = Some rid -> rid ∈ processed -> segment dry_run processed doc []
| seg_committed rid stages entities relationships :
    record_id doc = Some rid -> rid ∉ processed ->
    forallb is_stage stages = true ->
    ner_calls rid stages = (if non_blank doc then 1%nat else 0%nat) ->
    (forall r, r <> rid -> ner_calls r stages = 0%nat) ->
    segment dry_run processed doc
      (stages ++ persists_of dry_run entities relationships
              ++ [EvCheckpoint (elements (processed ∪ {[rid]}))]).

Lemma persists_of_persist dry_run entities relationships :
  forallb is_persist (persists_of dry_run entities relationships) = true.
Proof.
  unfold persists_of. destruct dry_run; [reflexivity|].
  now rewrite forallb_app, forallb_persist_entities, forallb_persist_relationships.
Qed.

Definition processed_after (processed : gset Z) (doc : Document) : gset Z :=
  match record_id doc with
  | Some rid => processed ∪ {[rid]}
  | None => processed
  end.

Lemma loop_body_skip dry_run processed w doc rid :
  record_id doc = Some rid -> rid ∈ processed ->
  body dry_run (processed, w) doc = (processed, w).
Proof.
  intros Hr Hin. unfold body, loop_body. rewrite Hr.
  now rewrite bool_decide_eq_true_2.
Qed.

Lemma loop_body_segment dry_run processed w doc :
  exists seg,
    segment dry_run processed doc seg /\
    fst (body dry_run (processed, w) doc) = processed_after processed doc /\
    trace (snd (body dry_run (processed, w) doc)) = trace w ++ seg /\
    (seg <> [] ->
     checkpoint_file (snd (body dry_run (processed, w) doc)) =
       Some (save_checkpoint (processed_after processed doc))) /\
    (seg = [] -> snd (body dry_run (processed, w) doc) = w).
Proof.
  unfold body, loop_body, processed_after.
  destruct (record_id doc) as [rid|] eqn:Hr.
  - case_bool_decide as Hin.
    + exists []. split; [now apply (seg_skipped _ _ _ rid)|]. simpl.
      rewrite app_nil_r. split; [|split; [reflexivity|split; [congruence|reflexivity]]].
      apply set_eq. intros x. rewrite elem_of_union, elem_of_singleton.
      split; [auto|now intros [?| ->]].
    + pose proof (process_document_events doc (w_metrics w) (w_mitre w)) as [Hs [Hn Hd]].
      unfold process in *.
      destruct (process_document perform_hybrid_ner llm_relations doc (w_metrics w) (w_mitre w))
        as [[[entities relationships] [m env]] evs1].
      pose proof (ingest_events entities relationships (w_db w) dry_run) as Hi.
      destruct (ingest_to_neo4j entities relationships (w_db w) dry_run) as [d evs2].
      simpl in Hs, Hn, Hd, Hi. subst evs2.
      eexists. split.
      * apply (seg_committed dry_run _ _ rid evs1 entities relationships); auto.
        intros r Hne. apply Hd. congruence.
      * simpl. split; [reflexivity|]. split; [reflexivity|]. split; [reflexivity|].
        intros H. exfalso. destruct evs1; [|discriminate].
        destruct (persists_of dry_run entities relationships); discriminate.
  - exists []. split; [now apply seg_no_id|]. simpl. rewrite app_nil_r.
    split; [reflexivity|]. split; [reflexivity|]. split; [congruence|reflexivity].
Qed.

(** ** The checkpointed loop *)

(** The trace of the loop over [docs], from the checkpoint set [processed]:
    one segment per document, in order. *)
Inductive segments (dry_run : bool) : gset Z -> list Document -> list event -> Prop :=
| segs_nil processed : segments dry_run processed [] []
| segs_cons processed doc docs seg rest :
    segment dry_run processed doc seg ->
    segments dry_run (processed_after processed doc) docs rest ->
    segments dry_run processed (doc :: docs) (seg ++ rest).

Lemma main_loop_segments dry_run docs :
  forall processed w,
  exists evs,
    segments dry_run processed docs evs /\
    trace (snd (loop dry_run docs (processed, w))) = trace w ++ evs /\
    fst (loop dry_run docs (processed, w)) = fold_left processed_after docs processed.
Proof.
  unfold loop, main_loop.
  induction docs as [|doc docs IH]; intros processed w; cbn [fold_left].
  - exists []. simpl. rewrite app_nil_r. split; [constructor|auto].
  - destruct (loop_body_segment dry_run processed w doc) as [seg (Hseg & Hp & Ht & _)].
    unfold body in *.
    destruct (loop_body perform_hybrid_ner llm_relations dry_run (processed, w) doc)
      as [processed' w1]. simpl in Hp, Ht. subst processed'.
    destruct (IH (processed_after processed doc) w1) as [rest (Hrest & Ht' & Hp')].
    exists (seg ++ rest). split; [now constructor|].
    rewrite Ht', Ht, app_assoc. auto.
Qed.

(** ** The timing pass *)

Definition calls_for (rid : Z) (doc : Document) : bool :=
  non_blank doc && bool_decide (record_id doc = Some rid).

Lemma process_calls rid doc m env :
  ner_calls rid (snd (process doc m env)) = if calls_for rid doc then 1%nat else 0%nat.
Proof.
  pose proof (process_document_events doc m env) as [_ [Hn Hd]]. simpl in Hn, Hd.
  unfold calls_for. case_bool_decide as H.
  - rewrite (Hn _ H). now destruct (non_blank doc).
  - rewrite (Hd _ H). now rewrite andb_false_r.
Qed.

(** The timing pass calls the stages for every document it is given, and
    touches neither the store nor the checkpoint. *)
Lemma estimate_trace sample :
  forall w,
  exists evs,
    trace (timing sample w) = trace w ++ evs /\
    forallb is_stage evs = true /\
    (forall rid, ner_calls rid evs = length (List.filter (calls_for rid) sample)) /\
    checkpoint_file (timing sample w) = checkpoint_file w /\
    w_db (timing sample w) = w_db w.
Proof.
  unfold timing. induction sample as [|doc sample IH]; intros w; cbn [estimate].
  - exists []. simpl. rewrite app_nil_r. auto.
  - pose proof (process_document_events doc (w_metrics w) (w_mitre w)) as [Hs _].
    pose proof (fun rid => process_calls rid doc (w_metrics w) (w_mitre w)) as Hc.
    unfold process in *.
    destruct (process_document perform_hybrid_ner llm_relations doc (w_metrics w) (w_mitre w))
      as [[res [m env]] evs1]. simpl in Hs, Hc.
    destruct (IH (mkWorld m env (w_db w) (checkpoint_file w) (trace w ++ evs1)))
      as [evs (Ht & Hst & Hn & Hf & Hd)]. simpl in Ht.
    exists (evs1 ++ evs). rewrite Ht, app_assoc. split; [reflexivity|].
    split; [now rewrite forallb_app, Hs, Hst|]. split; [|split; [exact Hf|exact Hd]].
    intros rid. rewrite ner_calls_app, Hc, Hn. cbn [List.filter].
    now destruct (calls_for rid doc).
Qed.

(** ** The run *)

Lemma run_ok dry_run now pick documents w w' :
  run dry_run now pick documents w = (Ok tt, w') ->
  random_sample pick documents <> [] ->
  exists processed d,
    load_checkpoint (checkpoint_file w) = Ok processed /\
    Neo4jPersistor.connect now (w_db w) = (Ok tt, d) /\
    w' = snd (loop dry_run (random_sample pick documents)
                (processed,
                 timing (firstn (Nat.min 3 (length (random_sample pick documents)))
                                (random_sample pick documents))
                        (with_db w d))).
Proof.
  unfold run, run_documents, loop, timing. intros H Hne.
  destruct (random_sample pick documents) as [|doc sample] eqn:Es; [congruence|].
  cbn [length Nat.eqb] in H.
  destruct (load_checkpoint (checkpoint_file w)) as [processed|e]; [|discriminate].
  destruct (Neo4jPersistor.connect now (w_db w)) as [[[]|e] d]; [|discriminate].
  injection H as <-. exists processed, d. auto.
Qed.

Lemma run_empty dry_run now pick documents w :
  random_sample pick documents = [] -> run dry_run now pick documents w = (Ok tt, w).
Proof. unfold run, run_documents. now intros ->. Qed.

(** The trace of a run that starts up: the stage calls of the timing pass
    over the first three sampled documents, then the segments of the
    checkpointed loop over the sample. *)
Lemma run_trace dry_run now pick documents w w' :
  run dry_run now pick documents w = (Ok tt, w') ->
  exists processed timed evs,
    (random_sample pick documents = [] \/
     load_checkpoint (checkpoint_file w) = Ok processed) /\
    trace w' = trace w ++ timed ++ evs /\
    forallb is_stage timed = true /\
    (forall rid, ner_calls rid timed =
       length (List.filter (calls_for rid) (firstn 3 (random_sample pick documents)))) /\
    segments dry_run processed (random_sample pick documents) evs.
Proof.
  intros H. destruct (random_sample pick documents) as [|doc sample] eqn:Es.
  - rewrite run_empty in H by exact Es. injection H as <-.
    exists ∅, [], []. rewrite !app_nil_r. repeat split; auto. constructor.
  - apply run_ok in H; [|rewrite Es; discriminate]. rewrite Es in H.
    destruct H as (processed & d & Hl & _ & ->).
    set (sample' := doc :: sample) in *.
    destruct (estimate_trace (firstn (Nat.min 3 (length sample')) sample') (with_db w d))
      as [timed (Ht & Hs & Hn & _)].
    destruct (main_loop_segments dry_run sample' processed
                (timing (firstn (Nat.min 3 (length sample')) sample') (with_db w d)))
      as [evs (Hsegs & Ht' & _)].
    exists processed, timed, evs. split; [now right|].
    split; [rewrite Ht', Ht; simpl; now rewrite app_assoc|].
    split; [exact Hs|]. split; [|exact Hsegs].
    intros rid. rewrite Hn. do 2 f_equal.
    destruct (Nat.le_ge_cases 3 (length sample')) as [Hle|Hge].
    + now rewrite Nat.min_l.
    + rewrite Nat.min_r by exact Hge. rewrite !firstn_all2; auto.
Qed.

(** ** Counting the calls of the entity-extraction stage *)

Lemma persist_no_calls rid evs : forallb is_persist evs = true -> ner_calls rid evs = 0%nat.
Proof.
  unfold ner_calls. induction evs as [|ev evs IH]; simpl; [reflexivity|].
  intros [Hev Hevs]%andb_true_iff. destruct ev; try discriminate Hev; simpl; auto.
Qed.

Lemma committed_calls rid dry_run stages entities relationships ids :
  ner_calls rid (stages ++ persists_of dry_run entities relationships ++ [EvCheckpoint ids]) =
  ner_calls rid stages.
Proof.
  rewrite !ner_calls_app, (persist_no_calls rid _ (persists_of_persist _ _ _)).
  unfold ner_calls. simpl. lia.
Qed.

Lemma segment_other_calls dry_run processed doc seg rid :
  segment dry_run processed doc seg -> record_id doc <> Some rid ->
  ner_calls rid seg = 0%nat.
Proof.
  intros [Hn|r Hr Hin|r stages entities relationships Hr Hin Hs Hc Hd] Hne; try reflexivity.
  rewrite committed_calls. apply Hd. congruence.
Qed.

Lemma segments_other_calls dry_run processed docs evs rid :
  segments dry_run processed docs evs ->
  (forall doc, In doc docs -> record_id doc <> Some rid) ->
  ner_calls rid evs = 0%nat.
Proof.
  induction 1 as [|processed doc docs seg rest Hseg Hrest IH]; intros H; [reflexivity|].
  rewrite ner_calls_app, (segment_other_calls _ _ _ _ rid Hseg) by (apply H; now left).
  apply IH. intros d Hd. apply H. now right.
Qed.

Lemma segments_calls dry_run processed docs evs doc rid :
  segments dry_run processed docs evs ->
  List.NoDup (map record_id docs) ->
  rid ∉ processed -> In doc docs -> record_id doc = Some rid ->
  ner_calls rid evs = if non_blank doc then 1%nat else 0%nat.
Proof.
  induction 1 as [|processed d0 docs seg rest Hseg Hrest IH]; intros Hnd Hnin Hin Hr;
    [destruct Hin|].
  simpl in Hnd. apply List.NoDup_cons_iff in Hnd as [Hd0 Hnd].
  rewrite ner_calls_app. destruct Hin as [->|Hin].
  - rewrite (segments_other_calls _ _ _ _ rid Hrest).
    + destruct Hseg as [Hn|r Hr' Hin'|r stages entities relationships Hr' Hin' Hs Hc Hd];
        [congruence|congruence|].
      rewrite committed_calls. assert (r = rid) as -> by congruence. rewrite Hc. lia.
    + intros d Hd Heq. apply Hd0. rewrite Hr, <- Heq. now apply in_map.
  - assert (Hne : record_id d0 <> Some rid).
    { intros Heq. apply Hd0. rewrite Heq, <- Hr. now apply in_map. }
    rewrite (segment_other_calls _ _ _ _ rid Hseg Hne). simpl.
    apply IH; auto. unfold processed_after.
    destruct (record_id d0) as [r0|]; [|exact Hnin].
    rewrite elem_of_union, elem_of_singleton. intros [?| ->]; [contradiction|congruence].
Qed.

End Executor.

(** ** The random sample *)

Lemma distinct_nodup l : distinct l = true -> List.NoDup l.
Proof.
  induction l as [|x l IH]; simpl; [constructor|].
  intros [Hx Hl]%andb_true_iff. constructor; [|now apply IH].
  intros Hin. apply negb_true_iff in Hx.
  assert (existsb (Nat.eqb x) l = true); [|congruence].
  apply existsb_exists. exists x. split; [exact Hin|apply Nat.eqb_refl].
Qed.

Lemma random_sample_cons i pick documents :
  random_sample (i :: pick) documents =
  match documents !! i with
  | Some doc => doc :: random_sample pick documents
  | None => random_sample pick documents
  end.
Proof. reflexivity. Qed.

Lemma in_random_sample doc pick (documents : list Document) :
  In doc (random_sample pick documents) ->
  exists i, In i pick /\ documents !! i = Some doc.
Proof.
  induction pick as [|j pick IH]; [intros []|]. rewrite random_sample_cons.
  destruct (documents !! j) as [d|] eqn:E.
  - intros [->|Hin]; [exists j; split; [now left|exact E]|].
    destruct (IH Hin) as [i [Hi Hd]]. exists i. split; [now right|exact Hd].
  - intros Hin. destruct (IH Hin) as [i [Hi Hd]]. exists i. split; [now right|exact Hd].
Qed.

Lemma length_random_sample pick (documents : list Document) :
  (length (random_sample pick documents) <= length pick)%nat.
Proof.
  induction pick as [|j pick IH]; [reflexivity|]. rewrite random_sample_cons.
  destruct (documents !! j); simpl; lia.
Qed.

Lemma valid_pick_length n pick (documents : list Document) :
  valid_pick n pick = true -> (length (random_sample pick documents) <= 3)%nat.
Proof.
  unfold valid_pick. intros [[Hl _]%andb_true_iff _]%andb_true_iff.
  apply Nat.eqb_eq in Hl. pose proof (length_random_sample pick documents). lia.
Qed.

(** Distinct positions of documents with distinct ids give a sample with
    distinct ids. *)
Lemma random_sample_nodup pick (documents : list Document) :
  List.NoDup pick -> List.NoDup (map record_id documents) ->
  List.NoDup (map record_id (random_sample pick documents)).
Proof.
  intros Hp Hd. induction pick as [|i pick IH]; [constructor|].
  apply List.NoDup_cons_iff in Hp as [Hi Hp]. rewrite random_sample_cons.
  destruct (documents !! i) as [doc|] eqn:E; [|now apply IH].
  simpl. constructor; [|now apply IH].
  intros Hin. apply in_map_iff in Hin as [doc' [Heq Hin]].
  apply in_random_sample in Hin as [j [Hj Ej]].
  apply NoDup_ListNoDup in Hd.
  assert (i = j) as ->; [|contradiction].
  apply (NoDup_lookup _ i j (record_id doc) Hd).
  - now rewrite list_lookup_fmap, E.
  - now rewrite list_lookup_fmap, Ej, <- Heq.
Qed.

Lemma valid_pick_nodup n pick : valid_pick n pick = true -> List.NoDup pick.
Proof.
  unfold valid_pick. intros [_ H]%andb_true_iff. now apply distinct_nodup.
Qed.

Lemma existsb_filter_pos_events {A} (f : A -> bool) (l : list A) :
  (exists x, In x l /\ f x = true) -> (1 <= length (List.filter f l))%nat.
Proof.
  intros [x [Hin Hx]]. assert (Hf : In x (List.filter f l)) by (apply filter_In; auto).
  destruct (List.filter f l); [destruct Hf|simpl; lia].
Qed.

Lemma filter_none {A} (f : A -> bool) (l : list A) :
  (forall x, In x l -> f x = false) -> List.filter f l = [].
Proof.
  induction l as [|x l IH]; intros H; simpl; [reflexivity|].
  rewrite (H x) by now left. apply IH. intros y Hy. apply H. now right.
Qed.

(** Among documents with distinct ids, only [doc] is a document of id [rid]. *)
Lemma filter_calls_nodup rid doc docs :
  List.NoDup (map record_id docs) -> In doc docs -> record_id doc = Some rid ->
  length (List.filter (calls_for rid) docs) = if non_blank doc then 1%nat else 0%nat.
Proof.
  induction docs as [|d docs IH]; intros Hnd Hin Hr; [destruct Hin|].
  simpl in Hnd. apply List.NoDup_cons_iff in Hnd as [Hd Hnd]. cbn [List.filter].
  destruct Hin as [->|Hin].
  - assert (Hrest : List.filter (calls_for rid) docs = []).
    { apply filter_none. intros d' Hd'. unfold calls_for.
      case_bool_decide as Heq; [|apply andb_false_r].
      exfalso. apply Hd. rewrite Hr, <- Heq. now apply in_map. }
    unfold calls_for at 1. rewrite bool_decide_eq_true_2 by exact Hr.
    rewrite andb_true_r, Hrest. now destruct (non_blank doc).
  - assert (Hne : calls_for rid d = false).
    { unfold calls_for. case_bool_decide as Heq; [|apply andb_false_r].
      exfalso. apply Hd. rewrite Heq, <- Hr. now apply in_map. }
    rewrite Hne. now apply IH.
Qed.

(** The number of documents of [docs] that the loop commits, starting from
    the checkpoint set [processed]. *)
Fixpoint committed_count (processed : gset Z) (docs : list Document) : nat :=
  match docs with
  | [] => 0
  | doc :: rest =>
      (match record_id doc with
       | Some rid => if bool_decide (rid ∈ processed) then 0 else 1
       | None => 0
       end + committed_count (processed_after processed doc) rest)%nat
  end.

Lemma checkpoint_saves_app evs evs' :
  checkpoint_saves (evs ++ evs') = (checkpoint_saves evs + checkpoint_saves evs')%nat.
Proof. unfold checkpoint_saves. now rewrite List.filter_app, length_app. Qed.

Lemma stage_no_saves evs : forallb is_stage evs = true -> checkpoint_saves evs = 0%nat.
Proof.
  unfold checkpoint_saves. induction evs as [|ev evs IH]; simpl; [reflexivity|].
  intros [Hev Hevs]%andb_true_iff. destruct ev; try discriminate Hev; simpl; auto.
Qed.

Lemma persist_no_saves evs : forallb is_persist evs = true -> checkpoint_saves evs = 0%nat.
Proof.
  unfold checkpoint_saves. induction evs as [|ev evs IH]; simpl; [reflexivity|].
  intros [Hev Hevs]%andb_true_iff. destruct ev; try discriminate Hev; simpl; auto.
Qed.

(** One checkpoint write per committed document. *)
Lemma segments_saves dry_run processed docs evs :
  segments dry_run processed docs evs ->
  checkpoint_saves evs = committed_count processed docs.
Proof.
  induction 1 as [|processed doc docs seg rest Hseg Hrest IH]; [reflexivity|].
  rewrite checkpoint_saves_app, IH. cbn [committed_count]. f_equal.
  destruct Hseg as [Hn|r Hr Hin|r stages entities relationships Hr Hin Hs Hc Hd].
  - now rewrite Hn.
  - rewrite Hr. now rewrite bool_decide_eq_true_2.
  - rewrite Hr, bool_decide_eq_false_2 by exact Hin.
    rewrite !checkpoint_saves_app, (stage_no_saves _ Hs),
      (persist_no_saves _ (persists_of_persist _ _ _)).
    reflexivity.
Qed.

(** The checkpointed loop never calls the stage for an id that is already
    in its set. *)
Lemma segments_processed_calls dry_run processed docs evs rid :
  segments dry_run processed docs evs -> rid ∈ processed -> ner_calls rid evs = 0%nat.
Proof.
  induction 1 as [|processed doc docs seg rest Hseg Hrest IH]; intros Hin; [reflexivity|].
  rewrite ner_calls_app, IH.
  - destruct (decide (record_id doc = Some rid)) as [Heq|Hne].
    + destruct Hseg as [Hn|r Hr' Hin'|r stages entities relationships Hr' Hin' Hs Hc Hd];
        try reflexivity.
      exfalso. apply Hin'. congruence.
    + now rewrite (segment_other_calls _ _ _ _ rid Hseg Hne).
  - unfold processed_after. destruct (record_id doc); [|exact Hin].
    apply elem_of_union. now left.
Qed.

(** ** The claims about the executor *)

Section Claims.
Variable perform_hybrid_ner : string -> result (list ThreatEntity).
Variable llm_relations : string -> list ThreatEntity -> result (list ThreatRelationship).

Let process := process_document perform_hybrid_ner llm_relations.
Let body := loop_body perform_hybrid_ner llm_relations.
Let run := run_documents perform_hybrid_ner llm_relations.

(** *** Persistence, then the checkpoint *)

(** The persistor after one upsert per entity, in order, and then one per
    relationship, each attempted whatever became of those before it. *)
Definition saved_all (entities : list ThreatEntity)
    (relationships : list ThreatRelationship) (d : Neo4jPersistor.db) : Neo4jPersistor.db :=
  fold_left (fun d' relation => snd (Neo4jPersistor.save_relationship relation d'))
            relationships
            (fold_left (fun d' entity => snd (Neo4jPersistor.save_entity entity d'))
                       entities d).

(** The upsert calls of one document, in order. *)
Definition upserts (entities : list ThreatEntity)
    (relationships : list ThreatRelationship) : list event :=
  map EvSaveEntity entities ++ map EvSaveRelationship relationships.

(** The document is passed over: it has no id, or its id is in the set. *)
Definition passed_over (st : gset Z * world) (doc : Document) (st' : gset Z * world)
    : Prop :=
  st' = st /\
  (record_id doc = None \/ exists rid, record_id doc = Some rid /\ rid ∈ fst st).

(** The document is committed: what [process_document] returns for it is
    upserted (nothing is in a dry run), the trace shows its stage calls
    and nothing else, then these upserts, then the one checkpoint write;
    and the checkpoint file
    holds, and loads back to, the set with its id added. *)
Definition committed (dry_run : bool) (st : gset Z * world) (doc : Document)
    (st' : gset Z * world) : Prop :=
  exists rid entities relationships m env stages,
    record_id doc = Some rid /\ (rid ∉ fst st) /\
    process doc (w_metrics (snd st)) (w_mitre (snd st))
      = ((entities, relationships), (m, env), stages) /\
    forallb is_stage stages = true /\
    fst st' = fst st ∪ {[rid]} /\
    w_metrics (snd st') = m /\ w_mitre (snd st') = env /\
    w_db (snd st') = (if dry_run then w_db (snd st)
                      else saved_all entities relationships (w_db (snd st))) /\
    trace (snd st') =
      trace (snd st) ++ stages
        ++ (if dry_run then [] else upserts entities relationships)
        ++ [EvCheckpoint (elements (fst st'))] /\
    checkpoint_file (snd st') = Some (save_checkpoint (fst st')) /\
    load_checkpoint (checkpoint_file (snd st')) = Ok (fst st').

(** The documents are gone through one after the other. *)
Fixpoint one_by_one (dry_run : bool) (st : gset Z * world) (docs : list Document)
    (st' : gset Z * world) : Prop :=
  match docs with
  | [] => st' = st
  | doc :: rest =>
      exists mid, (passed_over st doc mid \/ committed dry_run st doc mid) /\
                  one_by_one dry_run mid rest st'
  end.

Lemma save_entities_fold entities :
  forall d, fst (save_entities entities d) =
            fold_left (fun d' entity => snd (Neo4jPersistor.save_entity entity d')) entities d.
Proof.
  induction entities as [|entity entities IH]; intros d; [reflexivity|].
  cbn [save_entities fold_left]. rewrite <- IH.
  now destruct (save_entities entities (snd (Neo4jPersistor.save_entity entity d))).
Qed.

Lemma save_relationships_fold relationships :
  forall d, fst (save_relationships relationships d) =
            fold_left (fun d' relation => snd (Neo4jPersistor.save_relationship relation d'))
                      relationships d.
Proof.
  induction relationships as [|relation relationships IH]; intros d; [reflexivity|].
  cbn [save_relationships fold_left]. rewrite <- IH.
  now destruct (save_relationships relationships
                  (snd (Neo4jPersistor.save_relationship relation d))).
Qed.

Lemma ingest_saved_all entities relationships d :
  ingest_to_neo4j entities relationships d false =
  (saved_all entities relationships d, upserts entities relationships).
Proof.
  unfold ingest_to_neo4j, saved_all, upserts.
  pose proof (save_entities_fold entities d) as F1.
  pose proof (save_entities_events entities d) as E1.
  destruct (save_entities entities d) as [d1 evs1]. cbn [fst snd] in F1, E1.
  pose proof (save_relationships_fold relationships d1) as F2.
  pose proof (save_relationships_events relationships d1) as E2.
  destruct (save_relationships relationships d1) as [d2 evs2]. cbn [fst snd] in F2, E2.
  now subst.
Qed.

Lemma body_step dry_run st doc :
  passed_over st doc (body dry_run st doc) \/ committed dry_run st doc (body dry_run st doc).
Proof.
  destruct st as [processed w]. unfold body, loop_body.
  destruct (record_id doc) as [rid|] eqn:Hr; [|left; split; auto].
  case_bool_decide as Hin; [left; split; eauto|]. right.
  destruct (process_document perform_hybrid_ner llm_relations doc (w_metrics w) (w_mitre w))
    as [[[entities relationships] [m env]] stages] eqn:Ep.
  pose proof (process_document_events perform_hybrid_ner llm_relations doc
                (w_metrics w) (w_mitre w)) as [Hs _].
  rewrite Ep in Hs. cbn [snd] in Hs.
  exists rid, entities, relationships, m, env, stages.
  split; [exact Hr|]. split; [exact Hin|]. split; [exact Ep|]. split; [exact Hs|].
  destruct dry_run.
  - cbn. repeat (split; [reflexivity|]). apply load_save_checkpoint.
  - rewrite ingest_saved_all. cbn. repeat (split; [reflexivity|]).
    apply load_save_checkpoint.
Qed.

Lemma main_loop_one_by_one dry_run docs :
  forall st, one_by_one dry_run st docs
               (main_loop perform_hybrid_ner llm_relations dry_run docs st).
Proof.
  unfold main_loop. induction docs as [|doc docs IH]; intros st; cbn [fold_left one_by_one];
    [reflexivity|].
  exists (body dry_run st doc). split; [apply body_step|apply IH].
Qed.

Lemma one_by_one_checkpoint dry_run docs :
  forall st st',
    one_by_one dry_run st docs st' ->
    load_checkpoint (checkpoint_file (snd st)) = Ok (fst st) ->
    load_checkpoint (checkpoint_file (snd st')) = Ok (fst st').
Proof.
  induction docs as [|doc docs IH]; intros st st' H Hl; cbn [one_by_one] in H.
  - now subst.
  - destruct H as [mid [[[-> _]|Hc] Hrest]]; [now apply (IH st)|].
    apply (IH mid); [exact Hrest|].
    destruct Hc as (rid & es & rs & m & env & stages & H). intuition.
Qed.

Lemma connect_keeps_store now d r d' :
  Neo4jPersistor.connect now d = (r, d') ->
  Neo4jPersistor.store d' = Neo4jPersistor.store d.
Proof.
  unfold Neo4jPersistor.connect, Neo4jPersistor._ensure_indexes, Neo4jPersistor.session_run.
  cbn [Neo4jPersistor.coming Neo4jPersistor.store Neo4jPersistor.run_id
       Neo4jPersistor.attempts].
  destruct (Neo4jPersistor.coming d) as [|o1 [|o2 rest]];
    try destruct o1; try destruct o2; cbn; now intros [= _ <-].
Qed.

(** C5, as amended.  In every run that gets past startup, the timing pass
    makes no upsert and writes no checkpoint, and then the sampled
    documents are gone through one by one.  A document that is committed
    has, in this order, its stages called, then what they returned
    upserted, one call per entity and then one per relationship, and then
    its id added to the checkpoint set and the set written to the
    checkpoint file, which loads back to it, all before anything is done
    for the next document.  In a dry run the same holds without the
    upserts: the document is committed and nothing is persisted. *)
Theorem persist_before_checkpoint (dry_run : bool) (now : string) (pick : list nat)
    (documents : list Document) (w w' : world) :
  run dry_run now pick documents w = (Ok tt, w') ->
  random_sample pick documents <> [] ->
  exists processed w1 processed',
    load_checkpoint (checkpoint_file w) = Ok processed /\
    checkpoint_file w1 = checkpoint_file w /\
    Neo4jPersistor.store (w_db w1) = Neo4jPersistor.store (w_db w) /\
    (exists timed, trace w1 = trace w ++ timed /\ forallb is_stage timed = true) /\
    one_by_one dry_run (processed, w1) (random_sample pick documents) (processed', w') /\
    load_checkpoint (checkpoint_file w') = Ok processed'.
Proof.
  intros H Hne. apply run_ok in H as (processed & d & Hl & Hc & Hw); [|exact Hne].
  set (sample := random_sample pick documents) in *.
  set (w1 := estimate perform_hybrid_ner llm_relations
               (firstn (Nat.min 3 (length sample)) sample) (with_db w d)) in *.
  destruct (estimate_trace perform_hybrid_ner llm_relations
              (firstn (Nat.min 3 (length sample)) sample) (with_db w d))
    as [timed (Ht & Hs & _ & Hf & Hd)].
  fold w1 in Ht, Hf, Hd.
  pose proof (main_loop_one_by_one dry_run sample (processed, w1)) as Hchain.
  destruct (main_loop perform_hybrid_ner llm_relations dry_run sample (processed, w1))
    as [processed' w2] eqn:El.
  cbn [snd] in Hw. subst w2.
  exists processed, w1, processed'. split; [exact Hl|]. split; [exact Hf|]. split.
  - rewrite Hd. cbn [with_db w_db]. now apply (connect_keeps_store now (w_db w) (Ok tt)).
  - split; [exists timed; split; [exact Ht|exact Hs]|]. split; [exact Hchain|].
    apply (one_by_one_checkpoint dry_run sample (processed, w1) (processed', w') Hchain).
    cbn [fst snd]. now rewrite Hf.
Qed.

(** C10, as amended.  A document with a record id that is not yet in the
    checkpoint set leaves its iteration of the checkpointed loop with its
    id added to the set and the set written to the checkpoint file, as the
    last event of the iteration, whatever its text and whatever the stages
    did; and the checkpointed loop of any later run, whose set contains
    the id, skips the document without touching anything. *)
Theorem failed_documents_are_checkpointed (dry_run : bool) (processed : gset Z)
    (w : world) (doc : Document) (rid : Z) :
  record_id doc = Some rid -> rid ∉ processed ->
  let st := body dry_run (processed, w) doc in
  fst st = processed ∪ {[rid]} /\
  checkpoint_file (snd st) = Some (save_checkpoint (fst st)) /\
  load_checkpoint (checkpoint_file (snd st)) = Ok (fst st) /\
  (exists evs, trace (snd st) = trace w ++ evs ++ [EvCheckpoint (elements (fst st))]) /\
  forall dry_run' later w2,
    rid ∈ later -> body dry_run' (later, w2) doc = (later, w2).
Proof.
  intros Hr Hnin st.
  destruct (loop_body_segment perform_hybrid_ner llm_relations dry_run processed w doc)
    as [seg (Hseg & Hp & Ht & Hf & _)].
  fold body in Hp, Ht, Hf. fold st in Hp, Ht, Hf.
  unfold processed_after in Hp, Hf. rewrite Hr in Hp, Hf.
  destruct Hseg as [Hn|r Hr' Hin|r stages entities relationships Hr' Hin Hs Hc Hd];
    [congruence|congruence|].
  assert (r = rid) as -> by congruence.
  rewrite Hp. split; [reflexivity|].
  assert (Hfile : checkpoint_file (snd st) = Some (save_checkpoint (processed ∪ {[rid]}))).
  { apply Hf. destruct stages; [|discriminate].
    destruct (persists_of dry_run entities relationships); discriminate. }
  split; [exact Hfile|]. split; [rewrite Hfile; apply load_save_checkpoint|].
  split.
  - exists (stages ++ persists_of dry_run entities relationships).
    rewrite Ht. now rewrite <- !app_assoc.
  - intros dry_run' later w2 Hin'. now apply loop_body_skip with (rid := rid).
Qed.

(** C1: what the code does instead.  In a run that starts up on documents
    with distinct record ids, a sampled non-blank document whose id is in
    the checkpoint that the run has loaded is skipped by the checkpointed
    loop, but the entity-extraction stage is still called for it once, by
    the timing pass. *)
Theorem checkpointed_document_still_extracted (dry_run : bool) (now : string)
    (pick : list nat) (documents : list Document) (w w' : world)
    (processed : gset Z) (doc : Document) (rid : Z) :
  run dry_run now pick documents w = (Ok tt, w') ->
  valid_pick (length documents) pick = true ->
  List.NoDup (map record_id documents) ->
  load_checkpoint (checkpoint_file w) = Ok processed ->
  rid ∈ processed ->
  In doc (random_sample pick documents) ->
  record_id doc = Some rid ->
  non_blank doc = true ->
  exists timed evs,
    trace w' = trace w ++ timed ++ evs /\
    ner_calls rid timed = 1%nat /\
    segments dry_run processed (random_sample pick documents) evs /\
    ner_calls rid evs = 0%nat.
Proof.
  intros H Hv Hnd Hl Hin' Hin Hr Hnb.
  pose proof (random_sample_nodup pick documents (valid_pick_nodup _ _ Hv) Hnd) as Hsn.
  pose proof (valid_pick_length _ _ documents Hv) as Hlen.
  apply run_trace in H as (processed' & timed & evs & Hp & Ht & _ & Hn & Hsegs).
  destruct Hp as [Hp|Hp]; [rewrite Hp in Hin; destruct Hin|].
  assert (processed' = processed) as -> by congruence.
  exists timed, evs. split; [exact Ht|]. split; [|split; [exact Hsegs|]].
  - rewrite Hn, firstn_all2 by exact Hlen.
    now rewrite (filter_calls_nodup rid doc _ Hsn Hin Hr), Hnb.
  - now apply (segments_processed_calls _ _ _ _ rid Hsegs).
Qed.

(** C2: what the code does instead.  In a run that starts up on documents
    with distinct record ids, every sampled document that is non-blank and
    not in the loaded checkpoint has the entity-extraction stage called
    twice: once by the timing pass and once by the checkpointed loop. *)
Theorem stage_chain_runs_twice (dry_run : bool) (now : string) (pick : list nat)
    (documents : list Document) (w w' : world) (processed : gset Z)
    (doc : Document) (rid : Z) :
  run dry_run now pick documents w = (Ok tt, w') ->
  valid_pick (length documents) pick = true ->
  List.NoDup (map record_id documents) ->
  load_checkpoint (checkpoint_file w) = Ok processed ->
  rid ∉ processed ->
  In doc (random_sample pick documents) ->
  record_id doc = Some rid ->
  non_blank doc = true ->
  exists evs, trace w' = trace w ++ evs /\ ner_calls rid evs = 2%nat.
Proof.
  intros H Hv Hnd Hl Hnin Hin Hr Hnb.
  pose proof (random_sample_nodup pick documents (valid_pick_nodup _ _ Hv) Hnd) as Hsn.
  pose proof (valid_pick_length _ _ documents Hv) as Hlen.
  apply run_trace in H as (processed' & timed & evs & Hp & Ht & _ & Hn & Hsegs).
  destruct Hp as [Hp|Hp]; [rewrite Hp in Hin; destruct Hin|].
  assert (processed' = processed) as -> by congruence.
  exists (timed ++ evs). split; [exact Ht|].
  rewrite ner_calls_app, Hn, firstn_all2 by exact Hlen.
  rewrite (segments_calls _ _ _ _ doc rid Hsegs Hsn Hnin Hin Hr), Hnb.
  rewrite (filter_calls_nodup rid doc _ Hsn Hin Hr), Hnb. reflexivity.
Qed.

(** C3: what the code does instead.  Without reference data the enrichment
    stage raises, for every entity list, and the document being processed
    fails with it: the extracted entities are dropped, the document is
    counted as malformed and the relationship stage is not reached. *)
Theorem enrichment_failure_fails_document (doc : Document) (m : metrics)
    (entities : list ThreatEntity) :
  non_blank doc = true ->
  perform_hybrid_ner (text doc) = Ok entities ->
  MitreStix.enrich_entities_with_mitre_stix entities MitreFacts.no_reference_data =
    (Raise FileNotFoundError, MitreFacts.no_reference_data) /\
  process doc m MitreFacts.no_reference_data =
    (([], []),
     (add_malformed (add_entities (length entities) m), MitreFacts.no_reference_data),
     [EvNER (record_id doc); EvEnrich (record_id doc)]).
Proof.
  intros Hnb Hner. split; [reflexivity|].
  unfold process, process_document. unfold non_blank in Hnb. rewrite Hnb, Hner.
  reflexivity.
Qed.

End Claims.

(** ** A run over five documents and its restart *)

Definition ner_mimikatz (text : string) : result (list ThreatEntity) :=
  Ok [Neo4jFacts.sample_entity].

Definition ner_failing (text : string) : result (list ThreatEntity) := Raise StageError.

Definition llm_nothing (text : string) (entities : list ThreatEntity)
    : result (list ThreatRelationship) := Ok [].

Definition doc_n (rid : Z) (text : string) : Document :=
  mkDocument (Some rid) None None None None text.

Definition five_documents : list Document :=
  [doc_n 1 "first report"; doc_n 2 "second report"; doc_n 3 "third report";
   doc_n 4 "fourth report"; doc_n 5 "fifth report"].

Definition reference_data : MitreStix.mitre_env :=
  MitreStix.mkMitreEnv None (Some (MitreStix.MitreObjects [])).

Definition start_world : world :=
  mkWorld (mkMetrics 0 0 0 0) reference_data Neo4jFacts.fresh_db None [].

(** A new process: it finds the store, the checkpoint file and the local
    MITRE file as the previous process left them, and nothing else. *)
Definition restart (w : world) : world :=
  mkWorld (mkMetrics 0 0 0 0)
          (MitreStix.mkMitreEnv None (MitreStix.local_cache (w_mitre w)))
          (w_db w) (checkpoint_file w) [].

(** The first process commits the documents 1, 2 and 3. *)
Definition first_run : world :=
  snd (run_documents ner_mimikatz llm_nothing false "run-1" [0; 1; 2]%nat
                     five_documents start_world).

Definition second_run (pick : list nat) : result unit * world :=
  run_documents ner_mimikatz llm_nothing false "run-2" pick five_documents
                (restart first_run).

Example first_run_checkpoint :
  load_checkpoint (checkpoint_file first_run) = Ok ids_123.
Proof. vm_compute. reflexivity. Qed.

Example first_run_calls :
  map (fun rid => ner_calls rid (trace first_run)) [1; 2; 3; 4; 5] = [2; 2; 2; 0; 0]%nat.
Proof. vm_compute. reflexivity. Qed.

Lemma five_documents_nodup : List.NoDup (map record_id five_documents).
Proof.
  simpl. repeat (constructor; [simpl; intuition discriminate|]). constructor.
Qed.

Lemma elem_of_ids_123 : 1 ∈ ids_123.
Proof. apply (bool_decide_unpack _). vm_compute. exact I. Qed.

Lemma checkpointed_document_still_extracted_witness :
  exists timed evs,
    trace (snd (second_run [0; 3; 4]%nat)) = trace (restart first_run) ++ timed ++ evs /\
    ner_calls 1 timed = 1%nat /\
    segments false ids_123 (random_sample [0; 3; 4]%nat five_documents) evs /\
    ner_calls 1 evs = 0%nat.
Proof.
  apply (checkpointed_document_still_extracted ner_mimikatz llm_nothing false "run-2"
           [0; 3; 4]%nat five_documents (restart first_run)
           (snd (second_run [0; 3; 4]%nat)) ids_123 (doc_n 1 "first report") 1).
  - vm_compute. reflexivity.
  - reflexivity.
  - exact five_documents_nodup.
  - vm_compute. reflexivity.
  - exact elem_of_ids_123.
  - left. reflexivity.
  - reflexivity.
  - reflexivity.
Defined.

(** Whatever the restart samples from the five documents, it calls the
    entity-extraction stage for a document that is in the checkpoint. *)
Definition restart_extracts_checkpointed (pick : list nat) : bool :=
  existsb (fun rid => Nat.ltb 0 (ner_calls rid (trace (snd (second_run pick))))) [1; 2; 3].

Example every_restart_extracts_checkpointed pick :
  valid_pick 5 pick = true -> restart_extracts_checkpointed pick = true.
Proof.
  intros H. destruct pick as [|a [|b [|c [|x pick]]]]; try discriminate H.
  destruct a as [|[|[|[|[|a]]]]]; destruct b as [|[|[|[|[|b]]]]];
    destruct c as [|[|[|[|[|c]]]]];
    try (vm_compute in H; discriminate H); vm_compute; reflexivity.
Qed.

(** A restart that draws the three committed documents again commits
    nothing, and leaves the documents 4 and 5 unprocessed. *)
Example restart_same_sample :
  load_checkpoint (checkpoint_file (snd (second_run [0; 1; 2]%nat))) = Ok ids_123 /\
  map (fun rid => ner_calls rid (trace (snd (second_run [0; 1; 2]%nat)))) [1; 2; 3; 4; 5]
  = [1; 1; 1; 0; 0]%nat.
Proof. vm_compute. split; reflexivity. Qed.

Lemma stage_chain_runs_twice_witness :
  exists evs, trace first_run = trace start_world ++ evs /\ ner_calls 1 evs = 2%nat.
Proof.
  apply (stage_chain_runs_twice ner_mimikatz llm_nothing false "run-1" [0; 1; 2]%nat
           five_documents start_world first_run ∅ (doc_n 1 "first report") 1).
  - vm_compute. reflexivity.
  - reflexivity.
  - exact five_documents_nodup.
  - reflexivity.
  - apply not_elem_of_empty.
  - left. reflexivity.
  - reflexivity.
  - reflexivity.
Defined.

Lemma persist_before_checkpoint_witness :
  exists processed w1 processed',
    load_checkpoint (checkpoint_file start_world) = Ok processed /\
    checkpoint_file w1 = checkpoint_file start_world /\
    Neo4jPersistor.store (w_db w1) = Neo4jPersistor.store (w_db start_world) /\
    (exists timed, trace w1 = trace start_world ++ timed /\ forallb is_stage timed = true) /\
    one_by_one ner_mimikatz llm_nothing false (processed, w1)
               (random_sample [0; 1; 2]%nat five_documents) (processed', first_run) /\
    load_checkpoint (checkpoint_file first_run) = Ok processed'.
Proof.
  apply (persist_before_checkpoint ner_mimikatz llm_nothing false "run-1" [0; 1; 2]%nat
           five_documents start_world first_run).
  - vm_compute. reflexivity.
  - vm_compute. discriminate.
Defined.

(** The dry run of the five documents. *)
Definition dry_run_of_five : world :=
  snd (run_documents ner_mimikatz llm_nothing true "run-1" [0; 1; 2]%nat
                     five_documents start_world).

(** C5, as stated, fails in a dry run: documents 1, 2 and 3 are committed,
    the stages having returned an entity for each, and not one upsert has
    been attempted, before the checkpoint write or after it. *)
Lemma persist_before_checkpoint_counterexample :
  load_checkpoint (checkpoint_file dry_run_of_five) = Ok ids_123 /\
  In (EvCheckpoint (elements ({[1]} : gset Z))) (trace dry_run_of_five) /\
  fst (fst (process_document ner_mimikatz llm_nothing (doc_n 1 "first report")
              (mkMetrics 0 0 0 0) reference_data)) = ([Neo4jFacts.sample_entity], []) /\
  forallb (fun ev => negb (is_persist ev)) (trace dry_run_of_five) = true /\
  Neo4jPersistor.store (w_db dry_run_of_five) = Neo4jPersistor.empty_graph.
Proof.
  split; [vm_compute; reflexivity|]. split.
  - vm_compute. do 12 right. left. reflexivity.
  - split; [reflexivity|]. split; vm_compute; reflexivity.
Qed.

(** The trace of the first run: the timing pass, then for each document its
    stage calls, its entity, and the checkpoint write. *)
Example first_run_loop_trace :
  skipn 9 (trace first_run) =
  [EvNER (Some 1); EvEnrich (Some 1); EvRelations (Some 1);
   EvSaveEntity Neo4jFacts.sample_entity; EvCheckpoint (elements ({[1]} : gset Z));
   EvNER (Some 2); EvEnrich (Some 2); EvRelations (Some 2);
   EvSaveEntity Neo4jFacts.sample_entity; EvCheckpoint (elements ({[1; 2]} : gset Z));
   EvNER (Some 3); EvEnrich (Some 3); EvRelations (Some 3);
   EvSaveEntity Neo4jFacts.sample_entity; EvCheckpoint (elements ids_123)].
Proof. vm_compute. reflexivity. Qed.

Lemma enrichment_failure_fails_document_witness :
  MitreStix.enrich_entities_with_mitre_stix [Neo4jFacts.sample_entity]
      MitreFacts.no_reference_data =
    (Raise FileNotFoundError, MitreFacts.no_reference_data) /\
  process_document ner_mimikatz llm_nothing (doc_n 1 "first report") (mkMetrics 0 0 0 0)
      MitreFacts.no_reference_data =
    (([], []), (mkMetrics 0 1 0 1, MitreFacts.no_reference_data),
     [EvNER (Some 1); EvEnrich (Some 1)]).
Proof.
  apply (enrichment_failure_fails_document ner_mimikatz llm_nothing
           (doc_n 1 "first report") (mkMetrics 0 0 0 0) [Neo4jFacts.sample_entity]).
  - reflexivity.
  - reflexivity.
Defined.

(** With the reference data at hand the same document goes through. *)
Example enrichment_with_reference_data :
  fst (fst (process_document ner_mimikatz llm_nothing (doc_n 1 "first report")
              (mkMetrics 0 0 0 0) reference_data)) = ([Neo4jFacts.sample_entity], []).
Proof. reflexivity. Qed.

Lemma failed_documents_are_checkpointed_witness :
  let st := loop_body ner_failing llm_nothing false (∅, start_world) (doc_n 1 "first report") in
  fst st = ∅ ∪ {[1]} /\
  checkpoint_file (snd st) = Some (save_checkpoint (fst st)) /\
  load_checkpoint (checkpoint_file (snd st)) = Ok (fst st) /\
  (exists evs, trace (snd st) = trace start_world ++ evs ++ [EvCheckpoint (elements (fst st))]) /\
  forall dry_run' later w2,
    1 ∈ later ->
    loop_body ner_failing llm_nothing dry_run' (later, w2) (doc_n 1 "first report") = (later, w2).
Proof.
  apply (failed_documents_are_checkpointed ner_failing llm_nothing false ∅ start_world
           (doc_n 1 "first report") 1).
  - reflexivity.
  - apply not_elem_of_empty.
Defined.

(** A document with an empty text is checkpointed as well. *)
Example empty_document_checkpointed :
  let st := loop_body ner_mimikatz llm_nothing false (∅, start_world) (doc_n 1 "   ") in
  checkpoint_file (snd st) = Some "[1]" /\ trace (snd st) = [EvCheckpoint [1]] /\
  empty_texts (w_metrics (snd st)) = 1%nat.
Proof. vm_compute. repeat split. Qed.

(** The run in which the stage fails for document 1, and its restart. *)
Definition failed_run : world :=
  snd (run_documents ner_failing llm_nothing false "run-1" [0]%nat
                     [doc_n 1 "first report"] start_world).

Definition after_failed_run : world :=
  snd (run_documents ner_failing llm_nothing false "run-2" [0]%nat
                     [doc_n 1 "first report"] (restart failed_run)).

(** C10, as stated, fails in its last part: the document whose stage failed
    is in the checkpoint, yet the next run processes it again, in its
    timing pass: the stage is called for it and fails again. *)
Lemma failed_documents_counterexample :
  checkpoint_file failed_run = Some "[1]" /\
  trace after_failed_run = [EvNER (Some 1)] /\
  malformed_docs (w_metrics after_failed_run) = 1%nat.
Proof. vm_compute. repeat split. Qed.

End ManagerFacts.

(** * Further facts about the reconstruction *)

Module IngestionMore.
Import Ingestion IngestionFacts.

(** The retained chunks, as [(record id, chunk index, text)], in read order. *)
Definition retained (chunks : list Chunk) : list (Z * Z * string) :=
  omap check_chunk chunks.

Definition is_retained (c : Chunk) : bool :=
  match check_chunk c with Some _ => true | None => false end.

(** The number of [(chunk_idx, text)] pairs held by the map. *)
Fixpoint stored (m : list (Z * rec_entry)) : nat :=
  match m with
  | [] => 0
  | kv :: m' => (length (text_chunks (snd kv)) + stored m')%nat
  end.

Lemma stored_update_entry r i t c m :
  stored (update_entry r (add_chunk r i t c) m) = S (stored m).
Proof.
  induction m as [|[k e] m IH]; cbn [update_entry].
  - cbn [stored snd]. rewrite text_chunks_add_chunk. simpl. lia.
  - destruct (Z.eqb r k); cbn [stored snd].
    + rewrite text_chunks_add_chunk, length_app. simpl. lia.
    + rewrite IH. lia.
Qed.

Lemma scan_counters_from l :
  forall st,
    let st' := fold_left scan_chunk l st in
    total_chunks st' = (total_chunks st + length l)%nat /\
    valid_chunks st' = (valid_chunks st + length (retained l))%nat /\
    skipped_chunks st' = (skipped_chunks st + (length l - length (retained l)))%nat /\
    stored (records_map st') = (stored (records_map st) + length (retained l))%nat /\
    (length (retained l) <= length l)%nat.
Proof.
  induction l as [|c l IH]; intros st; simpl.
  - repeat split; lia.
  - destruct (IH (scan_chunk st c)) as (H1 & H2 & H3 & H4 & H5).
    unfold retained in *. cbn [omap list_omap]. unfold scan_chunk in *.
    destruct (check_chunk c) as [[[r i] t]|]; simpl in *.
    + rewrite stored_update_entry in H4. repeat split; lia.
    + repeat split; lia.
Qed.

(** X1.  The counters that [load_and_reconstruct] reports: every chunk read
    is counted, as valid when it is retained and as skipped otherwise, and
    every valid chunk is held by exactly one record of the map. *)
Theorem scan_counters (chunks : list Chunk) :
  total_chunks (scan chunks) = length chunks /\
  valid_chunks (scan chunks) = length (retained chunks) /\
  (valid_chunks (scan chunks) + skipped_chunks (scan chunks))%nat = total_chunks (scan chunks) /\
  stored (records_map (scan chunks)) = valid_chunks (scan chunks).
Proof.
  destruct (scan_counters_from chunks scan_init) as (H1 & H2 & H3 & H4 & H5).
  unfold scan. simpl in *. repeat split; lia.
Qed.

Lemma nodup_map_some (l : list Z) : List.NoDup l -> List.NoDup (map Some l).
Proof.
  induction 1 as [|x l Hx _ IH]; simpl; constructor; [|exact IH].
  intros [y [[= ->] Hy]]%in_map_iff. contradiction.
Qed.

(** X2.  The output holds one document per record id that has a retained
    chunk: every document carries an id, no id occurs twice, and an id
    occurs exactly when one of its chunks is retained. *)
Theorem one_document_per_record (chunks : list Chunk) :
  List.NoDup (map record_id (load_and_reconstruct chunks)) /\
  (forall doc, In doc (load_and_reconstruct chunks) -> record_id doc <> None) /\
  (forall d, In (Some d) (map record_id (load_and_reconstruct chunks)) <->
             chunks_of d chunks <> []).
Proof.
  rewrite load_record_ids. split; [|split].
  - apply nodup_map_some. apply (inv_nodup _ _ (scan_inv_scan chunks)).
  - intros doc Hin. unfold load_and_reconstruct in Hin.
    apply in_map_iff in Hin as [kv [<- _]]. discriminate.
  - intros d. rewrite <- in_keys_iff. split.
    + intros [x [[= ->] Hx]]%in_map_iff. exact Hx.
    + intros H. now apply in_map.
Qed.

Lemma fold_rm_step_filter l :
  forall m, fold_left rm_step (List.filter is_retained l) m = fold_left rm_step l m.
Proof.
  induction l as [|c l IH]; intros m; simpl; [reflexivity|].
  unfold is_retained at 1. unfold rm_step at 3.
  destruct (check_chunk c) as [[[r i] t]|] eqn:E; simpl; [|apply IH].
  rewrite IH. unfold rm_step at 2. now rewrite E.
Qed.

(** X3.  Skipped chunks leave no trace in the output: reconstruction of an
    archive equals reconstruction of its retained chunks alone, and the
    skipped chunks alone reconstruct to no document. *)
Theorem skipped_chunks_ignored (chunks : list Chunk) :
  load_and_reconstruct chunks = load_and_reconstruct (List.filter is_retained chunks) /\
  load_and_reconstruct (List.filter (fun c => negb (is_retained c)) chunks) = [].
Proof.
  split.
  - unfold load_and_reconstruct, scan. rewrite !records_map_fold.
    now rewrite fold_rm_step_filter.
  - unfold load_and_reconstruct, scan. rewrite records_map_fold.
    rewrite <- fold_rm_step_filter.
    replace (List.filter is_retained (List.filter (fun c => negb (is_retained c)) chunks))
      with (@nil Chunk); [reflexivity|].
    induction chunks as [|c l IH]; [reflexivity|]. cbn [List.filter].
    destruct (is_retained c) eqn:E; cbn [negb List.filter]; [exact IH|].
    now rewrite E.
Qed.

(** ** Metadata and order *)

(** The first retained chunk of record [d]. *)
Definition first_chunk (d : Z) (chunks : list Chunk) : option Chunk :=
  List.find (fun c => match check_chunk c with
                      | Some (r, _, _) => Z.eqb r d
                      | None => false
                      end) chunks.

Definition chunk_meta (c : Chunk) :=
  (c_source c, c_type c, c_indicator c, c_date c).

Definition entry_meta (e : rec_entry) :=
  (e_source e, e_type e, e_indicator e, e_date e).

Definition doc_meta (doc : Document) :=
  (source doc, type doc, indicator doc, date doc).

Lemma first_chunk_none d l : chunks_of d l = [] -> first_chunk d l = None.
Proof.
  unfold chunks_of, first_chunk. induction l as [|c l IH]; [reflexivity|].
  cbn [omap list_omap List.find]. destruct (check_chunk c) as [[[r i] t]|]; [|exact IH].
  destruct (Z.eqb r d); [discriminate|exact IH].
Qed.

Lemma find_snoc {A} (f : A -> bool) l x :
  List.find f (l ++ [x]) =
  match List.find f l with Some y => Some y | None => if f x then Some x else None end.
Proof.
  induction l as [|y l IH]; simpl; [reflexivity|]. destruct (f y); [reflexivity|exact IH].
Qed.

(** Every record of the map has been given its id and the metadata of the
    first retained chunk of that id. *)
Definition meta_inv (m : list (Z * rec_entry)) (pre : list Chunk) : Prop :=
  forall k e, In (k, e) m ->
    e_record_id e = Some k /\
    exists c, first_chunk k pre = Some c /\ entry_meta e = chunk_meta c.

Lemma meta_inv_step m pre c :
  scan_inv m pre -> meta_inv m pre -> meta_inv (rm_step m c) (pre ++ [c]).
Proof.
  intros I H. unfold rm_step.
  destruct (check_chunk c) as [[[r i] t]|] eqn:Ec.
  - intros k e Hin. unfold first_chunk. rewrite find_snoc. fold (first_chunk k pre).
    apply in_update_entry in Hin; [|apply (inv_nodup _ _ I)].
    destruct Hin as [[Hk Hm]|[-> [[e0 [Hm ->]]|[Hn ->]]]].
    + destruct (H _ _ Hm) as [Hr [c0 [Hf Hme]]]. rewrite Hf. eauto.
    + destruct (H _ _ Hm) as [Hr [c0 [Hf Hme]]]. rewrite Hf.
      unfold add_chunk. rewrite Hr. simpl. eauto.
    + rewrite (first_chunk_none _ _ (inv_absent _ _ I _ Hn)), Ec, Z.eqb_refl.
      unfold add_chunk. simpl. eauto.
  - intros k e Hin. unfold first_chunk. rewrite find_snoc. fold (first_chunk k pre).
    destruct (H _ _ Hin) as [Hr [c0 [Hf Hme]]]. rewrite Hf. eauto.
Qed.

Lemma meta_inv_fold l :
  forall m pre, scan_inv m pre -> meta_inv m pre ->
                meta_inv (fold_left rm_step l m) (pre ++ l).
Proof.
  induction l as [|c l IH]; intros m pre I H; simpl.
  - now rewrite app_nil_r.
  - replace (pre ++ c :: l) with ((pre ++ [c]) ++ l) by now rewrite <- app_assoc.
    apply IH; [now apply scan_inv_step|now apply meta_inv_step].
Qed.

(** X4.  A document takes its source, type, indicator and date from the
    first retained chunk of its record id, whatever later chunks of the
    record say. *)
Theorem metadata_of_first_chunk (chunks : list Chunk) (doc : Document) (d : Z) :
  In doc (load_and_reconstruct chunks) -> record_id doc = Some d ->
  exists c, first_chunk d chunks = Some c /\ doc_meta doc = chunk_meta c.
Proof.
  intros Hin Hr. unfold load_and_reconstruct in Hin.
  apply in_map_iff in Hin as [[k e] [<- Hin]]. simpl in Hr. injection Hr as ->.
  assert (H : meta_inv (records_map (scan chunks)) chunks).
  { unfold scan. rewrite records_map_fold.
    apply (meta_inv_fold chunks [] []); [apply scan_inv_init|]. intros ? ? []. }
  destruct (H _ _ Hin) as [_ [c [Hf Hm]]]. exists c. split; [exact Hf|exact Hm].
Qed.

Definition later_disagrees : list Chunk :=
  [mkChunk (Some 4) (Some 1) (Some "second part of it") (Some "feed-a") None None None;
   mkChunk (Some 4) (Some 0) (Some "first part of it.") (Some "feed-b") None None None].

Lemma metadata_of_first_chunk_witness :
  exists c, first_chunk 4 later_disagrees = Some c /\
            doc_meta (mkDocument (Some 4) (Some "feed-a") None None None
                                 "first part of it. second part of it")
            = chunk_meta c.
Proof.
  apply (metadata_of_first_chunk later_disagrees
           (mkDocument (Some 4) (Some "feed-a") None None None
                       "first part of it. second part of it") 4).
  - left. reflexivity.
  - reflexivity.
Defined.

(** The ids of a list in the order of their first occurrence. *)
Definition add_new (seen : list Z) (x : Z) : list Z :=
  if existsb (Z.eqb x) seen then seen else seen ++ [x].

Definition first_seen (ids : list Z) : list Z := fold_left add_new ids [].

Definition retained_ids (chunks : list Chunk) : list Z :=
  map (fun x => fst (fst x)) (retained chunks).

Lemma existsb_eqb_in x l : existsb (Z.eqb x) l = true <-> In x l.
Proof.
  rewrite existsb_exists. split.
  - intros [y [Hy ->%Z.eqb_eq]]. exact Hy.
  - intros H. exists x. split; [exact H|apply Z.eqb_refl].
Qed.

Lemma keys_step m c :
  map fst (rm_step m c) = fold_left add_new (retained_ids [c]) (map fst m).
Proof.
  unfold rm_step, retained_ids, retained. cbn [omap list_omap].
  destruct (check_chunk c) as [[[r i] t]|]; [|reflexivity].
  cbn [map fold_left fst]. unfold add_new.
  destruct (update_entry_keys r (add_chunk r i t c) m) as [[Hin ->]|[Hn ->]].
  - apply existsb_eqb_in in Hin. now rewrite Hin.
  - destruct (existsb (Z.eqb r) (map fst m)) eqn:E; [|reflexivity].
    apply existsb_eqb_in in E. contradiction.
Qed.

Lemma retained_ids_cons c l : retained_ids (c :: l) = retained_ids [c] ++ retained_ids l.
Proof.
  unfold retained_ids, retained. cbn [omap list_omap].
  destruct (check_chunk c); reflexivity.
Qed.

Lemma keys_fold l :
  forall m, map fst (fold_left rm_step l m) = fold_left add_new (retained_ids l) (map fst m).
Proof.
  induction l as [|c l IH]; intros m; [reflexivity|].
  cbn [fold_left]. rewrite IH, keys_step, (retained_ids_cons c l).
  now rewrite List.fold_left_app.
Qed.

(** X5.  The documents come out in the order in which their record ids
    first occur among the retained chunks. *)
Theorem documents_in_first_seen_order (chunks : list Chunk) :
  map record_id (load_and_reconstruct chunks) = map Some (first_seen (retained_ids chunks)).
Proof.
  rewrite load_record_ids. f_equal. unfold keys, scan.
  rewrite records_map_fold. apply (keys_fold chunks []).
Qed.

Example first_seen_order :
  first_seen [7; 3; 7; 9; 3] = [7; 3; 9].
Proof. reflexivity. Qed.

(** ** Stripping *)

Definition head_clean (s : string) : Prop :=
  match s with
  | EmptyString => True
  | String a _ => PyStr.isspace a = false
  end.

Fixpoint last_char (s : string) : option ascii :=
  match s with
  | EmptyString => None
  | String a EmptyString => Some a
  | String _ s' => last_char s'
  end.

Definition tail_clean (s : string) : Prop :=
  match last_char s with
  | None => True
  | Some a => PyStr.isspace a = false
  end.

Lemma lstrip_head_clean s : head_clean (PyStr.lstrip s).
Proof.
  induction s as [|a s IH]; simpl; [exact I|].
  destruct (PyStr.isspace a) eqn:E; [exact IH|exact E].
Qed.

Lemma rstrip_tail_clean s : tail_clean (PyStr.rstrip s).
Proof.
  unfold tail_clean. induction s as [|a s IH]; simpl; [exact I|].
  destruct (PyStr.rstrip s) as [|b r] eqn:E.
  - destruct (PyStr.isspace a) eqn:Ea; simpl; [exact I|exact Ea].
  - exact IH.
Qed.

Lemma rstrip_head_clean s : head_clean s -> head_clean (PyStr.rstrip s).
Proof.
  destruct s as [|a s]; simpl; [auto|]. intros Ha.
  destruct (PyStr.rstrip s); [rewrite Ha|]; exact Ha.
Qed.

Lemma lstrip_fix s : head_clean s -> PyStr.lstrip s = s.
Proof. destruct s as [|a s]; simpl; [auto|]. now intros ->. Qed.

Lemma rstrip_fix s : tail_clean s -> PyStr.rstrip s = s.
Proof.
  unfold tail_clean. induction s as [|a s IH]; simpl; [auto|].
  destruct s as [|b s].
  - simpl. now intros ->.
  - intros H. rewrite IH by exact H. reflexivity.
Qed.

Lemma strip_clean s : head_clean (PyStr.strip s) /\ tail_clean (PyStr.strip s).
Proof.
  unfold PyStr.strip. split; [apply rstrip_head_clean, lstrip_head_clean|].
  apply rstrip_tail_clean.
Qed.

Lemma strip_idem s : PyStr.strip (PyStr.strip s) = PyStr.strip s.
Proof.
  destruct (strip_clean s) as [Hh Ht]. unfold PyStr.strip at 1.
  rewrite lstrip_fix by exact Hh. now apply rstrip_fix.
Qed.

(** X6.  The text of a reconstructed document neither starts nor ends with
    a whitespace character, so stripping it again changes nothing. *)
Theorem document_text_stripped (chunks : list Chunk) (doc : Document) :
  In doc (load_and_reconstruct chunks) ->
  head_clean (text doc) /\ tail_clean (text doc) /\ PyStr.strip (text doc) = text doc.
Proof.
  intros Hin. unfold load_and_reconstruct in Hin.
  apply in_map_iff in Hin as [kv [<- _]]. unfold reconstruct_entry. cbn [text].
  split; [apply strip_clean|]. split; [apply strip_clean|apply strip_idem].
Qed.

Lemma document_text_stripped_witness :
  let doc := mkDocument (Some 7) None None None None "padded text" in
  head_clean (text doc) /\ tail_clean (text doc) /\ PyStr.strip (text doc) = text doc.
Proof.
  apply (document_text_stripped [plain_chunk 7 0 "   padded text  "]).
  left. reflexivity.
Defined.

End IngestionMore.

(** * The order of the reconstructed documents *)

Module ReconstructionOrder.
Import Ingestion IngestionFacts IngestionMore.

(** The metadata that record [d] takes: that of its first retained chunk. *)
Definition first_meta (d : Z) (chunks : list Chunk) :=
  chunk_meta <$> first_chunk d chunks.

Lemma records_meta chunks : meta_inv (records_map (scan chunks)) chunks.
Proof.
  unfold scan. rewrite records_map_fold.
  apply (meta_inv_fold chunks [] []); [apply scan_inv_init|]. intros ? ? [].
Qed.

Lemma first_seen_keys chunks : keys chunks = first_seen (retained_ids chunks).
Proof. unfold keys, scan. rewrite records_map_fold. apply (keys_fold chunks []). Qed.

(** A document is determined by its id, its text and its metadata. *)
Lemma document_eq (doc doc' : Document) :
  record_id doc = record_id doc' -> text doc = text doc' -> doc_meta doc = doc_meta doc' ->
  doc = doc'.
Proof.
  destruct doc, doc'. unfold doc_meta. cbn. intros -> -> [= -> -> -> ->]. reflexivity.
Qed.

Lemma map_eq_pointwise {A B} (f g : A -> B) l :
  (forall x, In x l -> f x = g x) -> map f l = map g l.
Proof. intros H. now apply map_ext_in. Qed.

(** The documents of an archive, from the ids in output order. *)
Lemma load_by_keys chunks doc :
  In doc (load_and_reconstruct chunks) ->
  exists d, record_id doc = Some d /\ In d (keys chunks) /\
            text doc = text_of d chunks /\ Some (doc_meta doc) = first_meta d chunks.
Proof.
  intros Hin. unfold load_and_reconstruct in Hin.
  apply in_map_iff in Hin as [[k e] [<- Hin]]. exists k.
  split; [reflexivity|]. split; [unfold keys; now apply (in_map fst) in Hin|]. split.
  - unfold reconstruct_entry, text_of. cbn.
    now rewrite (inv_chunks _ _ (scan_inv_scan chunks) _ _ Hin).
  - destruct (records_meta chunks _ _ Hin) as [_ [c [Hf Hm]]].
    unfold first_meta. rewrite Hf. cbn. f_equal. exact Hm.
Qed.

Lemma forall2_documents (docs1 docs2 : list Document) :
  map record_id docs1 = map record_id docs2 ->
  (forall doc1 doc2 d, In doc1 docs1 -> In doc2 docs2 ->
     record_id doc1 = Some d -> record_id doc2 = Some d -> doc1 = doc2) ->
  (forall doc, In doc docs1 -> record_id doc <> None) ->
  docs1 = docs2.
Proof.
  revert docs2. induction docs1 as [|doc1 docs1 IH]; intros [|doc2 docs2] Hm Heq Hid;
    try discriminate; [reflexivity|].
  cbn [map] in Hm. injection Hm as Hr Hm.
  destruct (record_id doc1) as [d|] eqn:E1; [|exfalso; apply (Hid doc1); [now left|exact E1]].
  f_equal.
  - apply (Heq doc1 doc2 d); [now left|now left|exact E1|now rewrite <- Hr].
  - apply IH; [exact Hm| |].
    + intros a b k Ha Hb. apply Heq; now right.
    + intros a Ha. apply Hid. now right.
Qed.

(** C7, as amended.  When two chunk sequences list the chunks of every
    (record id, position) pair in the same relative order, as every
    permutation preserving that order does, then every record id has the
    same reconstructed text in both, or a document in neither.  The text
    of a document is the stripped join of its retained chunks sorted by
    position, the chunks of one position in read order, none dropped.
    The documents come out in the order in which the record ids have
    their first retained chunk; so the two outputs list the same ids with
    the same texts in the same order as soon as that order is the same,
    and are the same documents when, in addition, the first retained
    chunk of every record id carries the same metadata. *)
Theorem scan_order_invariance (l1 l2 : list Chunk) :
  (forall d p, List.filter (has_key d p) l1 = List.filter (has_key d p) l2) ->
  (forall d, doc_text d (load_and_reconstruct l1) = doc_text d (load_and_reconstruct l2)) /\
  (forall doc d, In doc (load_and_reconstruct l1) -> record_id doc = Some d ->
     exists sorted,
       stably_sorted (retained_of d l1) sorted /\
       (forall p, List.filter (at_pos p) sorted =
                  retained_of d (List.filter (has_key d p) l1)) /\
       text doc = PyStr.strip (PyStr.join " " (map snd sorted))) /\
  map record_id (load_and_reconstruct l1) = map Some (first_seen (retained_ids l1)) /\
  map record_id (load_and_reconstruct l2) = map Some (first_seen (retained_ids l2)) /\
  (first_seen (retained_ids l1) = first_seen (retained_ids l2) ->
   map id_text (load_and_reconstruct l1) = map id_text (load_and_reconstruct l2)) /\
  (first_seen (retained_ids l1) = first_seen (retained_ids l2) ->
   (forall d, first_meta d l1 = first_meta d l2) ->
   load_and_reconstruct l1 = load_and_reconstruct l2).
Proof.
  intros H. destruct (same_key_order_texts l1 l2 H) as (Htext & _ & Hseq).
  assert (Hk1 : map record_id (load_and_reconstruct l1) = map Some (first_seen (retained_ids l1)))
    by (now rewrite load_record_ids, first_seen_keys).
  assert (Hk2 : map record_id (load_and_reconstruct l2) = map Some (first_seen (retained_ids l2)))
    by (now rewrite load_record_ids, first_seen_keys).
  split; [exact Htext|]. split; [|split; [exact Hk1|split; [exact Hk2|split]]].
  - intros doc d Hin Hr. destruct (load_by_keys l1 doc Hin) as (d' & Hr' & _ & Ht & _).
    assert (d' = d) as -> by congruence.
    exists (sort_chunks (retained_of d l1)). split; [apply stably_sorted_sort_chunks|]. split.
    + intros p. now rewrite sort_chunks_stable, <- !chunks_of_retained, chunks_of_filter.
    + rewrite Ht. unfold text_of. now rewrite chunks_of_retained.
  - intros Ho. apply Hseq. now rewrite Hk1, Hk2, Ho.
  - intros Ho Hmeta. apply forall2_documents.
    + now rewrite Hk1, Hk2, Ho.
    + intros doc1 doc2 d Hin1 Hin2 Hr1 Hr2.
      destruct (load_by_keys l1 doc1 Hin1) as (d1 & Hd1 & _ & Ht1 & Hm1).
      destruct (load_by_keys l2 doc2 Hin2) as (d2 & Hd2 & _ & Ht2 & Hm2).
      assert (d1 = d) as -> by congruence. assert (d2 = d) as -> by congruence.
      apply document_eq; [congruence| |].
      * rewrite Ht1, Ht2. apply (text_of_eq l1 l2 H).
      * specialize (Hmeta d). congruence.
    + intros doc Hin. destruct (load_by_keys l1 doc Hin) as (d & Hd & _). congruence.
Qed.

(** Two archives that differ in the read order of two chunks of one
    record, at different positions. *)
Definition two_orders_1 : list Chunk :=
  [plain_chunk 1 0 "aaaaaaaaaa"; plain_chunk 1 1 "bbbbbbbbbb"; plain_chunk 2 0 "cccccccccc"].

Definition two_orders_2 : list Chunk :=
  [plain_chunk 1 1 "bbbbbbbbbb"; plain_chunk 1 0 "aaaaaaaaaa"; plain_chunk 2 0 "cccccccccc"].

Lemma two_orders_same_key_order d p :
  List.filter (has_key d p) two_orders_1 = List.filter (has_key d p) two_orders_2.
Proof.
  assert (Ha : forall t, has_key d p (plain_chunk 1 0 t) = Z.eqb 1 d && Z.eqb 0 p)
    by reflexivity.
  assert (Hb : forall t, has_key d p (plain_chunk 1 1 t) = Z.eqb 1 d && Z.eqb 1 p)
    by reflexivity.
  unfold two_orders_1, two_orders_2. cbn [List.filter]. rewrite Ha, Hb.
  destruct (Z.eqb 1 d); cbn [andb]; [|reflexivity].
  destruct (Z.eqb 0 p) eqn:E0, (Z.eqb 1 p) eqn:E1; try reflexivity.
  apply Z.eqb_eq in E0, E1. lia.
Qed.

Lemma scan_order_invariance_witness :
  load_and_reconstruct two_orders_1 = load_and_reconstruct two_orders_2 /\
  map id_text (load_and_reconstruct two_orders_1) =
    [(Some 1, "aaaaaaaaaa bbbbbbbbbb"); (Some 2, "cccccccccc")].
Proof.
  split; [|reflexivity].
  destruct (scan_order_invariance two_orders_1 two_orders_2 two_orders_same_key_order)
    as (_ & _ & _ & _ & _ & Hall).
  apply Hall; [reflexivity|].
  intros d. unfold first_meta, first_chunk, two_orders_1, two_orders_2. cbn [List.find].
  change (check_chunk (plain_chunk 1 0 "aaaaaaaaaa")) with (Some (1, 0, "aaaaaaaaaa")).
  change (check_chunk (plain_chunk 1 1 "bbbbbbbbbb")) with (Some (1, 1, "bbbbbbbbbb")).
  change (check_chunk (plain_chunk 2 0 "cccccccccc")) with (Some (2, 0, "cccccccccc")).
  destruct (Z.eqb 1 d), (Z.eqb 2 d); reflexivity.
Defined.

End ReconstructionOrder.

(** * Further facts about the persistence sink *)

Module Neo4jMore.
Import Schemas Neo4jPersistor Neo4jFacts PersistorBulk.

(** ** What an upsert can do to the store *)

Lemma save_entity_cases entity d r d' :
  save_entity entity d = (r, d') ->
  (store d' = store d /\ r <> Ok tt) \/
  (r = Ok tt /\ entity_query (run_id d) entity (store d) = Ok (store d')).
Proof.
  unfold save_entity. destruct (_ || _).
  - intros [= <- <-]. left. split; [reflexivity|discriminate].
  - intros H. pose proof (run_store _ (entity_query_errors (run_id d) entity) d) as [_ Hs].
    rewrite H in Hs. simpl in Hs. destruct r as [[]|e].
    + right. auto.
    + left. split; [exact Hs|discriminate].
Qed.

Lemma save_relationship_cases relation d r d' :
  save_relationship relation d = (r, d') ->
  (store d' = store d /\ r <> Ok tt) \/
  (r = Ok tt /\ relationship_query (run_id d) relation (store d) = Ok (store d')).
Proof.
  unfold save_relationship. destruct (_ || _).
  - intros [= <- <-]. left. split; [reflexivity|discriminate].
  - intros H.
    pose proof (run_store _ (relationship_query_errors (run_id d) relation) d) as [_ Hs].
    rewrite H in Hs. simpl in Hs. destruct r as [[]|e].
    + right. auto.
    + left. split; [exact Hs|discriminate].
Qed.

(** The nodes as they were, by position: same name, and untouched unless
    they carry the name [nm]. *)
Definition nodes_kept (nm : string) (before after : list (gmap string pvalue)) : Prop :=
  forall i n, before !! i = Some n ->
    exists n', after !! i = Some n' /\
               n' !! "name" = n !! "name" /\
               (prop_is "name" nm n = false -> n' = n).

Lemma nodes_kept_refl nm ns : nodes_kept nm ns ns.
Proof. intros i n H. exists n. auto. Qed.

Lemma entity_query_effect rid entity g g' :
  entity_query rid entity g = Ok g' ->
  rels g' = rels g /\
  (length (nodes g) <= length (nodes g') <= length (nodes g) + 1)%nat /\
  nodes_kept (name entity) (nodes g) (nodes g').
Proof.
  rewrite entity_query_eq. intros [= <-]. cbn [rels nodes]. split; [reflexivity|].
  split.
  - rewrite length_map. unfold merged_nodes.
    destruct (existsb _ (nodes g)); [lia|]. rewrite length_app. simpl. lia.
  - intros i n Hi. rewrite list_lookup_fmap.
    assert (Hm : merged_nodes entity g !! i = Some n).
    { unfold merged_nodes. destruct (existsb _ (nodes g)); [exact Hi|].
      now apply lookup_app_l_Some. }
    rewrite Hm.
    exists (if node_matches [("name", name entity)] n
            then set_props (entity_assignments rid entity) n else n).
    split; [reflexivity|]. rewrite node_matches_name.
    destruct (prop_is "name" (name entity) n) eqn:E.
    + split; [|discriminate]. rewrite lookup_set_props, last_assign_notin; [reflexivity|].
      apply name_not_assigned.
    + split; reflexivity.
Qed.

(** X7.  Whatever its outcome, [save_entity] leaves the relationships as
    they are, adds at most one node, keeps every existing node at its
    position with its name, and leaves nodes of other names untouched; when
    it raises, the store is unchanged. *)
Theorem entity_upsert_effect (entity : ThreatEntity) (d d' : db) (r : result unit) :
  save_entity entity d = (r, d') ->
  rels (store d') = rels (store d) /\
  (length (nodes (store d)) <= length (nodes (store d'))
   <= length (nodes (store d)) + 1)%nat /\
  nodes_kept (name entity) (nodes (store d)) (nodes (store d')) /\
  (r <> Ok tt -> store d' = store d).
Proof.
  intros H. apply save_entity_cases in H as [[Hs Hr]|[-> Hq]].
  - rewrite Hs. split; [reflexivity|]. split; [lia|]. split; [apply nodes_kept_refl|auto].
  - apply entity_query_effect in Hq as (H1 & H2 & H3). repeat split; auto; try lia.
    congruence.
Qed.

Lemma entity_upsert_effect_witness :
  let d := after [save_entity (entity_x "malware")] fresh_db in
  let d' := snd (save_entity (entity_x "tool") d) in
  rels (store d') = rels (store d) /\
  (length (nodes (store d)) <= length (nodes (store d'))
   <= length (nodes (store d)) + 1)%nat /\
  nodes_kept "x" (nodes (store d)) (nodes (store d')) /\
  (Ok tt <> Ok tt -> store d' = store d).
Proof.
  intros d d'.
  apply (entity_upsert_effect (entity_x "tool") d d' (Ok tt)). reflexivity.
Defined.

(** ** The relationship upsert *)

Lemma in_matching_from pat ns :
  forall k i, In i (matching_from k pat ns) ->
              (k <= i)%nat /\ exists n, ns !! (i - k)%nat = Some n /\ node_matches pat n = true.
Proof.
  induction ns as [|m ns IH]; intros k i; simpl; [tauto|].
  destruct (node_matches pat m) eqn:E.
  - intros [<-|Hin].
    + split; [lia|]. rewrite Nat.sub_diag. eauto.
    + destruct (IH _ _ Hin) as [Hle [n [Hn Hm]]]. split; [lia|].
      exists n. split; [|exact Hm].
      replace (i - k)%nat with (S (i - S k)) by lia. exact Hn.
  - intros Hin. destruct (IH _ _ Hin) as [Hle [n [Hn Hm]]]. split; [lia|].
    exists n. split; [|exact Hm].
    replace (i - k)%nat with (S (i - S k)) by lia. exact Hn.
Qed.

(** What [MERGE] on a name and type binds: the nodes as they were plus at
    most one new node, and a non-empty list of positions of matching nodes. *)
Lemma merge_node_typed nm ty ns ns' found :
  merge_node (typed_pattern nm ty) ns = (ns', found) ->
  (exists added, ns' = ns ++ added /\ (length added <= 1)%nat) /\
  found <> [] /\
  forall i, In i found ->
    exists n, ns' !! i = Some n /\ node_matches (typed_pattern nm ty) n = true.
Proof.
  destruct (existsb (node_matches (typed_pattern nm ty)) ns) eqn:E.
  - rewrite merge_node_found by exact E. intros [= <- <-]. split; [|split].
    + exists []. rewrite app_nil_r. split; [reflexivity|simpl; lia].
    + intros H. apply matching_from_nil in H. congruence.
    + intros i Hin. apply in_matching_from in Hin as [_ [n [Hn Hm]]].
      rewrite Nat.sub_0_r in Hn. eauto.
  - rewrite merge_node_new by exact E. intros [= <- <-]. split; [|split].
    + eexists. split; [reflexivity|simpl; lia].
    + discriminate.
    + intros i [<-|[]]. exists (node_of_pattern (typed_pattern nm ty)). split.
      * rewrite lookup_app_r by lia. now rewrite Nat.sub_diag.
      * now rewrite node_of_typed_matches, !String.eqb_refl.
Qed.

Section Relations.
Variables (rid : string) (relation : ThreatRelationship) (rtype : string).

Let assign := set_props (relation_assignments rid relation).

Lemma relation_keys_nodup : List.NoDup (map fst (relation_assignments rid relation)).
Proof. simpl. repeat (constructor; [simpl; intuition discriminate|]). constructor. Qed.

(** The relationships as they were, by position: same end nodes and type. *)
Definition rels_kept (before after : list Neo4jPersistor.relation) : Prop :=
  forall i r, before !! i = Some r ->
    exists r', after !! i = Some r' /\
               r_source r' = r_source r /\ r_target r' = r_target r /\
               r_props r' !! "type" = r_props r !! "type".

Lemma rels_kept_refl rs : rels_kept rs rs.
Proof. intros i r H. exists r. auto. Qed.

Lemma rels_kept_trans rs1 rs2 rs3 :
  rels_kept rs1 rs2 -> rels_kept rs2 rs3 -> rels_kept rs1 rs3.
Proof.
  intros H12 H23 i r Hi. destruct (H12 _ _ Hi) as [r' (Hi' & Hs & Ht & Hp)].
  destruct (H23 _ _ Hi') as [r'' (Hi'' & Hs' & Ht' & Hp')].
  exists r''. repeat split; congruence.
Qed.

Lemma merge_rel_kept rs st : rels_kept rs (merge_rel rtype assign rs st).
Proof.
  rewrite merge_rel_eq. destruct (existsb _ rs).
  - intros i r Hi. rewrite list_lookup_fmap, Hi. cbn [fmap option_fmap option_map].
    destruct (rel_matches (fst st) (snd st) rtype r).
    + exists (upd_rel assign r). split; [reflexivity|]. split; [reflexivity|].
      split; [reflexivity|]. unfold upd_rel, assign. cbn [r_props].
      rewrite lookup_set_props, last_assign_notin; [reflexivity|].
      simpl. intuition discriminate.
    + exists r. auto.
  - intros i r Hi. exists r. split; [now apply lookup_app_l_Some|auto].
Qed.

Lemma fold_merge_kept pairs :
  forall rs, rels_kept rs (fold_left (merge_rel rtype assign) pairs rs).
Proof.
  induction pairs as [|p pairs IH]; intros rs; simpl; [apply rels_kept_refl|].
  eapply rels_kept_trans; [apply merge_rel_kept|apply IH].
Qed.

(** A settled pair has a relationship holding the assigned values. *)
Lemma settled_relation st rs :
  settled rtype assign st rs ->
  exists r, In r rs /\ r_source r = fst st /\ r_target r = snd st /\
            r_props r !! "type" = Some (PStr rtype) /\
            forall k v, In (k, v) (relation_assignments rid relation) -> r_props r !! k = v.
Proof.
  intros [He Hfix]. apply existsb_exists in He as [r [Hin Hm]].
  exists r. split; [exact Hin|]. pose proof (Hfix r Hin Hm) as Hu.
  unfold rel_matches in Hm. apply andb_true_iff in Hm as [[Hs Ht]%andb_true_iff Hp].
  apply Nat.eqb_eq in Hs, Ht. split; [exact Hs|]. split; [exact Ht|]. split.
  - unfold prop_is in Hp. destruct (r_props r !! "type") as [[s| |]|]; try discriminate.
    apply String.eqb_eq in Hp. now subst.
  - intros k v Hkv. unfold upd_rel in Hu. apply (f_equal r_props) in Hu. cbn [r_props] in Hu.
    rewrite <- Hu. unfold assign.
    now rewrite lookup_set_props, (last_assign_in k v _ relation_keys_nodup Hkv).
Qed.

End Relations.

Lemma lookup_extend {A} (l added : list A) i x : l !! i = Some x -> (l ++ added) !! i = Some x.
Proof. intros H. now apply lookup_app_l_Some. Qed.

(** What the relationship query leaves, when it goes through. *)
Lemma relationship_query_effect rid relation g g' :
  relationship_query rid relation g = Ok g' ->
  exists stype ttype rtype,
    source_type relation = Some stype /\ target_type relation = Some ttype /\
    relationship_type relation = Some rtype /\
    (exists added, nodes g' = nodes g ++ added /\ (length added <= 2)%nat) /\
    rels_kept (rels g) (rels g') /\
    exists s t ns nt r,
      nodes g' !! s = Some ns /\
      node_matches (typed_pattern (source_name relation) stype) ns = true /\
      nodes g' !! t = Some nt /\
      node_matches (typed_pattern (target_name relation) ttype) nt = true /\
      In r (rels g') /\ r_source r = s /\ r_target r = t /\
      r_props r !! "type" = Some (PStr rtype) /\
      forall k v, In (k, v) (relation_assignments rid relation) -> r_props r !! k = v.
Proof.
  unfold relationship_query.
  destruct (source_type relation) as [stype|]; [|discriminate].
  destruct (target_type relation) as [ttype|]; [|discriminate].
  destruct (relationship_type relation) as [rtype|]; [|discriminate].
  fold (typed_pattern (source_name relation) stype).
  fold (typed_pattern (target_name relation) ttype).
  destruct (merge_node (typed_pattern (source_name relation) stype) (nodes g))
    as [ns1 sources] eqn:E1.
  destruct (merge_node (typed_pattern (target_name relation) ttype) ns1)
    as [ns2 targets] eqn:E2.
  intros [= <-]. cbn [nodes rels].
  destruct (merge_node_typed _ _ _ _ _ E1) as ([a1 [-> Ha1]] & Hs & Hsm).
  destruct (merge_node_typed _ _ _ _ _ E2) as ([a2 [-> Ha2]] & Ht & Htm).
  exists stype, ttype, rtype. repeat (split; [reflexivity|]).
  split; [exists (a1 ++ a2); rewrite app_assoc, length_app; split; [reflexivity|lia]|].
  split; [apply fold_merge_kept|].
  destruct sources as [|s sources]; [congruence|].
  destruct targets as [|t targets]; [congruence|].
  destruct (Hsm s (or_introl eq_refl)) as [ns [Hns Hnsm]].
  destruct (Htm t (or_introl eq_refl)) as [nt [Hnt Hntm]].
  assert (Hset : settled rtype (set_props (relation_assignments rid relation)) (s, t)
                   (fold_left (merge_rel rtype (set_props (relation_assignments rid relation)))
                              (list_prod (s :: sources) (t :: targets)) (rels g))).
  { apply fold_merge_settles.
    - intros props. apply set_props_idem.
    - intros props. apply relation_assign_type.
    - apply in_prod; now left. }
  apply settled_relation in Hset as [r (Hin & Hrs & Hrt & Hty & Hv)].
  exists s, t, ns, nt, r. split; [now apply lookup_extend|].
  repeat (split; [assumption|]). exact Hv.
Qed.

(** X8.  A [save_relationship] that returns has merged the two end nodes on
    name and entity type and one relationship between them on its type,
    holding the description (or ""), the confidence (or 0.0) and the run id
    of the call; it has appended at most two nodes and has left every
    existing node as it was and every existing relationship with its end
    nodes and type. *)
Theorem relationship_upsert_effect (relation : ThreatRelationship) (d d' : db) :
  save_relationship relation d = (Ok tt, d') ->
  exists stype ttype rtype,
    source_type relation = Some stype /\ target_type relation = Some ttype /\
    relationship_type relation = Some rtype /\
    (exists added, nodes (store d') = nodes (store d) ++ added /\ (length added <= 2)%nat) /\
    rels_kept (rels (store d)) (rels (store d')) /\
    exists s t ns nt r,
      nodes (store d') !! s = Some ns /\
      node_matches (typed_pattern (source_name relation) stype) ns = true /\
      nodes (store d') !! t = Some nt /\
      node_matches (typed_pattern (target_name relation) ttype) nt = true /\
      In r (rels (store d')) /\ r_source r = s /\ r_target r = t /\
      r_props r !! "type" = Some (PStr rtype) /\
      r_props r !! "description" =
        Some (PStr (description_or_empty (rdescription relation))) /\
      r_props r !! "confidence" =
        Some (PFloat (confidence_or_zero (rconfidence relation))) /\
      r_props r !! "run_id" = Some (PStr (run_id d)).
Proof.
  intros H. apply save_relationship_cases in H as [[_ Hr]|[_ Hq]]; [congruence|].
  apply relationship_query_effect in Hq
    as (stype & ttype & rtype & H1 & H2 & H3 & H4 & H5 & s & t & ns & nt & r & Hr).
  destruct Hr as (R1 & R2 & R3 & R4 & R5 & R6 & R7 & R8 & R9).
  exists stype, ttype, rtype. repeat (split; [assumption|]).
  exists s, t, ns, nt, r. repeat (split; [assumption|]).
  split; [apply R9; simpl; auto|]. split; apply R9; simpl; auto.
Qed.

Lemma relationship_upsert_effect_witness :
  let d' := snd (save_relationship sample_relation fresh_db) in
  exists stype ttype rtype,
    source_type sample_relation = Some stype /\ target_type sample_relation = Some ttype /\
    relationship_type sample_relation = Some rtype /\
    (exists added, nodes (store d') = nodes (store fresh_db) ++ added /\
                   (length added <= 2)%nat) /\
    rels_kept (rels (store fresh_db)) (rels (store d')) /\
    exists s t ns nt r,
      nodes (store d') !! s = Some ns /\
      node_matches (typed_pattern (source_name sample_relation) stype) ns = true /\
      nodes (store d') !! t = Some nt /\
      node_matches (typed_pattern (target_name sample_relation) ttype) nt = true /\
      In r (rels (store d')) /\ r_source r = s /\ r_target r = t /\
      r_props r !! "type" = Some (PStr rtype) /\
      r_props r !! "description" =
        Some (PStr (description_or_empty (rdescription sample_relation))) /\
      r_props r !! "confidence" =
        Some (PFloat (confidence_or_zero (rconfidence sample_relation))) /\
      r_props r !! "run_id" = Some (PStr (run_id fresh_db)).
Proof.
  intros d'. apply (relationship_upsert_effect sample_relation fresh_db d'). reflexivity.
Defined.

(** ** The retry loop for any bound *)






Lemma connect_store rid d :
  store (snd (connect rid d)) = store d /\
  (attempts (snd (connect rid d)) <= attempts d + 2)%nat.
Proof.
  unfold connect, _ensure_indexes, session_run. cbn [coming attempts store run_id].
  destruct (coming d) as [|o1 [|o2 rest]]; try destruct o1; try destruct o2; cbn;
    split; auto; lia.
Qed.

(** X10.  Constructing the persistor sends the two index statements without
    any retry: it makes one attempt when the first fails and two otherwise,
    succeeds exactly when both go through, sets the run id, and never
    changes the content of the store. *)
Theorem connect_effect (rid : string) (d : db) :
  let r := connect rid d in
  store (snd r) = store d /\ run_id (snd r) = rid /\
  (fst r = Ok tt <->
   hd Succeed (coming d) = Succeed /\ hd Succeed (tl (coming d)) = Succeed) /\
  attempts (snd r) =
    (if is_ok (fst (session_run Ok d)) then attempts d + 2 else attempts d + 1)%nat.
Proof.
  unfold connect, _ensure_indexes, session_run. cbn [coming attempts store run_id].
  destruct (coming d) as [|o1 [|o2 rest]]; try destruct o1; try destruct o2; cbn;
    repeat split; try lia; try tauto; try discriminate;
    try (intros [H1 H2]; discriminate).
Qed.

Definition clear_query : graph -> result graph := fun _ => Ok empty_graph.

Lemma clear_query_errors g e : clear_query g = Raise e -> e = ClientError.
Proof. discriminate. Qed.

(** X11.  [clear_graph] either returns, and then the store holds no node
    and no relationship, or raises, and then the store is as it was; it
    makes between one and three attempts. *)
Theorem clear_graph_effect (d : db) :
  let r := clear_graph d in
  match fst r with
  | Ok _ => store (snd r) = empty_graph
  | Raise _ => store (snd r) = store d
  end /\
  (attempts d < attempts (snd r) <= attempts d + 3)%nat.
Proof.
  pose proof (run_store clear_query clear_query_errors d) as [_ Hs].
  pose proof (run_bounded clear_query clear_query_errors d) as Hb.
  unfold clear_graph. fold clear_query. cbv zeta. split; [|exact Hb].
  destruct (fst (discard _)); [|exact Hs]. now injection Hs.
Qed.

(** ** The bulk upsert *)

Lemma save_entity_succeeds entity d :
  coming d = [] -> entity_valid entity = true ->
  exists g, entity_query (run_id d) entity (store d) = Ok g /\
            save_entity entity d = (Ok tt, mkDb g (run_id d) [] (S (attempts d))).
Proof.
  intros Hc Hv. rewrite entity_query_eq. eexists. split; [reflexivity|].
  unfold save_entity. unfold entity_valid in Hv.
  apply andb_true_iff in Hv as [-> ->]. cbn [negb orb].
  unfold _run_with_retry, default_max_retries, retry_loop, session_run, discard.
  rewrite Hc. cbn [hd tl]. now rewrite entity_query_eq.
Qed.

Lemma bulk_query_cons rid entity entities g :
  bulk_query rid (entity :: entities) g =
  match entity_query rid entity g with
  | Ok g' => bulk_query rid entities g'
  | Raise e => Raise e
  end.
Proof.
  unfold bulk_query. cbn [fold_left]. destruct (entity_query rid entity g) as [g'|e];
    [reflexivity|].
  induction entities as [|x l IH]; [reflexivity|exact IH].
Qed.

Lemma save_entities_store entities :
  forall d, coming d = [] -> forallb entity_valid entities = true ->
  bulk_query (run_id d) entities (store d) =
    Ok (store (fst (Manager.save_entities entities d))) /\
  attempts (fst (Manager.save_entities entities d)) = (attempts d + length entities)%nat /\
  coming (fst (Manager.save_entities entities d)) = [] /\
  run_id (fst (Manager.save_entities entities d)) = run_id d.
Proof.
  induction entities as [|entity entities IH]; intros d Hc Hv.
  - simpl. repeat split; auto.
  - cbn [forallb] in Hv. apply andb_true_iff in Hv as [Hv Hvs].
    destruct (save_entity_succeeds entity d Hc Hv) as [g [Hq Hs]].
    rewrite bulk_query_cons, Hq. cbn [Manager.save_entities]. rewrite Hs. cbn [snd].
    destruct (IH (mkDb g (run_id d) [] (S (attempts d))) eq_refl Hvs) as (I1 & I2 & I3 & I4).
    cbn [run_id store attempts] in I1, I2, I4.
    destruct (Manager.save_entities entities (mkDb g (run_id d) [] (S (attempts d))))
      as [d2 evs]. cbn [fst] in *. rewrite I1. repeat split; auto. simpl. lia.
Qed.

(** X12.  When no failure is ahead and every entity has a name and a type,
    [save_entities_bulk] leaves the store exactly as saving the entities
    one by one does, with one attempt instead of one per entity; for an
    empty list it sends nothing. *)
Theorem bulk_equals_loop (entities : list ThreatEntity) (d : db) :
  coming d = [] -> forallb entity_valid entities = true ->
  fst (save_entities_bulk entities d) = Ok tt /\
  store (snd (save_entities_bulk entities d)) =
    store (fst (Manager.save_entities entities d)) /\
  attempts (snd (save_entities_bulk entities d)) =
    (attempts d + Nat.min 1 (length entities))%nat /\
  attempts (fst (Manager.save_entities entities d)) = (attempts d + length entities)%nat.
Proof.
  intros Hc Hv. destruct (save_entities_store entities d Hc Hv) as (H1 & H2 & _ & _).
  split; [|split; [|split; [|exact H2]]].
  - destruct entities as [|e l]; [reflexivity|]. unfold save_entities_bulk.
    unfold _run_with_retry, default_max_retries, retry_loop, session_run, discard.
    rewrite Hc. cbn [hd tl]. now rewrite H1.
  - destruct entities as [|e l]; [reflexivity|]. unfold save_entities_bulk.
    unfold _run_with_retry, default_max_retries, retry_loop, session_run, discard.
    rewrite Hc. cbn [hd tl]. now rewrite H1.
  - destruct entities as [|e l]; [simpl; lia|]. unfold save_entities_bulk.
    unfold _run_with_retry, default_max_retries, retry_loop, session_run, discard.
    rewrite Hc. cbn [hd tl]. rewrite H1. simpl. lia.
Qed.

Lemma bulk_equals_loop_witness :
  let entities := [entity_x "malware"; sample_entity; entity_x "tool"] in
  fst (save_entities_bulk entities fresh_db) = Ok tt /\
  store (snd (save_entities_bulk entities fresh_db)) =
    store (fst (Manager.save_entities entities fresh_db)) /\
  attempts (snd (save_entities_bulk entities fresh_db)) =
    (attempts fresh_db + Nat.min 1 (length entities))%nat /\
  attempts (fst (Manager.save_entities entities fresh_db)) =
    (attempts fresh_db + length entities)%nat.
Proof.
  intros entities. apply (bulk_equals_loop entities fresh_db); reflexivity.
Defined.

End Neo4jMore.

(** * The keys of the two upserts *)

Module UpsertKeys.
Import Schemas Neo4jPersistor Neo4jFacts.

Lemma prop_is_unique k s s' n : prop_is k s n = true -> prop_is k s' n = true -> s = s'.
Proof.
  unfold prop_is. destruct (n !! k) as [[v| |]|]; try discriminate.
  intros H H'. apply String.eqb_eq in H, H'. congruence.
Qed.

(** After an entity upsert every node of that name has the entity's type. *)
Lemma save_entity_types entity t d d1 n :
  ety entity = Some t -> save_entity entity d = (Ok tt, d1) ->
  In n (nodes (store d1)) -> prop_is "name" (name entity) n = true ->
  prop_is "entity_type" t n = true.
Proof.
  intros Ht H Hin Hn. apply save_entity_store in H as [_ Hq].
  assert (Hv : n !! "entity_type" = Some (PStr t)).
  { apply (entity_query_values (run_id d) entity (store d) (store d1) n "entity_type"
             (Some (PStr t)) Hq Hin Hn).
    unfold entity_assignments. rewrite Ht. now left. }
  unfold prop_is. rewrite Hv. apply String.eqb_refl.
Qed.

Lemma count_key_name entity t d d1 :
  ety entity = Some t -> save_entity entity d = (Ok tt, d1) ->
  count_key (name entity) t (store d1) = count_name (name entity) (store d1).
Proof.
  intros Ht H. unfold count_key, count_name. f_equal. apply List.filter_ext_in.
  intros n Hin. destruct (prop_is "name" (name entity) n) eqn:E; [|reflexivity].
  now rewrite (save_entity_types entity t d d1 n Ht H Hin E).
Qed.

Lemma save_entity_count entity d d1 :
  save_entity entity d = (Ok tt, d1) ->
  count_name (name entity) (store d1) = Nat.max 1 (count_name (name entity) (store d)).
Proof.
  intros H. apply save_entity_store in H as [_ Hq]. unfold count_name.
  now apply (entity_query_count (run_id d)).
Qed.

(** C8.  The two upserts do not agree on the key of a node:
    [save_entity] merges on the name alone, [save_relationship] merges its
    end nodes on name and entity type.  So an entity that is stored once,
    its name being new to the store, is stored twice, under the same name
    and type, when it is upserted again after a relationship whose source
    bears its name and another type: the relationship upsert adds a second
    node of that name, and the entity upsert then writes its values into
    both. *)
Theorem same_entity_stored_twice (entity : ThreatEntity) (relation : ThreatRelationship)
    (t t' : string) (d d1 d2 d3 : db) :
  ety entity = Some t ->
  source_name relation = name entity -> source_type relation = Some t' -> t' <> t ->
  count_name (name entity) (store d) = 0%nat ->
  save_entity entity d = (Ok tt, d1) ->
  save_relationship relation d1 = (Ok tt, d2) ->
  save_entity entity d2 = (Ok tt, d3) ->
  count_key (name entity) t (store d1) = 1%nat /\
  (2 <= count_key (name entity) t (store d3))%nat.
Proof.
  intros Ht Hsn Hst Hne Hfresh H1 H2 H3.
  pose proof (save_entity_count entity d d1 H1) as C1. rewrite Hfresh in C1. cbn in C1.
  split; [now rewrite (count_key_name entity t d d1 Ht H1)|].
  rewrite (count_key_name entity t d2 d3 Ht H3), (save_entity_count entity d2 d3 H3).
  assert (C2 : (2 <= count_name (name entity) (store d2))%nat); [|lia].
  apply Neo4jMore.save_relationship_cases in H2 as [[_ Hr]|[_ Hq]]; [congruence|].
  apply Neo4jMore.relationship_query_effect in Hq
    as (stype & ttype & rtype & Hs & _ & _ & (added & Hn & _) & _ &
        s & i & ns & nt & r & Hl & Hm & _).
  rewrite Hst in Hs. injection Hs as <-. rewrite Hsn, node_matches_typed in Hm.
  apply andb_true_iff in Hm as [Hname Htype].
  unfold count_name in *. rewrite Hn, List.filter_app, length_app. rewrite Hn in Hl.
  assert (Hin : In ns added).
  { destruct (Nat.lt_ge_cases s (length (nodes (store d1)))) as [Hlt|Hge].
    - exfalso. rewrite lookup_app_l in Hl by exact Hlt.
      apply list_elem_of_lookup_2, list_elem_of_In in Hl.
      pose proof (save_entity_types entity t d d1 ns Ht H1 Hl Hname) as Htype'.
      apply Hne. exact (prop_is_unique _ _ _ _ Htype Htype').
    - rewrite lookup_app_r in Hl by exact Hge.
      now apply list_elem_of_lookup_2, list_elem_of_In in Hl. }
  assert (Hadd : (1 <= length (List.filter (prop_is "name" (name entity)) added))%nat).
  { assert (Hf : In ns (List.filter (prop_is "name" (name entity)) added))
      by (apply filter_In; auto).
    destruct (List.filter _ added); [destruct Hf|cbn; lia]. }
  lia.
Qed.

Lemma same_entity_stored_twice_witness :
  let d1 := snd (save_entity (entity_x "malware") fresh_db) in
  let d2 := snd (save_relationship relation_x_tool d1) in
  let d3 := snd (save_entity (entity_x "malware") d2) in
  count_key "x" "malware" (store d1) = 1%nat /\
  (2 <= count_key "x" "malware" (store d3))%nat.
Proof.
  intros d1 d2 d3.
  apply (same_entity_stored_twice (entity_x "malware") relation_x_tool "malware" "tool"
           fresh_db d1 d2 d3); try reflexivity.
  discriminate.
Defined.

End UpsertKeys.

(** * Further facts about the enrichment stage *)

Module MitreMore.
Import Schemas MitreStix.

(** ** The enrichment loop *)

(** The test [entity.type.lower() in {"ttp", "technique", "tactic"}]. *)
Definition is_mitre_type (entity : ThreatEntity) : bool :=
  match ety entity with
  | Some t => existsb (String.eqb (PyStr.lower t)) mitre_types
  | None => false
  end.

(** What the enrichment looks up for an entity, if anything. *)
Definition lookup_for (data : mitre_data) (entity : ThreatEntity) : option mitre_info :=
  if is_mitre_type entity then find_mitre_info (name entity) data else None.

(** [entity'] is [entity] after the loop body: same name, type, text and
    confidence; the three MITRE fields overwritten from the record found,
    and nothing changed when no record is looked up or found. *)
Definition enriched_from (data : mitre_data) (entity entity' : ThreatEntity) : Prop :=
  name entity' = name entity /\ ety entity' = ety entity /\
  etext entity' = etext entity /\ confidence entity' = confidence entity /\
  match lookup_for data entity with
  | None => entity' = entity
  | Some info =>
      mitre_id entity' = Some (mi_mitre_id info) /\
      description entity' = Some (mi_description info) /\
      external_references entity' = Some (mi_external_references info)
  end.

Lemma enrich_entity_cases data entity :
  match enrich_entity data entity with
  | Ok entity' => ety entity <> None /\ enriched_from data entity entity'
  | Raise e => e = AttributeError /\ ety entity = None
  end.
Proof.
  unfold enrich_entity, enriched_from, lookup_for, is_mitre_type.
  destruct (ety entity) as [t|] eqn:Et; [|auto].
  destruct (existsb _ mitre_types).
  - destruct (find_mitre_info (name entity) data) as [info|]; cbn.
    + split; [discriminate|]. auto 10.
    + split; [discriminate|]. auto.
  - split; [discriminate|]. auto.
Qed.

(** X19.  The enrichment loop returns exactly when every entity has a
    type, and raises [AttributeError] otherwise.  When it returns, it
    returns the entities one for one and in order, each with the name,
    type, text and confidence it came with; an entity whose type is one of
    ttp, technique, tactic and for which a record is found gets its MITRE
    id, description and references from that record, and every other
    entity is returned unchanged. *)
Theorem enrichment_keeps_entities (data : mitre_data) (entities : list ThreatEntity) :
  match enrich_all data entities with
  | Ok enriched =>
      List.Forall (fun entity => ety entity <> None) entities /\
      Forall2 (enriched_from data) entities enriched
  | Raise e =>
      e = AttributeError /\ List.Exists (fun entity => ety entity = None) entities
  end.
Proof.
  induction entities as [|entity entities IH]; cbn [enrich_all].
  - split; constructor.
  - pose proof (enrich_entity_cases data entity) as H.
    destruct (enrich_entity data entity) as [entity'|e].
    + destruct H as [Ht He]. destruct (enrich_all data entities) as [enriched|e].
      * destruct IH as [IH1 IH2]. split; constructor; assumption.
      * destruct IH as [-> IH]. split; [reflexivity|]. now apply List.Exists_cons_tl.
    + destruct H as [-> H]. split; [reflexivity|]. now apply List.Exists_cons_hd.
Qed.

Lemma enrich_all_length data entities enriched :
  enrich_all data entities = Ok enriched -> length enriched = length entities.
Proof.
  revert enriched. induction entities as [|entity entities IH]; cbn [enrich_all]; intros enriched.
  - now intros [= <-].
  - destruct (enrich_entity data entity); [|discriminate].
    destruct (enrich_all data entities) as [rest|]; [|discriminate].
    intros [= <-]. cbn [length]. now rewrite (IH rest).
Qed.

Lemma enrich_stage_length entities env enriched env' :
  enrich_entities_with_mitre_stix entities env = (Ok enriched, env') ->
  length enriched = length entities.
Proof.
  unfold enrich_entities_with_mitre_stix.
  destruct (fetch_mitre_data env) as [[data|e] env1]; [|discriminate].
  intros [= H _]. now apply enrich_all_length in H.
Qed.

(** ** The lookup *)

(** The two tests of [find_mitre_info] on one object, against the
    upper-cased name: on the MITRE id, then on the object's name. *)
Definition id_matches (name_upper : list nat) (obj : stix_object) : bool :=
  let mid := first_mitre_id (obj_external_references obj) in
  opt_truthy mid && PyStr.codes_eqb (PyStr.upper (default "" mid)) name_upper.

Definition name_matches (name_upper : list nat) (obj : stix_object) : bool :=
  PyStr.codes_eqb (PyStr.upper (obj_name obj)) name_upper.

Definition object_matches (name_upper : list nat) (obj : stix_object) : bool :=
  id_matches name_upper obj || name_matches name_upper obj.

(** The record built from an object; its MITRE id is the external id of
    the object's first "mitre-attack" reference, and "" without one. *)
Definition info_of (obj : stix_object) : mitre_info :=
  mkInfo (default "" (first_mitre_id (obj_external_references obj)))
         (obj_description obj) (ref_urls (obj_external_references obj))
         (obj_type obj) (obj_name obj).

Lemma find_in_objects_first name_upper objects :
  match find_in_objects name_upper objects with
  | Some info =>
      exists before obj after,
        objects = before ++ obj :: after /\
        List.Forall (fun o => object_matches name_upper o = false) before /\
        object_matches name_upper obj = true /\ info = info_of obj
  | None => List.Forall (fun o => object_matches name_upper o = false) objects
  end.
Proof.
  induction objects as [|obj objects IH]; cbn [find_in_objects]; [constructor|].
  destruct (opt_truthy (first_mitre_id (obj_external_references obj))
            && PyStr.codes_eqb (PyStr.upper (default "" (first_mitre_id
                                                           (obj_external_references obj))))
                               name_upper) eqn:Ei.
  - exists [], obj, objects. split; [reflexivity|]. split; [constructor|].
    split; [|reflexivity]. unfold object_matches, id_matches. now rewrite Ei.
  - destruct (PyStr.codes_eqb (PyStr.upper (obj_name obj)) name_upper) eqn:En.
    + exists [], obj, objects. split; [reflexivity|]. split; [constructor|]. split.
      * unfold object_matches, name_matches. rewrite En. apply orb_true_r.
      * unfold info_of. f_equal.
        destruct (first_mitre_id (obj_external_references obj)) as [[|a i]|]; reflexivity.
    + assert (Hno : object_matches name_upper obj = false).
      { unfold object_matches, id_matches, name_matches. now rewrite Ei, En. }
      destruct (find_in_objects name_upper objects) as [info|].
      * destruct IH as (before & o & after & -> & Hb & Ho & Hi).
        exists (obj :: before), o, after. split; [reflexivity|].
        split; [now constructor|]. split; assumption.
      * now constructor.
Qed.

(** X20.  [find_mitre_info] returns the record of the first object, in the
    order of the data, whose MITRE id or whose name equals the given name
    up to case, the id being tried before the name on each object; the
    record carries the object's name, description, type and reference
    URLs, and as MITRE id the external id of the object's first
    "mitre-attack" reference ("" without one).  It returns nothing
    exactly when no object matches, and always on data that is empty or
    has no "objects". *)
Theorem lookup_returns_first_match (name : string) (data : mitre_data) :
  match find_mitre_info name data with
  | Some info =>
      exists before obj after,
        data = MitreObjects (before ++ obj :: after) /\
        List.Forall (fun o => object_matches (PyStr.upper name) o = false) before /\
        object_matches (PyStr.upper name) obj = true /\ info = info_of obj
  | None =>
      forall objects, data = MitreObjects objects ->
        List.Forall (fun o => object_matches (PyStr.upper name) o = false) objects
  end.
Proof.
  destruct data as [| |objects]; cbn [find_mitre_info]; try discriminate.
  pose proof (find_in_objects_first (PyStr.upper name) objects) as H.
  destruct (find_in_objects (PyStr.upper name) objects) as [info|].
  - destruct H as (before & obj & after & -> & Hb & Ho & Hi).
    exists before, obj, after. auto.
  - intros objects' [= <-]. exact H.
Qed.

(** ** A name with an accent *)

(** The name "cafe" with an acute accent on the e (code point 233), and an
    object named the same in capitals (code point 201). *)
Definition accented_name : string := "caf" +:+ String (ascii_of_nat 233) "".

Definition accented_object : stix_object :=
  mkStix [mkRef (Some "mitre-attack") (Some "T9999") (Some "https://attack.mitre.org/T9999")]
         ("CAF" +:+ String (ascii_of_nat 201) "") "a technique" "attack-pattern".

(** The lookup ignores the case of accented letters too, and the loop
    enriches the entity. *)
Example accented_name_found :
  find_mitre_info accented_name (MitreObjects [accented_object]) =
    Some (info_of accented_object) /\
  enrich_all (MitreObjects [accented_object])
             [mkEntity accented_name (Some "ttp") None None None None None] =
    Ok [mkEntity accented_name (Some "ttp") None None (Some "a technique") (Some "T9999")
                 (Some ["https://attack.mitre.org/T9999"])].
Proof. split; vm_compute; reflexivity. Qed.

(** The sharp s (code point 223) upper-cases to "SS". *)
Example sharp_s_found :
  find_mitre_info ("stra" +:+ String (ascii_of_nat 223) "e")
                  (MitreObjects [mkStix [] "STRASSE" "" ""]) =
    Some (info_of (mkStix [] "STRASSE" "" "")).
Proof. vm_compute. reflexivity. Qed.

End MitreMore.

(** * Further facts about the pipeline executor *)

Module ManagerMore.
Import Schemas Manager ManagerFacts.

(** The record ids of the documents that carry one. *)
Definition ids_of (docs : list Document) : gset Z := list_to_set (omap record_id docs).

Lemma fold_processed_after docs :
  forall processed, fold_left processed_after docs processed = processed ∪ ids_of docs.
Proof.
  unfold ids_of. induction docs as [|doc docs IH]; intros processed; cbn [fold_left].
  - simpl. apply set_eq. intros x. rewrite elem_of_union, elem_of_empty. tauto.
  - rewrite IH. unfold processed_after. cbn [omap list_omap].
    destruct (record_id doc) as [rid|]; [|reflexivity].
    cbn [list_to_set foldr]. apply set_eq. intros x.
    rewrite !elem_of_union, elem_of_singleton. tauto.
Qed.

(** ** Persistence of one document's results *)

Import Neo4jPersistor.

(** Nodes kept by position with their names. *)
Definition names_kept (before after : list (gmap string pvalue)) : Prop :=
  forall i n, before !! i = Some n ->
    exists n', after !! i = Some n' /\ n' !! "name" = n !! "name".

(** Nothing is removed from the graph, and at most [k] nodes are added. *)
Definition grows (k : nat) (g g' : graph) : Prop :=
  names_kept (nodes g) (nodes g') /\
  (length (nodes g') <= length (nodes g) + k)%nat /\
  Neo4jMore.rels_kept (rels g) (rels g').

Lemma grows_refl k g : grows k g g.
Proof.
  split; [|split; [lia|apply Neo4jMore.rels_kept_refl]].
  intros i n H. exists n. auto.
Qed.

Lemma grows_trans k1 k2 g1 g2 g3 :
  grows k1 g1 g2 -> grows k2 g2 g3 -> grows (k1 + k2) g1 g3.
Proof.
  intros (N1 & L1 & R1) (N2 & L2 & R2). split; [|split].
  - intros i n Hi. destruct (N1 _ _ Hi) as [n' [Hi' Hn']].
    destruct (N2 _ _ Hi') as [n'' [Hi'' Hn'']]. exists n''. split; [exact Hi''|congruence].
  - lia.
  - eapply Neo4jMore.rels_kept_trans; eassumption.
Qed.

Lemma save_entity_grows entity d :
  grows 1 (store d) (store (snd (save_entity entity d))).
Proof.
  destruct (save_entity entity d) as [r d'] eqn:E. cbn [snd].
  apply Neo4jMore.save_entity_cases in E as [[-> _]|[_ Hq]]; [apply grows_refl|].
  apply Neo4jMore.entity_query_effect in Hq as (Hr & Hl & Hk).
  split; [|split; [lia|rewrite Hr; apply Neo4jMore.rels_kept_refl]].
  intros i n Hi. destruct (Hk _ _ Hi) as [n' (Hi' & Hn & _)]. exists n'. auto.
Qed.

Lemma save_relationship_grows relation d :
  grows 2 (store d) (store (snd (save_relationship relation d))).
Proof.
  destruct (save_relationship relation d) as [r d'] eqn:E. cbn [snd].
  apply Neo4jMore.save_relationship_cases in E as [[-> _]|[_ Hq]]; [apply grows_refl|].
  apply Neo4jMore.relationship_query_effect in Hq
    as (stype & ttype & rtype & _ & _ & _ & (added & Hn & Hl) & Hk & _).
  split; [|split; [rewrite Hn, length_app; lia|exact Hk]].
  intros i n Hi. exists n. split; [|reflexivity]. rewrite Hn.
  now apply Neo4jMore.lookup_extend.
Qed.

Lemma save_entity_attempts entity d :
  run_id (snd (save_entity entity d)) = run_id d /\
  (attempts d <= attempts (snd (save_entity entity d)) <= attempts d + 3)%nat.
Proof.
  unfold save_entity. destruct (_ || _); [cbn [snd]; split; [reflexivity|lia]|].
  pose proof (Neo4jFacts.run_bounded _ (Neo4jFacts.entity_query_errors (run_id d) entity) d) as B.
  pose proof (Neo4jFacts.run_store _ (Neo4jFacts.entity_query_errors (run_id d) entity) d)
    as [R _].
  unfold default_max_retries in *. split; [exact R|lia].
Qed.

Lemma save_relationship_attempts relation d :
  run_id (snd (save_relationship relation d)) = run_id d /\
  (attempts d <= attempts (snd (save_relationship relation d)) <= attempts d + 3)%nat.
Proof.
  unfold save_relationship. destruct (_ || _); [cbn [snd]; split; [reflexivity|lia]|].
  pose proof (Neo4jFacts.run_bounded _
                (Neo4jFacts.relationship_query_errors (run_id d) relation) d) as B.
  pose proof (Neo4jFacts.run_store _
                (Neo4jFacts.relationship_query_errors (run_id d) relation) d) as [R _].
  unfold default_max_retries in *. split; [exact R|lia].
Qed.

(** What a sequence of saves leaves. *)
Definition saved (k n : nat) (d d' : db) : Prop :=
  run_id d' = run_id d /\
  (attempts d <= attempts d' <= attempts d + 3 * n)%nat /\
  grows (k * n) (store d) (store d').

Lemma save_entities_saved entities :
  forall d, saved 1 (length entities) d (fst (save_entities entities d)).
Proof.
  induction entities as [|entity entities IH]; intros d.
  - cbn. split; [reflexivity|]. split; [lia|apply grows_refl].
  - cbn [save_entities length].
    pose proof (save_entity_attempts entity d) as [R A].
    pose proof (save_entity_grows entity d) as G.
    specialize (IH (snd (save_entity entity d))).
    destruct (save_entities entities (snd (save_entity entity d))) as [d2 evs].
    cbn [fst] in *. destruct IH as (R2 & A2 & G2). split; [congruence|]. split; [lia|].
    replace (1 * S (length entities))%nat with (1 + 1 * length entities)%nat by lia.
    eapply grows_trans; eassumption.
Qed.

Lemma save_relationships_saved relationships :
  forall d, saved 2 (length relationships) d (fst (save_relationships relationships d)).
Proof.
  induction relationships as [|relation relationships IH]; intros d.
  - cbn. split; [reflexivity|]. split; [lia|apply grows_refl].
  - cbn [save_relationships length].
    pose proof (save_relationship_attempts relation d) as [R A].
    pose proof (save_relationship_grows relation d) as G.
    specialize (IH (snd (save_relationship relation d))).
    destruct (save_relationships relationships (snd (save_relationship relation d)))
      as [d2 evs].
    cbn [fst] in *. destruct IH as (R2 & A2 & G2). split; [congruence|]. split; [lia|].
    replace (2 * S (length relationships))%nat with (2 + 2 * length relationships)%nat by lia.
    eapply grows_trans; eassumption.
Qed.

(** X17.  [ingest_to_neo4j] only adds to the graph: whatever the store
    answers, every node stays at its position with its name and every
    relationship with its end nodes and type; at most one node per entity
    and two per relationship are added; at most three statements are sent
    per item; and the persistor keeps its run id. *)
Theorem ingest_only_adds (entities : list ThreatEntity)
    (relationships : list ThreatRelationship) (d : db) (dry_run : bool) :
  let d' := fst (ingest_to_neo4j entities relationships d dry_run) in
  run_id d' = run_id d /\
  (attempts d <= attempts d'
   <= attempts d + 3 * (length entities + length relationships))%nat /\
  grows (length entities + 2 * length relationships) (store d) (store d').
Proof.
  unfold ingest_to_neo4j. destruct dry_run.
  - cbn. split; [reflexivity|]. split; [lia|apply grows_refl].
  - pose proof (save_entities_saved entities d) as (R1 & A1 & G1).
    destruct (save_entities entities d) as [d1 evs1]. cbn [fst] in *.
    pose proof (save_relationships_saved relationships d1) as (R2 & A2 & G2).
    destruct (save_relationships relationships d1) as [d2 evs2]. cbn [fst] in *.
    split; [congruence|]. split; [lia|].
    replace (length entities) with (1 * length entities)%nat by lia.
    eapply grows_trans; eassumption.
Qed.

Lemma save_entities_valid entities :
  forall d, fst (save_entities entities d)
            = fst (save_entities (List.filter Neo4jFacts.entity_valid entities) d).
Proof.
  induction entities as [|entity entities IH]; intros d; [reflexivity|].
  cbn [save_entities List.filter]. destruct (Neo4jFacts.entity_valid entity) eqn:E.
  - cbn [save_entities]. specialize (IH (snd (save_entity entity d))).
    destruct (save_entities entities _) as [d2 evs2].
    destruct (save_entities (List.filter _ entities) _) as [d3 evs3]. exact IH.
  - assert (Hs : save_entity entity d = (Raise ValueError, d)).
    { unfold save_entity. unfold Neo4jFacts.entity_valid in E.
      destruct (PyStr.truthy (name entity)), (MitreStix.opt_truthy (ety entity));
        try discriminate E; reflexivity. }
    rewrite Hs. cbn [snd]. specialize (IH d).
    destruct (save_entities entities d) as [d2 evs2]. exact IH.
Qed.

Lemma save_relationships_valid relationships :
  forall d, fst (save_relationships relationships d)
            = fst (save_relationships (List.filter Neo4jFacts.relation_valid relationships) d).
Proof.
  induction relationships as [|relation relationships IH]; intros d; [reflexivity|].
  cbn [save_relationships List.filter]. destruct (Neo4jFacts.relation_valid relation) eqn:E.
  - cbn [save_relationships]. specialize (IH (snd (save_relationship relation d))).
    destruct (save_relationships relationships _) as [d2 evs2].
    destruct (save_relationships (List.filter _ relationships) _) as [d3 evs3]. exact IH.
  - assert (Hs : save_relationship relation d = (Raise ValueError, d)).
    { unfold save_relationship. unfold Neo4jFacts.relation_valid in E.
      destruct (PyStr.truthy (source_name relation)), (PyStr.truthy (target_name relation)),
        (MitreStix.opt_truthy (relationship_type relation));
        try discriminate E; reflexivity. }
    rewrite Hs. cbn [snd]. specialize (IH d).
    destruct (save_relationships relationships d) as [d2 evs2]. exact IH.
Qed.

(** X18.  An item that lacks a required field costs [ingest_to_neo4j]
    nothing and stops nothing: the persistor and its store end up exactly
    as if the entities without a name or a type, and the relationships
    without a source name, a target name or a type, had not been in the
    lists. *)
Theorem ingest_skips_invalid (entities : list ThreatEntity)
    (relationships : list ThreatRelationship) (d : db) (dry_run : bool) :
  fst (ingest_to_neo4j entities relationships d dry_run) =
  fst (ingest_to_neo4j (List.filter Neo4jFacts.entity_valid entities)
                       (List.filter Neo4jFacts.relation_valid relationships) d dry_run).
Proof.
  unfold ingest_to_neo4j. destruct dry_run; [reflexivity|].
  pose proof (save_entities_valid entities d) as H1.
  destruct (save_entities entities d) as [d1 evs1].
  destruct (save_entities (List.filter _ entities) d) as [d1' evs1'].
  cbn [fst] in H1. subst d1'.
  pose proof (save_relationships_valid relationships d1) as H2.
  destruct (save_relationships relationships d1) as [d2 evs2].
  destruct (save_relationships (List.filter _ relationships) d1) as [d2' evs2'].
  exact H2.
Qed.

Section Runs.
Variable perform_hybrid_ner : string -> result (list ThreatEntity).
Variable llm_relations : string -> list ThreatEntity -> result (list ThreatRelationship).

Let body := loop_body perform_hybrid_ner llm_relations.
Let loop := main_loop perform_hybrid_ner llm_relations.
Let timing := estimate perform_hybrid_ner llm_relations.
Let run := run_documents perform_hybrid_ner llm_relations.

(** ** Startup *)

(** X13.  A checkpoint file left torn by an interrupted save blocks every
    later run: as soon as the sample is not empty the run raises the
    decoding error at startup, before any stage call, any statement to the
    store and any write. *)
Theorem torn_checkpoint_blocks_run (dry_run : bool) (now : string) (pick : list nat)
    (documents : list Document) (w : world) (ids : gset Z) (written : nat)
    (before : option string) :
  random_sample pick documents <> [] ->
  (written < String.length (save_checkpoint ids))%nat ->
  checkpoint_file w = checkpoint_file_during_save ids written before ->
  run dry_run now pick documents w = (Raise JSONDecodeError, w).
Proof.
  intros Hne Hw Hf. unfold run, run_documents.
  destruct (random_sample pick documents) as [|doc sample]; [congruence|].
  cbn [length Nat.eqb]. rewrite Hf, load_torn_checkpoint by exact Hw. reflexivity.
Qed.

(** ** The checkpoint after a run *)

Lemma main_loop_checkpoint dry_run docs :
  forall processed w,
    load_checkpoint (checkpoint_file w) = Ok processed ->
    load_checkpoint (checkpoint_file (snd (loop dry_run docs (processed, w)))) =
      Ok (fst (loop dry_run docs (processed, w))).
Proof.
  unfold loop, main_loop.
  induction docs as [|doc docs IH]; intros processed w H; cbn [fold_left]; [exact H|].
  destruct (loop_body_segment perform_hybrid_ner llm_relations dry_run processed w doc)
    as [seg (Hseg & Hp & _ & Hf & Hw)].
  destruct (loop_body perform_hybrid_ner llm_relations dry_run (processed, w) doc)
    as [processed' w1]. cbn [fst snd] in *. apply IH. subst processed'.
  destruct seg as [|ev seg].
  - rewrite (Hw eq_refl), H. f_equal.
    inversion Hseg as [Hn|rid Hr Hin|rid stages es rs Hr Hin Hs Hc Hd Heq].
    + unfold processed_after. now rewrite Hn.
    + unfold processed_after. rewrite Hr. apply set_eq. intros x.
      rewrite elem_of_union, elem_of_singleton. split; [auto|now intros [?| ->]].
    + exfalso. destruct stages; [|discriminate].
      destruct (persists_of dry_run es rs); discriminate.
  - rewrite Hf by discriminate. apply load_save_checkpoint.
Qed.

(** X14.  After a run that starts up, the checkpoint file loads to the set
    it held before together with the ids of all sampled documents: every
    sampled document with an id is recorded, whatever happened to it. *)
Theorem run_checkpoints_sample (dry_run : bool) (now : string) (pick : list nat)
    (documents : list Document) (w w' : world) (processed : gset Z) :
  run dry_run now pick documents w = (Ok tt, w') ->
  load_checkpoint (checkpoint_file w) = Ok processed ->
  load_checkpoint (checkpoint_file w') =
    Ok (processed ∪ ids_of (random_sample pick documents)).
Proof.
  intros H Hl. destruct (random_sample pick documents) as [|doc sample] eqn:Es.
  - rewrite (run_empty perform_hybrid_ner llm_relations) in H by exact Es.
    injection H as <-. rewrite Hl. f_equal. apply set_eq. intros x.
    unfold ids_of. simpl. rewrite elem_of_union, elem_of_empty. tauto.
  - apply run_ok in H; [|rewrite Es; discriminate]. rewrite Es in H.
    destruct H as (processed' & d & Hl' & _ & ->).
    assert (processed' = processed) as -> by congruence.
    destruct (main_loop_segments perform_hybrid_ner llm_relations dry_run (doc :: sample)
                processed
                (estimate perform_hybrid_ner llm_relations
                   (firstn (Nat.min 3 (length (doc :: sample))) (doc :: sample))
                   (with_db w d))) as [evs (_ & _ & Hp)].
    rewrite fold_processed_after in Hp. rewrite <- Hp.
    apply main_loop_checkpoint.
    destruct (estimate_trace perform_hybrid_ner llm_relations
                (firstn (Nat.min 3 (length (doc :: sample))) (doc :: sample))
                (with_db w d)) as [timed (_ & _ & _ & Hf & _)].
    rewrite Hf. exact Hl.
Qed.

(** ** The metrics of one document *)

Let process := process_document perform_hybrid_ner llm_relations.

(** What the three stages give on the text of a document when none of
    them raises: the enriched entities and the relationships. *)
Definition stages_result (doc : Document) (env : MitreStix.mitre_env)
    : option (list ThreatEntity * list ThreatRelationship) :=
  match perform_hybrid_ner (text doc) with
  | Raise _ => None
  | Ok found =>
      match MitreStix.enrich_entities_with_mitre_stix found env with
      | (Raise _, _) => None
      | (Ok enriched, _) =>
          match extract_relationships_llm llm_relations (text doc) enriched with
          | Raise _ => None
          | Ok relationships => Some (enriched, relationships)
          end
      end
  end.

(** One of the three stages raises. *)
Definition stage_raises (doc : Document) (env : MitreStix.mitre_env) : bool :=
  match stages_result doc env with Some _ => false | None => true end.

(** The number of entities the entity extraction returns, 0 when it raises. *)
Definition ner_count (doc : Document) : nat :=
  match perform_hybrid_ner (text doc) with Ok found => length found | Raise _ => 0%nat end.

(** X21.  What [process_document] does to the metrics.  A blank document
    adds one to [empty_texts], changes no other counter, calls no stage
    and returns nothing.  Any other document leaves [empty_texts] alone;
    [malformed_docs] grows by one exactly when one of the three stages
    raises, and then nothing is returned; otherwise what the stages gave
    is returned.  [total_relationships] grows by the number of returned
    relationships.  [total_entities] grows by the number of entities the
    entity extraction returned, which is the number of returned entities
    when no stage raises and is counted all the same when a later stage
    raises. *)
Theorem process_document_accounting (doc : Document) (m : metrics)
    (env : MitreStix.mitre_env) :
  let r := process doc m env in
  let entities := fst (fst (fst r)) in
  let relationships := snd (fst (fst r)) in
  let m' := fst (snd (fst r)) in
  empty_texts m' = (empty_texts m + if non_blank doc then 0 else 1)%nat /\
  malformed_docs m' =
    (malformed_docs m + if non_blank doc && stage_raises doc env then 1 else 0)%nat /\
  total_entities m' = (total_entities m + if non_blank doc then ner_count doc else 0)%nat /\
  total_relationships m' = (total_relationships m + length relationships)%nat /\
  (entities, relationships) =
    (if non_blank doc then default ([], []) (stages_result doc env) else ([], [])) /\
  (non_blank doc = true -> stage_raises doc env = false ->
   length entities = ner_count doc) /\
  (non_blank doc = false -> snd r = [] /\ snd (snd (fst r)) = env).
Proof.
  unfold process, process_document, non_blank, stage_raises, stages_result, ner_count.
  destruct (PyStr.truthy (PyStr.strip (text doc))); cbn [negb andb].
  - destruct (perform_hybrid_ner (text doc)) as [found|e].
    + destruct (MitreStix.enrich_entities_with_mitre_stix found env)
        as [[enriched|e] env'] eqn:Ee.
      * apply MitreMore.enrich_stage_length in Ee.
        destruct (extract_relationships_llm llm_relations (text doc) enriched)
          as [relationships|e]; cbn;
          repeat match goal with |- _ /\ _ => split end;
          try lia; try reflexivity; try discriminate.
      * cbn. repeat match goal with |- _ /\ _ => split end;
          try lia; try reflexivity; discriminate.
    + cbn. repeat match goal with |- _ /\ _ => split end;
        try lia; try reflexivity; discriminate.
  - cbn. repeat match goal with |- _ /\ _ => split end;
      try lia; try reflexivity; try discriminate. auto.
Qed.

(** ** A run over documents that are all in the checkpoint *)

Definition all_checkpointed (processed : gset Z) (docs : list Document) : Prop :=
  forall doc rid, In doc docs -> record_id doc = Some rid -> rid ∈ processed.

Lemma main_loop_all_skipped dry_run docs processed w :
  all_checkpointed processed docs -> loop dry_run docs (processed, w) = (processed, w).
Proof.
  unfold loop, main_loop. induction docs as [|doc docs IH]; intros H; [reflexivity|].
  cbn [fold_left].
  assert (Hb : loop_body perform_hybrid_ner llm_relations dry_run (processed, w) doc
               = (processed, w)).
  { destruct (record_id doc) as [rid|] eqn:Hr.
    - apply loop_body_skip with (rid := rid); [exact Hr|].
      apply (H doc rid); [now left|exact Hr].
    - unfold loop_body. now rewrite Hr. }
  rewrite Hb. apply IH. intros d r Hin. apply H. now right.
Qed.

(** X15.  A run whose sampled documents are all in the loaded checkpoint
    commits nothing: it leaves the checkpoint file and the content of the
    store as they were, and all it adds to the trace are the stage calls of
    its timing pass. *)
Theorem rerun_commits_nothing (dry_run : bool) (now : string) (pick : list nat)
    (documents : list Document) (w w' : world) (processed : gset Z) :
  run dry_run now pick documents w = (Ok tt, w') ->
  load_checkpoint (checkpoint_file w) = Ok processed ->
  all_checkpointed processed (random_sample pick documents) ->
  checkpoint_file w' = checkpoint_file w /\
  Neo4jPersistor.store (w_db w') = Neo4jPersistor.store (w_db w) /\
  exists timed, trace w' = trace w ++ timed /\ forallb is_stage timed = true.
Proof.
  intros H Hl Hall. destruct (random_sample pick documents) as [|doc sample] eqn:Es.
  - rewrite (run_empty perform_hybrid_ner llm_relations) in H by exact Es.
    injection H as <-. split; [reflexivity|]. split; [reflexivity|].
    exists []. now rewrite app_nil_r.
  - apply run_ok in H; [|rewrite Es; discriminate]. rewrite Es in H.
    destruct H as (processed' & d & Hl' & Hc & ->).
    assert (processed' = processed) as -> by congruence.
    fold loop. rewrite main_loop_all_skipped by exact Hall. cbn [snd].
    destruct (estimate_trace perform_hybrid_ner llm_relations
                (firstn (Nat.min 3 (length (doc :: sample))) (doc :: sample))
                (with_db w d)) as [timed (Ht & Hs & _ & Hf & Hd)].
    split; [exact Hf|]. split.
    + rewrite Hd. cbn [with_db w_db]. pose proof (Neo4jMore.connect_store now (w_db w)) as [C _].
      now rewrite Hc in C.
    + exists timed. split; [exact Ht|exact Hs].
Qed.

(** ** Dry runs *)

Lemma loop_body_dry st doc : w_db (snd (body true st doc)) = w_db (snd st).
Proof.
  destruct st as [processed w]. unfold body, loop_body.
  destruct (record_id doc); [|reflexivity].
  destruct (bool_decide _); [reflexivity|].
  destruct (process_document _ _ _ _ _) as [[[es rs] [m env]] evs]. reflexivity.
Qed.

Lemma main_loop_dry docs : forall st, w_db (snd (loop true docs st)) = w_db (snd st).
Proof.
  unfold loop, main_loop. induction docs as [|doc docs IH]; intros st; [reflexivity|].
  cbn [fold_left]. rewrite IH. apply loop_body_dry.
Qed.

Definition no_persist (evs : list event) : bool := forallb (fun ev => negb (is_persist ev)) evs.

Lemma stage_no_persist evs : forallb is_stage evs = true -> no_persist evs = true.
Proof.
  unfold no_persist. induction evs as [|ev evs IH]; simpl; [reflexivity|].
  intros [Hev Hevs]%andb_true_iff. rewrite IH by exact Hevs.
  destruct ev; try discriminate Hev; reflexivity.
Qed.

Lemma no_persist_app evs evs' : no_persist (evs ++ evs') = no_persist evs && no_persist evs'.
Proof. unfold no_persist. apply forallb_app. Qed.

Lemma segments_dry processed docs evs :
  segments true processed docs evs -> no_persist evs = true.
Proof.
  induction 1 as [|processed doc docs seg rest Hseg Hrest IH]; [reflexivity|].
  rewrite no_persist_app, IH, andb_true_r.
  destruct Hseg as [Hn|r Hr Hin|r stages es rs Hr Hin Hs Hc Hd]; try reflexivity.
  rewrite !no_persist_app, (stage_no_persist _ Hs). reflexivity.
Qed.

(** X16.  A dry run makes no persistence attempt and leaves the content of
    the store as it was, yet it writes the checkpoint for every document it
    goes through, as a real run does. *)
Theorem dry_run_still_checkpoints (now : string) (pick : list nat)
    (documents : list Document) (w w' : world) :
  run true now pick documents w = (Ok tt, w') ->
  Neo4jPersistor.store (w_db w') = Neo4jPersistor.store (w_db w) /\
  (Neo4jPersistor.attempts (w_db w') <= Neo4jPersistor.attempts (w_db w) + 2)%nat /\
  exists processed evs,
    (random_sample pick documents = [] \/
     load_checkpoint (checkpoint_file w) = Ok processed) /\
    trace w' = trace w ++ evs /\ no_persist evs = true /\
    checkpoint_saves evs = committed_count processed (random_sample pick documents).
Proof.
  intros H.
  assert (Hdb : Neo4jPersistor.store (w_db w') = Neo4jPersistor.store (w_db w) /\
                (Neo4jPersistor.attempts (w_db w') <= Neo4jPersistor.attempts (w_db w) + 2)%nat).
  { destruct (random_sample pick documents) as [|doc sample] eqn:Es.
    - rewrite (run_empty perform_hybrid_ner llm_relations) in H by exact Es.
      injection H as <-. split; [reflexivity|lia].
    - pose proof H as H'. apply run_ok in H'; [|rewrite Es; discriminate]. rewrite Es in H'.
      destruct H' as (processed & d & _ & Hc & ->).
      fold loop. rewrite main_loop_dry. cbn [snd].
      destruct (estimate_trace perform_hybrid_ner llm_relations
                  (firstn (Nat.min 3 (length (doc :: sample))) (doc :: sample))
                  (with_db w d)) as [timed (_ & _ & _ & _ & Hd)].
      rewrite Hd. cbn [with_db w_db].
      pose proof (Neo4jMore.connect_store now (w_db w)) as C. now rewrite Hc in C. }
  destruct Hdb as [Hst Hat]. split; [exact Hst|]. split; [exact Hat|].
  apply run_trace in H as (processed & timed & evs & Hp & Ht & Hs & _ & Hsegs).
  exists processed, (timed ++ evs). split; [exact Hp|]. split; [exact Ht|]. split.
  - now rewrite no_persist_app, (stage_no_persist _ Hs), (segments_dry _ _ _ Hsegs).
  - now rewrite checkpoint_saves_app, (stage_no_saves _ Hs), (segments_saves _ _ _ _ Hsegs).
Qed.

End Runs.

Lemma rerun_commits_nothing_witness :
  checkpoint_file (snd (second_run [0; 1; 2]%nat)) = checkpoint_file (restart first_run) /\
  Neo4jPersistor.store (w_db (snd (second_run [0; 1; 2]%nat))) =
    Neo4jPersistor.store (w_db (restart first_run)) /\
  exists timed, trace (snd (second_run [0; 1; 2]%nat)) = trace (restart first_run) ++ timed /\
                forallb is_stage timed = true.
Proof.
  apply (rerun_commits_nothing ner_mimikatz llm_nothing false "run-2" [0; 1; 2]%nat
           five_documents (restart first_run) (snd (second_run [0; 1; 2]%nat)) ids_123).
  - vm_compute. reflexivity.
  - vm_compute. reflexivity.
  - intros doc rid [<-|[<-|[<-|[]]]] [= <-]; apply (bool_decide_unpack _); vm_compute; exact I.
Defined.

Definition dry_first_run : world :=
  snd (run_documents ner_mimikatz llm_nothing true "run-1" [0; 1; 2]%nat
                     five_documents start_world).

Lemma dry_run_still_checkpoints_witness :
  Neo4jPersistor.store (w_db dry_first_run) = Neo4jPersistor.store (w_db start_world) /\
  (Neo4jPersistor.attempts (w_db dry_first_run)
   <= Neo4jPersistor.attempts (w_db start_world) + 2)%nat /\
  exists processed evs,
    (random_sample [0; 1; 2]%nat five_documents = [] \/
     load_checkpoint (checkpoint_file start_world) = Ok processed) /\
    trace dry_first_run = trace start_world ++ evs /\ no_persist evs = true /\
    checkpoint_saves evs =
      committed_count processed (random_sample [0; 1; 2]%nat five_documents).
Proof.
  apply (dry_run_still_checkpoints ner_mimikatz llm_nothing "run-1" [0; 1; 2]%nat
           five_documents start_world dry_first_run).
  vm_compute. reflexivity.
Defined.

(** The dry run of the five documents leaves an empty store and a
    checkpoint holding the three sampled ids. *)
Example dry_first_run_state :
  Neo4jPersistor.store (w_db dry_first_run) = Neo4jPersistor.empty_graph /\
  load_checkpoint (checkpoint_file dry_first_run) = Ok ids_123.
Proof. vm_compute. split; reflexivity. Qed.

Lemma run_checkpoints_sample_witness :
  load_checkpoint (checkpoint_file (snd (second_run [0; 3; 4]%nat))) =
    Ok (ids_123 ∪ ids_of (random_sample [0; 3; 4]%nat five_documents)).
Proof.
  apply (run_checkpoints_sample ner_mimikatz llm_nothing false "run-2" [0; 3; 4]%nat
           five_documents (restart first_run)).
  - vm_compute. reflexivity.
  - vm_compute. reflexivity.
Defined.

Lemma torn_checkpoint_blocks_run_witness :
  let w := mkWorld (mkMetrics 0 0 0 0) reference_data Neo4jFacts.fresh_db
                   (checkpoint_file_during_save ids_123 4 None) [] in
  run_documents ner_mimikatz llm_nothing false "run-2" [0; 1; 2]%nat five_documents w
  = (Raise JSONDecodeError, w).
Proof.
  intros w.
  apply (torn_checkpoint_blocks_run ner_mimikatz llm_nothing false "run-2" [0; 1; 2]%nat
           five_documents w ids_123 4 None).
  - discriminate.
  - vm_compute. lia.
  - reflexivity.
Defined.

End ManagerMore.

(** * Facts about the entity filter *)

Module NerFilterMore.
Import Schemas NerExtractor.

Abbreviation Qle := QArith_base.Qle.

Lemma key_eqb_eq (k k' : entity_key) : key_eqb k k' = true <-> k = k'.
Proof.
  destruct k as [a b], k' as [a' b']. unfold key_eqb. cbn [fst snd].
  rewrite andb_true_iff, !String.eqb_eq. split; [intros [-> ->]; reflexivity|].
  intros [= -> ->]. auto.
Qed.

Lemma key_eqb_refl k : key_eqb k k = true.
Proof. now apply key_eqb_eq. Qed.

Lemma key_eqb_neq (k k' : entity_key) : k <> k' -> key_eqb k k' = false.
Proof.
  intros H. destruct (key_eqb k k') eqn:E; [|reflexivity].
  apply key_eqb_eq in E. contradiction.
Qed.

(** ** The dict [seen] *)

Lemma seen_get_in k ent seen : seen_get k seen = Some ent -> In (k, ent) seen.
Proof.
  induction seen as [|[k' old] seen IH]; cbn [seen_get]; [discriminate|].
  destruct (key_eqb k k') eqn:E.
  - apply key_eqb_eq in E as ->. intros [= ->]. now left.
  - intros H. right. auto.
Qed.

Lemma seen_get_none k seen : seen_get k seen = None <-> ~ In k (map fst seen).
Proof.
  induction seen as [|[k' old] seen IH]; cbn [seen_get map fst In]; [tauto|].
  destruct (key_eqb k k') eqn:E.
  - apply key_eqb_eq in E as ->. split; [discriminate|]. intros H. exfalso. auto.
  - rewrite IH. split; [|tauto]. intros H [->|Hin]; [|tauto].
    now rewrite key_eqb_refl in E.
Qed.

Lemma seen_get_set_eq k ent seen : seen_get k (seen_set k ent seen) = Some ent.
Proof.
  induction seen as [|[k' old] seen IH]; cbn [seen_set seen_get].
  - now rewrite key_eqb_refl.
  - destruct (key_eqb k k') eqn:E; cbn [seen_get]; rewrite E; [reflexivity|exact IH].
Qed.

Lemma seen_get_set_ne k k' ent seen :
  k' <> k -> seen_get k' (seen_set k ent seen) = seen_get k' seen.
Proof.
  intros Hne. induction seen as [|[k0 old] seen IH]; cbn [seen_set seen_get].
  - now rewrite (key_eqb_neq _ _ Hne).
  - destruct (key_eqb k k0) eqn:E; cbn [seen_get].
    + apply key_eqb_eq in E as <-. now rewrite (key_eqb_neq _ _ Hne).
    + destruct (key_eqb k' k0); [reflexivity|exact IH].
Qed.

Lemma seen_set_fresh k ent seen :
  ~ In k (map fst seen) -> seen_set k ent seen = seen ++ [(k, ent)].
Proof.
  induction seen as [|[k' old] seen IH]; cbn [seen_set map fst In app]; [reflexivity|].
  intros H. rewrite key_eqb_neq by (intros ->; tauto). rewrite IH by tauto. reflexivity.
Qed.

Lemma seen_set_keys k ent seen :
  In k (map fst seen) -> map fst (seen_set k ent seen) = map fst seen.
Proof.
  induction seen as [|[k' old] seen IH]; cbn [seen_set map fst In]; [tauto|].
  intros H. destruct (key_eqb k k') eqn:E; [reflexivity|].
  cbn [map fst]. rewrite IH; [reflexivity|].
  destruct H as [->|H]; [|exact H]. now rewrite key_eqb_refl in E.
Qed.

Lemma in_seen_set k ent seen k' e' :
  In (k', e') (seen_set k ent seen) -> (k', e') = (k, ent) \/ In (k', e') seen.
Proof.
  induction seen as [|[k0 old] seen IH]; cbn [seen_set].
  - intros [H|[]]. now left.
  - destruct (key_eqb k k0) eqn:E.
    + apply key_eqb_eq in E as <-. intros [H|H]; [now left|right; now right].
    + intros [H|H]; [right; now left|]. destruct (IH H); [now left|right; now right].
Qed.

(** ** The loop *)

(** The key under which an entity is filed. *)
Definition key_of (ent : ThreatEntity) : entity_key :=
  (PyStr.lower (name ent), default "" (ety ent)).

Section Filter.
Variable min_confidence : Q.
Variable exclude_short_names : bool.

(** An entity goes through the three tests. *)
Definition passes (ent : ThreatEntity) : bool :=
  negb (low_confidence min_confidence ent)
  && negb (short_name exclude_short_names ent)
  && negb (noisy ent).

Let step := filter_step min_confidence exclude_short_names.
Let loop := filter_loop min_confidence exclude_short_names.

(** The dict after the entities [done]. *)
Record seen_inv (done : list ThreatEntity) (seen : seen_map) : Prop := {
  inv_keys : List.NoDup (map fst seen);
  inv_entries : forall k ent, In (k, ent) seen ->
    In ent done /\ passes ent = true /\ ety ent <> None /\ k = key_of ent;
  inv_best : forall ent, In ent done -> passes ent = true ->
    exists best, seen_get (key_of ent) seen = Some best /\
                 Qle (or_zero (confidence ent)) (or_zero (confidence best))
}.

Lemma seen_inv_init : seen_inv [] [].
Proof. split; [constructor|intros k ent []|intros ent []]. Qed.

Lemma lt_true a b : lt a b = true -> Qle a b.
Proof.
  unfold lt. intros H. apply negb_true_iff in H. apply QArith_base.Qlt_le_weak.
  apply QArith_base.Qnot_le_lt. intros Hle. apply QArith_base.Qle_bool_iff in Hle. congruence.
Qed.

Lemma lt_false a b : lt a b = false -> Qle b a.
Proof.
  unfold lt. intros H. apply negb_false_iff in H. now apply QArith_base.Qle_bool_iff.
Qed.

Lemma step_skips seen ent :
  passes ent = false -> ety ent <> None -> step seen ent = Ok seen.
Proof.
  unfold step, filter_step, passes. intros Hp Ht.
  destruct (ety ent); [|congruence].
  destruct (low_confidence _ ent); [reflexivity|].
  destruct (short_name _ ent); [reflexivity|].
  destruct (noisy ent); [reflexivity|discriminate Hp].
Qed.

Lemma step_passes seen ent :
  passes ent = true -> ety ent <> None ->
  step seen ent =
  match seen_get (key_of ent) seen with
  | None => Ok (seen_set (key_of ent) ent seen)
  | Some old =>
      if lt (or_zero (confidence old)) (or_zero (confidence ent))
      then Ok (seen_set (key_of ent) ent seen) else Ok seen
  end.
Proof.
  unfold step, filter_step, passes, key_of. intros Hp Ht.
  destruct (ety ent); [|congruence]. cbn [default].
  destruct (low_confidence _ ent); [discriminate Hp|].
  destruct (short_name _ ent); [discriminate Hp|].
  destruct (noisy ent); [discriminate Hp|reflexivity].
Qed.

Lemma step_untyped seen ent : ety ent = None -> step seen ent = Raise AttributeError.
Proof. unfold step, filter_step. now intros ->. Qed.

Lemma seen_inv_skip done seen ent :
  seen_inv done seen -> passes ent = false -> seen_inv (done ++ [ent]) seen.
Proof.
  intros [K E B] Hp. split; [exact K| |].
  - intros k e Hin. destruct (E k e Hin) as (H1 & H2). split; [|exact H2].
    apply in_or_app. now left.
  - intros e Hin He. apply in_app_or in Hin as [Hin|[<-|[]]]; [now apply B|congruence].
Qed.

Lemma seen_inv_set done seen ent :
  seen_inv done seen -> passes ent = true -> ety ent <> None ->
  (forall old, seen_get (key_of ent) seen = Some old ->
               Qle (or_zero (confidence old)) (or_zero (confidence ent))) ->
  seen_inv (done ++ [ent]) (seen_set (key_of ent) ent seen).
Proof.
  intros [K E B] Hp Ht Hold. split.
  - destruct (seen_get (key_of ent) seen) as [old|] eqn:G.
    + rewrite seen_set_keys; [exact K|].
      apply seen_get_in in G. apply (in_map fst) in G. exact G.
    + apply seen_get_none in G. rewrite seen_set_fresh by exact G.
      rewrite map_app. cbn [map fst].
      apply List.NoDup_app; [exact K|constructor; [intros []|constructor]|].
      intros k Hk [<-|[]]. contradiction.
  - intros k e Hin. apply in_seen_set in Hin as [[= -> ->]|Hin].
    + split; [apply in_or_app; right; now left|auto].
    + destruct (E k e Hin) as (H1 & H2). split; [apply in_or_app; now left|exact H2].
  - intros e Hin He.
    destruct (decide (key_of e = key_of ent)) as [Hk|Hk].
    + rewrite Hk, seen_get_set_eq. exists ent. split; [reflexivity|].
      apply in_app_or in Hin as [Hin|[<-|[]]]; [|apply QArith_base.Qle_refl].
      destruct (B e Hin He) as [best [Hg Hle]]. rewrite Hk in Hg.
      eapply QArith_base.Qle_trans; [exact Hle|]. now apply Hold.
    + rewrite seen_get_set_ne by exact Hk.
      apply in_app_or in Hin as [Hin|[<-|[]]]; [now apply B|congruence].
Qed.

Lemma seen_inv_keep done seen ent old :
  seen_inv done seen -> passes ent = true ->
  seen_get (key_of ent) seen = Some old ->
  Qle (or_zero (confidence ent)) (or_zero (confidence old)) ->
  seen_inv (done ++ [ent]) seen.
Proof.
  intros [K E B] Hp Hg Hle. split; [exact K| |].
  - intros k e Hin. destruct (E k e Hin) as (H1 & H2). split; [|exact H2].
    apply in_or_app. now left.
  - intros e Hin He. apply in_app_or in Hin as [Hin|[<-|[]]]; [now apply B|].
    exists old. auto.
Qed.

Lemma seen_inv_step done seen ent seen' :
  seen_inv done seen -> step seen ent = Ok seen' -> seen_inv (done ++ [ent]) seen'.
Proof.
  intros I H. destruct (ety ent) as [t|] eqn:Et;
    [|rewrite step_untyped in H by exact Et; discriminate].
  assert (Ht : ety ent <> None) by congruence.
  destruct (passes ent) eqn:Hp.
  - rewrite step_passes in H by assumption.
    destruct (seen_get (key_of ent) seen) as [old|] eqn:G.
    + destruct (lt _ _) eqn:L; injection H as <-.
      * apply seen_inv_set; try assumption. intros old' Ho. rewrite G in Ho.
        injection Ho as <-. now apply lt_true.
      * eapply seen_inv_keep; try eassumption. now apply lt_false.
    + injection H as <-. apply seen_inv_set; try assumption.
      intros old' Ho. rewrite G in Ho. discriminate Ho.
  - rewrite step_skips in H by assumption. injection H as <-. now apply seen_inv_skip.
Qed.

Lemma seen_inv_loop entities :
  forall done seen seen',
    seen_inv done seen -> loop entities seen = Ok seen' -> seen_inv (done ++ entities) seen'.
Proof.
  induction entities as [|ent entities IH]; intros done seen seen' I H.
  - injection H as <-. now rewrite app_nil_r.
  - cbn [loop filter_loop] in H. fold step in H. destruct (step seen ent) as [seen1|e] eqn:Es;
      [|discriminate].
    replace (done ++ ent :: entities) with ((done ++ [ent]) ++ entities)
      by (now rewrite <- app_assoc).
    eapply IH; [|exact H]. eapply seen_inv_step; eassumption.
Qed.

(** The loop returns exactly when every entity has a type. *)
Lemma loop_typed entities :
  forall seen,
    match loop entities seen with
    | Ok _ => List.Forall (fun ent => ety ent <> None) entities
    | Raise e => e = AttributeError /\ List.Exists (fun ent => ety ent = None) entities
    end.
Proof.
  induction entities as [|ent entities IH]; intros seen; cbn [loop filter_loop].
  - constructor.
  - fold step. destruct (ety ent) as [t|] eqn:Et.
    + assert (Ht : ety ent <> None) by congruence.
      assert (Hs : exists seen1, step seen ent = Ok seen1).
      { destruct (passes ent) eqn:Hp.
        - rewrite step_passes by assumption.
          destruct (seen_get _ seen); [destruct (lt _ _)|]; eauto.
        - rewrite step_skips by assumption. eauto. }
      destruct Hs as [seen1 ->]. specialize (IH seen1). fold loop.
      destruct (loop entities seen1) as [seen2|e].
      * now constructor.
      * destruct IH as [-> IH]. split; [reflexivity|]. now apply List.Exists_cons_tl.
    + rewrite step_untyped by exact Et. split; [reflexivity|]. now apply List.Exists_cons_hd.
Qed.

Lemma map_key_of_entries (seen : seen_map) :
  (forall k ent, In (k, ent) seen -> k = key_of ent) ->
  map key_of (map snd seen) = map fst seen.
Proof.
  induction seen as [|[k ent] seen IH]; intros H; [reflexivity|].
  cbn [map fst snd]. rewrite IH by (intros k' e' Hin; apply H; now right).
  now rewrite <- (H k ent (or_introl eq_refl)).
Qed.

(** X22.  [filter_and_deduplicate_entities] returns exactly when every
    entity has a type, and raises [AttributeError] otherwise, even when
    the untyped entity would have been filtered out.  What it returns are
    entities of the input that pass the three tests (confidence absent or
    at least [min_confidence], name longer than two characters when short
    names are excluded, lower-cased name not a noisy token), and no two of
    them have the same lower-cased name and type. *)
Theorem dedup_output (entities : list ThreatEntity) :
  match filter_and_deduplicate_entities entities min_confidence exclude_short_names with
  | Ok kept =>
      List.Forall (fun ent => ety ent <> None) entities /\
      List.NoDup (map key_of kept) /\
      forall ent, In ent kept -> In ent entities /\ passes ent = true
  | Raise e =>
      e = AttributeError /\ List.Exists (fun ent => ety ent = None) entities
  end.
Proof.
  unfold filter_and_deduplicate_entities. pose proof (loop_typed entities []) as T.
  fold loop. destruct (loop entities []) as [seen|e] eqn:El; [|exact T].
  destruct (seen_inv_loop entities [] [] seen seen_inv_init El) as [K E _].
  split; [exact T|]. split.
  - rewrite map_key_of_entries; [exact K|]. intros k ent Hin. now apply E.
  - intros ent Hin. apply in_map_iff in Hin as [[k e] [<- Hin]].
    destruct (E k e Hin) as (H1 & H2 & _). auto.
Qed.

(** X23.  Every entity of the input that passes the tests is represented
    in the output of [filter_and_deduplicate_entities]: by an entity with
    the same lower-cased name and type whose confidence (0 when absent) is
    at least its own. *)
Theorem dedup_keeps_best (entities kept : list ThreatEntity) (ent : ThreatEntity) :
  filter_and_deduplicate_entities entities min_confidence exclude_short_names = Ok kept ->
  In ent entities -> passes ent = true ->
  exists best, In best kept /\ key_of best = key_of ent /\
               Qle (or_zero (confidence ent)) (or_zero (confidence best)).
Proof.
  unfold filter_and_deduplicate_entities. fold loop.
  destruct (loop entities []) as [seen|e] eqn:El; [|discriminate]. intros [= <-] Hin Hp.
  destruct (seen_inv_loop entities [] [] seen seen_inv_init El) as [_ E B].
  destruct (B ent Hin Hp) as [best [Hg Hle]]. apply seen_get_in in Hg.
  exists best. split; [|split; [|exact Hle]].
  - apply in_map_iff. exists (key_of ent, best). auto.
  - destruct (E _ _ Hg) as (_ & _ & _ & Hk). now rewrite <- Hk.
Qed.

Lemma loop_replay (added : seen_map) :
  forall seen,
    List.NoDup (map fst (seen ++ added)) ->
    (forall k ent, In (k, ent) added ->
       passes ent = true /\ ety ent <> None /\ k = key_of ent) ->
    loop (map snd added) seen = Ok (seen ++ added).
Proof.
  induction added as [|[k ent] added IH]; intros seen Hn Ha.
  - now rewrite app_nil_r.
  - cbn [map snd loop filter_loop]. fold step.
    destruct (Ha k ent (or_introl eq_refl)) as (Hp & Ht & ->).
    rewrite step_passes by assumption.
    assert (Hfresh : ~ In (key_of ent) (map fst seen)).
    { rewrite map_app in Hn. cbn [map fst] in Hn. apply List.NoDup_remove_2 in Hn.
      intros Hin. apply Hn. apply in_or_app. now left. }
    pose proof Hfresh as G. apply seen_get_none in G. rewrite G.
    rewrite seen_set_fresh by exact Hfresh. fold loop.
    rewrite IH.
    + now rewrite <- app_assoc.
    + now rewrite <- app_assoc.
    + intros k' e' Hin. apply Ha. now right.
Qed.

(** X24.  [filter_and_deduplicate_entities] is idempotent: applied to its
    own output, with the same arguments, it returns that output, in the
    same order. *)
Theorem dedup_idempotent (entities kept : list ThreatEntity) :
  filter_and_deduplicate_entities entities min_confidence exclude_short_names = Ok kept ->
  filter_and_deduplicate_entities kept min_confidence exclude_short_names = Ok kept.
Proof.
  unfold filter_and_deduplicate_entities. fold loop.
  destruct (loop entities []) as [seen|e] eqn:El; [|discriminate]. intros [= <-].
  destruct (seen_inv_loop entities [] [] seen seen_inv_init El) as [K E _].
  rewrite (loop_replay seen []); [reflexivity|exact K|].
  intros k ent Hin. destruct (E k ent Hin) as (_ & H). exact H.
Qed.

End Filter.

(** ** A sample *)

Definition conf (n : Z) : option Q := Some (QArith_base.Qmake n 100).

Definition found (nm ty : string) (c : option Q) : ThreatEntity :=
  mkEntity nm (Some ty) (Some nm) c None None (Some []).

(** Two sightings of one tool with different confidence, one entity below
    the default threshold, a short name, a noisy token and an entity
    without confidence. *)
Definition sightings : list ThreatEntity :=
  [found "mimikatz" "tool" (conf 80); found "apt29" "threat_actor" (conf 60);
   found "mimikatz" "tool" (conf 95); found "ps" "tool" (conf 99);
   found "the" "malware" (conf 99); found "emotet" "malware" None].

Definition kept_sightings : list ThreatEntity :=
  [found "mimikatz" "tool" (conf 95); found "emotet" "malware" None].

Lemma dedup_keeps_best_witness :
  exists best, In best kept_sightings /\
               key_of best = key_of (found "mimikatz" "tool" (conf 80)) /\
               Qle (or_zero (conf 80)) (or_zero (confidence best)).
Proof.
  apply (dedup_keeps_best default_min_confidence default_exclude_short_names
           sightings kept_sightings (found "mimikatz" "tool" (conf 80))).
  - vm_compute. reflexivity.
  - simpl. auto.
  - vm_compute. reflexivity.
Defined.

Lemma dedup_idempotent_witness :
  filter_and_deduplicate_entities kept_sightings default_min_confidence
                                  default_exclude_short_names = Ok kept_sightings.
Proof.
  apply (dedup_idempotent default_min_confidence default_exclude_short_names sightings).
  vm_compute. reflexivity.
Defined.

End NerFilterMore.

(** * Facts about the labels and the entity extraction *)

Module NerExtractMore.
Import Schemas SchemaLabels NerExtractor.

Lemma value_truthy t : PyStr.truthy (value t) = true.
Proof. destruct t; reflexivity. Qed.

(** X25.  Whatever label [map_entity_label] is given, what it returns is
    the value of a member of [EntityType], is not empty, and is itself a
    label that it maps to itself; no label at all is mapped to
    "vulnerability", although that is a member's value.  The empty label
    is mapped to nothing. *)
Theorem label_mapping_closed (label : string) :
  match map_entity_label label with
  | Some v =>
      label <> "" /\ PyStr.truthy v = true /\
      (exists t, v = value t /\ t <> VULNERABILITY) /\
      map_entity_label v = Some v
  | None => True
  end.
Proof.
  unfold map_entity_label. destruct label as [|a label]; cbn [PyStr.truthy negb]; [exact I|].
  unfold mapping. cbn [dict_get].
  repeat match goal with
         | |- context [String.eqb ?x ?k] =>
             destruct (String.eqb x k);
             [cbn [option_map]; split; [discriminate|]; split; [reflexivity|];
              split; [eexists; split; [reflexivity|discriminate]|reflexivity]|]
         end.
  exact I.
Qed.

(** ** Case and whitespace of names *)

Lemma lower_char_idem a : PyStr.lower_char (PyStr.lower_char a) = PyStr.lower_char a.
Proof. destruct a as [[] [] [] [] [] [] [] []]; reflexivity. Qed.

Lemma lower_idem s : PyStr.lower (PyStr.lower s) = PyStr.lower s.
Proof.
  induction s as [|a s IH]; cbn [PyStr.lower]; [reflexivity|].
  now rewrite lower_char_idem, IH.
Qed.

Lemma name_new_entity nm ty txt c d :
  name (new_entity nm ty txt c d) = PyStr.lower (PyStr.strip nm) /\
  ety (new_entity nm ty txt c d) = Some ty.
Proof. split; reflexivity. Qed.

(** ** The two loops of [extract_entities] *)

(** The name and type of an entity. *)
Definition pair_of (ent : ThreatEntity) : string * option string := (name ent, ety ent).

Lemma existsb_key_false key seen :
  existsb (key_eqb key) seen = false -> ~ In key seen.
Proof.
  intros H Hin. assert (Ht : existsb (key_eqb key) seen = true).
  { apply existsb_exists. exists key. split; [exact Hin|].
    now apply NerFilterMore.key_eqb_eq. }
  congruence.
Qed.

(** The state of the loops: the entities built so far have a non-empty
    type and a lower-case name, are filed in [seen_entities] under that
    name and type, and no two of them agree on both. *)
Record ner_inv (st : ner_state) : Prop := {
  inv_distinct : List.NoDup (map pair_of (entities st));
  inv_filed : forall ent, In ent (entities st) ->
    exists ty, ety ent = Some ty /\ PyStr.truthy ty = true /\
               PyStr.lower (name ent) = name ent /\
               In (name ent, ty) (seen_entities st)
}.

Lemma ner_inv_init : ner_inv (mkNerState [] [] []).
Proof. split; [constructor|intros ent []]. Qed.

Lemma ner_inv_spans st spans :
  ner_inv st -> ner_inv (mkNerState (entities st) spans (seen_entities st)).
Proof. intros [D F]. split; assumption. Qed.

Lemma ner_inv_add st spans ent ty :
  ner_inv st -> ety ent = Some ty -> PyStr.truthy ty = true ->
  PyStr.lower (name ent) = name ent ->
  ~ In (name ent, ty) (seen_entities st) ->
  ner_inv (mkNerState (entities st ++ [ent]) spans ((name ent, ty) :: seen_entities st)).
Proof.
  intros [D F] Ht Hty Hl Hnew. split; cbn [entities seen_entities].
  - rewrite map_app. cbn [map].
    apply List.NoDup_app; [exact D|constructor; [intros []|constructor]|].
    intros p Hp [<-|[]]. apply in_map_iff in Hp as [old [Hold Hin]].
    destruct (F old Hin) as (ty' & Ht' & _ & _ & Hs). unfold pair_of in Hold.
    injection Hold as Hn He. rewrite Ht, Ht' in He. injection He as ->.
    rewrite Hn in Hs. contradiction.
  - intros e Hin. apply in_app_or in Hin as [Hin|[<-|[]]].
    + destruct (F e Hin) as (ty' & H1 & H2 & H3 & H4). exists ty'.
      repeat (split; [assumption|]). now right.
    + exists ty. repeat (split; [assumption|]). now left.
Qed.

Section Extract.
Variable non_word : string -> bool.
Variable regex_matches : string -> list (string * EntityType * Q).

Lemma ner_inv_ner_step text st ent :
  ner_inv st -> ner_inv (ner_step non_word text st ent).
Proof.
  intros I. unfold ner_step. destruct ent as [|d]; [exact I|].
  destruct (opt_or (entity_group d) (entity d)) as [group|]; [|exact I].
  destruct (start d) as [s|]; [|exact I]. destruct (end_ d) as [e|]; [|exact I].
  destruct (map_entity_label group) as [entity_type|]; [|exact I].
  destruct (PyStr.truthy entity_type) eqn:Hty; cbn [negb]; [|exact I].
  destruct (existsb _ (seen_spans st)); [exact I|].
  destruct (_ || _); [now apply ner_inv_spans|].
  destruct (existsb _ (seen_entities st)) eqn:Hs; [now apply ner_inv_spans|].
  set (entity_name := PyStr.strip (String.substring s (e - s) text)) in *.
  set (new := new_entity entity_name entity_type entity_name (score d) (Some "")).
  assert (Hn : name new = PyStr.lower entity_name).
  { unfold new, new_entity, entity_name. cbn [name].
    now rewrite IngestionMore.strip_idem. }
  rewrite <- Hn. apply ner_inv_add; try assumption; try reflexivity.
  - rewrite Hn. apply lower_idem.
  - rewrite Hn. now apply existsb_key_false.
Qed.

Lemma ner_inv_regex_step st ent :
  ner_inv st -> PyStr.lower (name ent) = name ent ->
  (forall ty, ety ent = Some ty -> PyStr.truthy ty = true) ->
  ner_inv (regex_step st ent).
Proof.
  intros I Hl Hty. unfold regex_step. destruct (ety ent) as [ty|] eqn:Et; [|exact I].
  rewrite Hl. destruct (existsb _ (seen_entities st)) eqn:Hs; [exact I|].
  apply ner_inv_add; try assumption; [now apply Hty|now apply existsb_key_false].
Qed.

Lemma ner_inv_fold_ner text results :
  forall st, ner_inv st -> ner_inv (fold_left (ner_step non_word text) results st).
Proof.
  induction results as [|r results IH]; intros st I; [exact I|].
  cbn [fold_left]. apply IH. now apply ner_inv_ner_step.
Qed.

Lemma ner_inv_fold_regex found :
  List.Forall (fun ent => PyStr.lower (name ent) = name ent /\
                          forall ty, ety ent = Some ty -> PyStr.truthy ty = true) found ->
  forall st, ner_inv st -> ner_inv (fold_left regex_step found st).
Proof.
  induction 1 as [|ent found [Hl Hty] _ IH]; intros st I; [exact I|].
  cbn [fold_left]. apply IH. now apply ner_inv_regex_step.
Qed.

Lemma regex_entities_normal text :
  List.Forall (fun ent => PyStr.lower (name ent) = name ent /\
                          forall ty, ety ent = Some ty -> PyStr.truthy ty = true)
              (extract_regex_entities regex_matches text).
Proof.
  unfold extract_regex_entities. apply List.Forall_forall. intros ent Hin.
  apply in_map_iff in Hin as [[[matched ent_type] c] [<- _]]. split.
  - cbn [new_entity name]. apply lower_idem.
  - cbn [new_entity ety]. intros ty [= <-]. apply value_truthy.
Qed.

(** X26.  [extract_entities] never returns two entities with the same
    name and type, whatever the pipeline and the patterns find; every
    entity it returns has a lower-case name and a non-empty type, so that
    the MITRE enrichment never raises on what it returns. *)
Theorem extracted_entities_distinct (ner_results : list ner_result) (text : string)
    (data : MitreStix.mitre_data) :
  let found := extract_entities non_word regex_matches ner_results text in
  List.NoDup (map pair_of found) /\
  List.Forall (fun ent => PyStr.lower (name ent) = name ent /\
                          exists ty, ety ent = Some ty /\ ty <> "") found /\
  is_ok (MitreStix.enrich_all data found) = true.
Proof.
  intros found.
  assert (I : ner_inv (fold_left regex_step (extract_regex_entities regex_matches text)
                         (fold_left (ner_step non_word text) ner_results
                                    (mkNerState [] [] [])))).
  { apply ner_inv_fold_regex; [apply regex_entities_normal|].
    apply ner_inv_fold_ner, ner_inv_init. }
  destruct I as [D F]. fold (extract_entities non_word regex_matches ner_results text) in D, F.
  fold found in D, F. split; [exact D|].
  assert (T : List.Forall (fun ent => PyStr.lower (name ent) = name ent /\
                                      exists ty, ety ent = Some ty /\ ty <> "") found).
  { apply List.Forall_forall. intros ent Hin.
    destruct (F ent Hin) as (ty & H1 & H2 & H3 & _). split; [exact H3|].
    exists ty. split; [exact H1|]. intros ->. discriminate H2. }
  split; [exact T|].
  destruct (MitreFacts.enrich_all_names data found) as [enriched [-> _]]; [|reflexivity].
  eapply List.Forall_impl; [|exact T]. intros ent [_ (ty & -> & _)]. discriminate.
Qed.

End Extract.

End NerExtractMore.

(** * Facts about the relation extraction *)

Module RelationMore.
Import RelationExtractor.

Section Client.
Variable relation : Type.
Variable extract_json_array : string -> option (list relation).
Variable _call_api : nat -> api_outcome.

Let attempts := attempts_from relation extract_json_array _call_api.

(** What an attempt yields: the array parsed from a non-empty response. *)
Definition usable (attempt : nat) : option (list relation) :=
  match _call_api attempt with
  | ApiReturn (Some response_text) =>
      if PyStr.truthy response_text then extract_json_array response_text else None
  | _ => None
  end.

Definition raises (attempt : nat) : bool :=
  match _call_api attempt with ApiRaise => true | _ => false end.

(** The attempts followed by a sleep: those that raise, the last apart. *)
Definition slept (max_retries attempt : nat) : bool :=
  raises attempt && (attempt <? max_retries)%nat.

Lemma attempts_unfold max_retries attempt remaining eff :
  attempts max_retries attempt (S remaining) eff =
  match usable attempt with
  | Some relations => (Some relations, mkEffort (S (calls eff)) (sleeps eff))
  | None =>
      attempts max_retries (S attempt) remaining
        (mkEffort (S (calls eff))
                  (if slept max_retries attempt then S (sleeps eff) else sleeps eff))
  end.
Proof.
  unfold attempts, usable, slept, raises. cbn [attempts_from calls sleeps].
  destruct (_call_api attempt) as [|[response_text|]]; cbn [andb].
  - destruct (attempt <? max_retries)%nat; reflexivity.
  - destruct (PyStr.truthy response_text); cbn [negb]; [|reflexivity].
    destruct (extract_json_array response_text); reflexivity.
  - reflexivity.
Qed.

Lemma usable_not_raised attempt relations :
  usable attempt = Some relations -> raises attempt = false.
Proof. unfold usable, raises. destruct (_call_api attempt); [discriminate|reflexivity]. Qed.

Lemma attempts_outcome max_retries remaining :
  forall attempt eff,
    exists made,
      calls (snd (attempts max_retries attempt remaining eff)) = (calls eff + made)%nat /\
      (made <= remaining)%nat /\
      sleeps (snd (attempts max_retries attempt remaining eff)) =
        (sleeps eff + length (List.filter (slept max_retries) (seq attempt made)))%nat /\
      match fst (attempts max_retries attempt remaining eff) with
      | Some relations =>
          (1 <= made)%nat /\ usable (attempt + made - 1) = Some relations /\
          forall i, (attempt <= i < attempt + made - 1)%nat -> usable i = None
      | None =>
          made = remaining /\
          forall i, (attempt <= i < attempt + remaining)%nat -> usable i = None
      end.
Proof.
  induction remaining as [|remaining IH]; intros attempt eff.
  - exists 0%nat. cbn. repeat split; lia.
  - rewrite attempts_unfold. destruct (usable attempt) as [relations|] eqn:Eu.
    + exists 1%nat. cbn [fst snd calls sleeps seq List.filter].
      unfold slept. rewrite (usable_not_raised _ _ Eu). cbn [andb length].
      split; [lia|]. split; [lia|]. split; [lia|]. split; [lia|]. split.
      * replace (attempt + 1 - 1)%nat with attempt by lia. exact Eu.
      * intros i Hi. lia.
    + destruct (IH (S attempt)
                  (mkEffort (S (calls eff))
                            (if slept max_retries attempt then S (sleeps eff)
                             else sleeps eff)))
        as (made & Hc & Hm & Hs & Hr).
      exists (S made). cbn [calls sleeps] in Hc, Hs. split; [lia|]. split; [lia|]. split.
      * rewrite Hs. cbn [seq List.filter].
        destruct (slept max_retries attempt); cbn [length]; lia.
      * destruct (fst (attempts max_retries (S attempt) remaining _)) as [relations|].
        -- destruct Hr as (H1 & H2 & H3). split; [lia|]. split.
           ++ replace (attempt + S made - 1)%nat with (S attempt + made - 1)%nat by lia.
              exact H2.
           ++ intros i Hi. destruct (Nat.eq_dec i attempt) as [->|Hne]; [exact Eu|].
              apply H3. lia.
        -- destruct Hr as (H1 & H2). split; [lia|].
           intros i Hi. destruct (Nat.eq_dec i attempt) as [->|Hne]; [exact Eu|].
           apply H2. lia.
Qed.

Lemma filter_slept_bound max_retries made :
  (length (List.filter (slept max_retries) (seq 1 made)) <= max_retries - 1)%nat.
Proof.
  assert (H : (length (List.filter (slept max_retries) (seq 1 made))
               <= Nat.min made (max_retries - 1))%nat).
  { induction made as [|n IH]; [cbn; lia|].
    rewrite seq_S, List.filter_app, length_app. cbn [List.filter plus].
    unfold slept at 2. destruct (S n <? max_retries)%nat eqn:E.
    - apply Nat.ltb_lt in E. destruct (raises (S n)); cbn [andb length]; lia.
    - rewrite andb_false_r. cbn [length]. lia. }
  lia.
Qed.

(** X27.  [extract_relations] returns the array parsed from the first
    response, among at most [max_retries] calls, that is not empty and
    holds an array; it calls again after a call that raises, returns
    nothing or returns text without an array, and returns [None] after
    [max_retries] such calls.  It makes no call after the one it
    returns from, and sleeps once after every call that raises except the
    last allowed one, so at most [max_retries - 1] times. *)
Theorem extract_relations_outcome (max_retries : nat) :
  let r := extract_relations relation extract_json_array _call_api max_retries in
  let made := calls (snd r) in
  (made <= max_retries)%nat /\
  match fst r with
  | Some relations =>
      (1 <= made)%nat /\ usable made = Some relations /\
      forall i, (1 <= i < made)%nat -> usable i = None
  | None =>
      made = max_retries /\ forall i, (1 <= i <= max_retries)%nat -> usable i = None
  end /\
  sleeps (snd r) = length (List.filter (slept max_retries) (seq 1 made)) /\
  (sleeps (snd r) <= max_retries - 1)%nat.
Proof.
  unfold extract_relations. fold attempts.
  destruct (attempts_outcome max_retries max_retries 1 (mkEffort 0 0))
    as (made & Hc & Hm & Hs & Hr).
  cbn [calls sleeps plus] in Hc, Hs. cbn zeta. rewrite Hc, Hs.
  split; [exact Hm|].
  split; [|split; [reflexivity|apply filter_slept_bound]].
  destruct (fst (attempts max_retries 1 max_retries (mkEffort 0 0))) as [relations|].
  - destruct Hr as (H1 & H2 & H3). split; [exact H1|]. split.
    + replace (1 + made - 1)%nat with made in H2 by lia. exact H2.
    + intros i Hi. apply H3. lia.
  - destruct Hr as (-> & H2). split; [reflexivity|]. intros i Hi. apply H2. lia.
Qed.

End Client.

End RelationMore.

(** * The pipeline on an archive *)

Module PipelineMore.
Import Schemas Ingestion Manager ManagerFacts.

(** ** The sample of an archive *)

Lemma random_sample_total pick (documents : list Document) :
  forallb (fun i => Nat.ltb i (length documents)) pick = true ->
  length (random_sample pick documents) = length pick.
Proof.
  induction pick as [|i pick IH]; [reflexivity|]. cbn [forallb].
  intros [Hi Hp]%andb_true_iff. rewrite random_sample_cons.
  apply Nat.ltb_lt in Hi. destruct (lookup_lt_is_Some_2 documents i Hi) as [doc ->].
  cbn [length]. now rewrite IH.
Qed.

Lemma record_ids_some (docs : list Document) :
  (forall doc, In doc docs -> record_id doc <> None) ->
  map record_id docs = map Some (omap record_id docs).
Proof.
  induction docs as [|doc docs IH]; intros H; [reflexivity|].
  cbn [map omap list_omap]. destruct (record_id doc) as [rid|] eqn:E.
  - cbn [map]. f_equal. apply IH. intros d Hin. apply H. now right.
  - exfalso. apply (H doc); [now left|exact E].
Qed.

Lemma nodup_some_inv (ids : list Z) : List.NoDup (map Some ids) -> List.NoDup ids.
Proof. apply List.NoDup_map_inv. Qed.

(** With ids that are all present and distinct, the loop commits the
    documents whose id is not in the checkpoint it starts from. *)
Lemma committed_count_distinct sample :
  forall ids processed,
    map record_id sample = map Some ids -> List.NoDup ids ->
    committed_count processed sample =
    length (List.filter (fun rid => negb (bool_decide (rid ∈ processed))) ids).
Proof.
  induction sample as [|doc sample IH]; intros ids processed Hm Hn.
  - destruct ids; [reflexivity|discriminate].
  - destruct ids as [|rid ids]; [discriminate|]. cbn [map] in Hm.
    injection Hm as Hr Hm. apply List.NoDup_cons_iff in Hn as [Hnew Hn].
    cbn [committed_count List.filter]. rewrite Hr.
    rewrite (IH ids _ Hm Hn). unfold processed_after. rewrite Hr.
    assert (Hf : List.filter (fun r => negb (bool_decide (r ∈ processed ∪ {[rid]}))) ids =
                 List.filter (fun r => negb (bool_decide (r ∈ processed))) ids).
    { apply List.filter_ext_in. intros r Hin. f_equal. apply bool_decide_ext.
      rewrite elem_of_union, elem_of_singleton. split; [|auto].
      intros [H| ->]; [exact H|contradiction]. }
    rewrite Hf. destruct (bool_decide (rid ∈ processed)); cbn [negb length]; lia.
Qed.

Section Pipeline.
Variable perform_hybrid_ner : string -> result (list ThreatEntity).
Variable llm_relations : string -> list ThreatEntity -> result (list ThreatRelationship).

Let run := run_documents perform_hybrid_ner llm_relations.

Lemma run_checkpoint_after dry_run now pick documents w w' processed :
  run dry_run now pick documents w = (Ok tt, w') ->
  load_checkpoint (checkpoint_file w) = Ok processed ->
  load_checkpoint (checkpoint_file w') =
    Ok (processed ∪ ManagerMore.ids_of (random_sample pick documents)).
Proof.
  intros H Hl. destruct (random_sample pick documents) as [|doc sample] eqn:Es.
  - rewrite (run_empty perform_hybrid_ner llm_relations) in H by exact Es.
    injection H as <-. rewrite Hl. f_equal. apply set_eq. intros x.
    unfold ManagerMore.ids_of. simpl. rewrite elem_of_union, elem_of_empty. tauto.
  - apply run_ok in H; [|rewrite Es; discriminate]. rewrite Es in H.
    destruct H as (processed' & d & Hl' & _ & ->).
    assert (processed' = processed) as -> by congruence.
    destruct (main_loop_segments perform_hybrid_ner llm_relations dry_run (doc :: sample)
                processed
                (estimate perform_hybrid_ner llm_relations
                   (firstn (Nat.min 3 (length (doc :: sample))) (doc :: sample))
                   (with_db w d))) as [evs (_ & _ & Hp)].
    rewrite ManagerMore.fold_processed_after in Hp. rewrite <- Hp.
    apply ManagerMore.main_loop_checkpoint.
    destruct (estimate_trace perform_hybrid_ner llm_relations
                (firstn (Nat.min 3 (length (doc :: sample))) (doc :: sample))
                (with_db w d)) as [timed (_ & _ & _ & Hf & _)].
    rewrite Hf. exact Hl.
Qed.

(** X28.  One run of [run_pipeline] over an archive covers the sample and
    nothing more: the sampled documents are min(3, n) of the n records
    with a retained chunk, with distinct ids; when the run returns, the
    checkpoint file holds what it held before together with these ids, and
    the checkpoint has been written once for each of them that it did not
    hold before. *)
Theorem pipeline_covers_sample (dry_run : bool) (now : string) (pick : list nat)
    (chunks : list Chunk) (w w' : world) (processed : gset Z) :
  valid_pick (length (ingest_data chunks)) pick = true ->
  run_pipeline perform_hybrid_ner llm_relations dry_run now pick (Some chunks) w
    = (Ok tt, w') ->
  load_checkpoint (checkpoint_file w) = Ok processed ->
  exists ids evs,
    length ids = Nat.min 3 (length (ingest_data chunks)) /\
    List.NoDup ids /\
    (forall rid, In rid ids -> chunks_of rid chunks <> []) /\
    load_checkpoint (checkpoint_file w') = Ok (processed ∪ list_to_set ids) /\
    trace w' = trace w ++ evs /\
    checkpoint_saves evs =
      length (List.filter (fun rid => negb (bool_decide (rid ∈ processed))) ids).
Proof.
  intros Hv H Hl. cbn [run_pipeline] in H. fold run in H.
  set (documents := ingest_data chunks) in *.
  set (sample := random_sample pick documents).
  assert (Hids : map record_id documents = map Some (IngestionFacts.keys chunks))
    by apply IngestionFacts.load_record_ids.
  assert (Hdn : List.NoDup (map record_id documents)).
  { rewrite Hids. apply IngestionMore.nodup_map_some.
    apply (IngestionFacts.inv_nodup _ _ (IngestionFacts.scan_inv_scan chunks)). }
  assert (Hsome : forall doc, In doc sample -> record_id doc <> None).
  { intros doc Hin. apply in_random_sample in Hin as [i [_ Hi]].
    apply list_elem_of_lookup_2, list_elem_of_In in Hi.
    apply (in_map record_id) in Hi. rewrite Hids in Hi.
    apply in_map_iff in Hi as [rid [<- _]]. discriminate. }
  pose proof (record_ids_some sample Hsome) as Hm.
  set (ids := omap record_id sample) in *.
  assert (Hn : List.NoDup ids).
  { apply nodup_some_inv. rewrite <- Hm.
    apply random_sample_nodup; [now apply (valid_pick_nodup (length documents))|exact Hdn]. }
  pose proof (run_trace perform_hybrid_ner llm_relations _ _ _ _ _ _ H)
    as (processed' & timed & evs & Hp & Ht & Hs & _ & Hsegs).
  exists ids, (timed ++ evs). split; [|split; [exact Hn|split; [|split; [|split]]]].
  - unfold valid_pick in Hv. apply andb_true_iff in Hv as [[Hlen Hlt]%andb_true_iff _].
    apply Nat.eqb_eq in Hlen. rewrite <- Hlen, <- (random_sample_total pick documents Hlt).
    fold sample. apply (f_equal (@length _)) in Hm. now rewrite !length_map in Hm.
  - intros rid Hin. apply IngestionFacts.in_keys_iff.
    assert (Hsin : In (Some rid) (map record_id sample)) by (rewrite Hm; now apply in_map).
    apply in_map_iff in Hsin as [doc [Hr Hdoc]].
    apply in_random_sample in Hdoc as [i [_ Hi]].
    apply list_elem_of_lookup_2, list_elem_of_In in Hi.
    apply (in_map record_id) in Hi. rewrite Hids, Hr in Hi.
    apply in_map_iff in Hi as [rid' [[= ->] Hk]]. exact Hk.
  - exact (run_checkpoint_after _ _ _ _ _ _ _ H Hl).
  - exact Ht.
  - rewrite checkpoint_saves_app, (stage_no_saves _ Hs),
      (segments_saves _ _ _ _ Hsegs). cbn [plus].
    destruct Hp as [He|Hp].
    + subst ids sample. rewrite He. reflexivity.
    + assert (processed' = processed) as -> by congruence.
      now apply committed_count_distinct.
Qed.

End Pipeline.

(** ** An archive of four records *)

Definition four_records : list Chunk :=
  [plain_chunk 1 0 "mimikatz was seen on the first host";
   plain_chunk 2 0 "the second report is about phishing";
   plain_chunk 1 1 "and it was used to dump credentials";
   plain_chunk 3 0 "short";
   plain_chunk 4 0 "the fourth report names an exploit";
   plain_chunk 5 0 "the fifth report is a summary"].

Definition archive_run : world :=
  snd (run_pipeline ner_mimikatz llm_nothing false "run-1" [3; 0; 1]%nat
                    (Some four_records) start_world).

Definition no_ids : gset Z := ∅.

Lemma pipeline_covers_sample_witness :
  exists ids evs,
    length ids = Nat.min 3 (length (ingest_data four_records)) /\
    List.NoDup ids /\
    (forall rid, In rid ids -> chunks_of rid four_records <> []) /\
    load_checkpoint (checkpoint_file archive_run) = Ok (no_ids ∪ list_to_set ids) /\
    trace archive_run = trace start_world ++ evs /\
    checkpoint_saves evs =
      length (List.filter (fun rid => negb (bool_decide (rid ∈ no_ids))) ids).
Proof.
  apply (pipeline_covers_sample ner_mimikatz llm_nothing false "run-1" [3; 0; 1]%nat
           four_records start_world archive_run no_ids).
  - vm_compute. reflexivity.
  - vm_compute. reflexivity.
  - reflexivity.
Defined.

End PipelineMore.
